(** * go-testing: the in-memory user repository and the calculator

    A shallow embedding of [internal/database] (the [InMemoryUserRepository]
    and its five methods), of the part of [internal/api] that calls
    [UpdateUser], and of [pkg/calculator], followed by the properties the
    specification states about them.

    Conventions of the embedding:
    - Go's [int] is the 64-bit two's-complement integer of the amd64 and
      arm64 ports; it is a [Z] kept in range by [GoInt.wrap].  (On a
      32-bit port the same holds with 2^31 in place of 2^63.)
    - A [*User] is either [nil] or the address of a [User] object; objects
      live in a heap shared by the repository and its callers, because
      [CreateUser] writes through the pointer it is given and the map keeps
      that very pointer.
    - A method is a computation in a small monad that threads the heap and
      the repository and can return, panic (nil dereference) or block
      (lock already held). *)

From Stdlib Require Import ZArith Floats.
From stdpp Require Import gmap strings list fin_maps sorting.

Open Scope Z_scope.

(** ** Go's [int] *)

Module GoInt.

Definition MaxInt : Z := 9223372036854775807.
Definition MinInt : Z := -9223372036854775808.

(** Reduction into the range of a 64-bit signed integer. *)
Definition wrap (z : Z) : Z :=
  (z + 9223372036854775808) mod 18446744073709551616 - 9223372036854775808.

(** [x++] on an [int]. *)
Definition incr (x : Z) : Z := wrap (x + 1).

Definition in_range (z : Z) : Prop := MinInt ≤ z ≤ MaxInt.

End GoInt.

(** ** Go's [errors] *)

Module errors.

(** The values of the [error] interface that this program makes, all by
    [errors.New(msg)].  A [nil] error is [None : option error]. *)
Inductive error := New (msg : string).

#[global] Instance error_eq_dec : EqDecision error.
Proof. solve_decision. Defined.

End errors.

(** ** Package [database] *)

Module database.

Import GoInt.
Export errors.

(** [type User struct { ID int; Username string; Email string }] *)
Record User := mkUser { ID : Z; Username : string; Email : string }.

Definition set_ID (u : User) (id : Z) : User :=
  {| ID := id; Username := Username u; Email := Email u |}.

#[global] Instance User_eq_dec : EqDecision User.
Proof. solve_decision. Defined.

(** The specification's [NotFound]. *)
Definition NotFound : error := errors.New "user not found".

(** Addresses of [User] objects; a [*User] is [nil] or an address. *)
Definition loc := positive.
Definition ptr := option loc.
Definition nil : ptr := None.

(** [sync.RWMutex], by its contract: one writer or any number of
    readers. *)
Record RWMutex := mkRWMutex { writer : bool; readers : nat }.

Definition unlocked : RWMutex := {| writer := false; readers := 0 |}.

#[global] Instance RWMutex_eq_dec : EqDecision RWMutex.
Proof. solve_decision. Defined.

(** [type InMemoryUserRepository struct { users map[int]*User;
    mutex sync.RWMutex; nextID int }] *)
Record InMemoryUserRepository := mkRepo {
  users : gmap Z ptr;
  mutex : RWMutex;
  nextID : Z
}.

(** [NewUserRepository] *)
Definition NewUserRepository : InMemoryUserRepository :=
  {| users := ∅; mutex := unlocked; nextID := 1 |}.

(** The heap of [User] objects together with the repository [r]. *)
Record world := mkWorld {
  heap : gmap loc User;
  repo : InMemoryUserRepository
}.

(** *** The monad of methods *)

Inductive outcome (A : Type) :=
| Return (a : A) (σ : world)
| Panic (σ : world)
| Blocked.
Arguments Return {A} a σ.
Arguments Panic {A} σ.
Arguments Blocked {A}.

Definition M (A : Type) : Type := world → outcome A.

#[global] Instance M_ret : MRet M := λ A a σ, Return a σ.

#[global] Instance M_bind : MBind M := λ A B k m σ,
  match m σ with
  | Return a σ' => k a σ'
  | Panic σ' => Panic σ'
  | Blocked => Blocked
  end.

Definition ret {A} (a : A) : M A := mret a.

(** [defer d] around [body]: [d] runs when [body] returns and also when
    it panics. *)
Definition defer {A} (d : world → world) (body : M A) : M A :=
  λ σ, match body σ with
       | Return a σ' => Return a (d σ')
       | Panic σ' => Panic (d σ')
       | Blocked => Blocked
       end.

Definition with_mutex (f : RWMutex → RWMutex) (σ : world) : world :=
  {| heap := heap σ;
     repo := {| users := users (repo σ);
                mutex := f (mutex (repo σ));
                nextID := nextID (repo σ) |} |}.

(** [r.mutex.Lock()] *)
Definition Lock : M unit :=
  λ σ, let m := mutex (repo σ) in
       if writer m then Blocked
       else match readers m with
            | O => Return () (with_mutex (λ _, {| writer := true; readers := 0 |}) σ)
            | S _ => Blocked
            end.

(** [r.mutex.Unlock()] *)
Definition Unlock (σ : world) : world :=
  with_mutex (λ m, {| writer := false; readers := readers m |}) σ.

(** [r.mutex.RLock()] *)
Definition RLock : M unit :=
  λ σ, let m := mutex (repo σ) in
       if writer m then Blocked
       else Return () (with_mutex (λ m, {| writer := false; readers := S (readers m) |}) σ).

(** [r.mutex.RUnlock()] *)
Definition RUnlock (σ : world) : world :=
  with_mutex (λ m, {| writer := writer m; readers := pred (readers m) |}) σ.

(** Reading [user.ID]: a nil dereference panics. *)
Definition load_ID (user : ptr) : M Z :=
  λ σ, match user with
       | None => Panic σ
       | Some l => match heap σ !! l with
                   | Some u => Return (ID u) σ
                   | None => Panic σ
                   end
       end.

(** Writing [user.ID = id]. *)
Definition store_ID (user : ptr) (id : Z) : M unit :=
  λ σ, match user with
       | None => Panic σ
       | Some l => match heap σ !! l with
                   | Some u => Return () {| heap := <[l := set_ID u id]> (heap σ);
                                            repo := repo σ |}
                   | None => Panic σ
                   end
       end.

Definition get_nextID : M Z := λ σ, Return (nextID (repo σ)) σ.

Definition set_nextID (n : Z) : M unit :=
  λ σ, Return () {| heap := heap σ;
                    repo := {| users := users (repo σ);
                               mutex := mutex (repo σ);
                               nextID := n |} |}.

Definition get_users : M (gmap Z ptr) := λ σ, Return (users (repo σ)) σ.

Definition set_users (m : gmap Z ptr) : M unit :=
  λ σ, Return () {| heap := heap σ;
                    repo := {| users := m;
                               mutex := mutex (repo σ);
                               nextID := nextID (repo σ) |} |}.

(** *** The five methods *)

(** [GetUser]: [user, exists := r.users[id]]. *)
Definition GetUser (id : Z) : M (ptr * option error) :=
  RLock ;; defer RUnlock (
    m ← get_users;
    match m !! id with
    | None => ret (nil, Some NotFound)
    | Some user => ret (user, None)
    end).

(** [CreateUser]: [user.ID = r.nextID; r.nextID++; r.users[user.ID] = user]. *)
Definition CreateUser (user : ptr) : M (option error) :=
  Lock ;; defer Unlock (
    n ← get_nextID;
    store_ID user n ;;
    n ← get_nextID;
    set_nextID (incr n) ;;
    id ← load_ID user;
    m ← get_users;
    set_users (<[id := user]> m) ;;
    ret None).

(** [UpdateUser]: existence check on [user.ID], then [r.users[user.ID] = user]. *)
Definition UpdateUser (user : ptr) : M (option error) :=
  Lock ;; defer Unlock (
    id ← load_ID user;
    m ← get_users;
    match m !! id with
    | None => ret (Some NotFound)
    | Some _ =>
        id ← load_ID user;
        m ← get_users;
        set_users (<[id := user]> m) ;;
        ret None
    end).

(** [DeleteUser]: existence check on [id], then [delete(r.users, id)]. *)
Definition DeleteUser (id : Z) : M (option error) :=
  Lock ;; defer Unlock (
    m ← get_users;
    match m !! id with
    | None => ret (Some NotFound)
    | Some _ =>
        m ← get_users;
        set_users (delete id m) ;;
        ret None
    end).

(** The values met by [for _, user := range r.users].  Go leaves the
    order of a [range] over a map unspecified; the model takes the
    entries in the order of [map_to_list], and every statement about the
    result of [ListUsers] is made for each permutation of it. *)
Definition range_values (m : gmap Z ptr) : list ptr := (map_to_list m).*2.

(** [ListUsers]: the stored pointers, appended one by one. *)
Definition ListUsers : M (list ptr * option error) :=
  RLock ;; defer RUnlock (
    m ← get_users;
    ret (foldl (λ users user, users ++ [user]) [] (range_values m), None)).

End database.

(** ** Sequences of calls on the repository *)

Module calls.

Import database.

(** A call of one of the five methods of [UserRepository]. *)
Inductive call :=
| Call_GetUser (id : Z)
| Call_CreateUser (user : ptr)
| Call_UpdateUser (user : ptr)
| Call_DeleteUser (id : Z)
| Call_ListUsers.

(** What the caller sees of a call. *)
Inductive result :=
| Res_GetUser (user : ptr) (err : option error)
| Res_error (err : option error)
| Res_ListUsers (us : list ptr) (err : option error)
| Res_panic
| Res_blocked.

(** A caller that recovers from a panic goes on with the world the panic
    left; a call that would block leaves the world as it is. *)
Definition run {A} (m : M A) (k : A → result) (σ : world) : result * world :=
  match m σ with
  | Return a σ' => (k a, σ')
  | Panic σ' => (Res_panic, σ')
  | Blocked => (Res_blocked, σ)
  end.

Definition do_call (c : call) (σ : world) : result * world :=
  match c with
  | Call_GetUser id => run (GetUser id) (λ r, Res_GetUser r.1 r.2) σ
  | Call_CreateUser user => run (CreateUser user) Res_error σ
  | Call_UpdateUser user => run (UpdateUser user) Res_error σ
  | Call_DeleteUser id => run (DeleteUser id) Res_error σ
  | Call_ListUsers => run ListUsers (λ r, Res_ListUsers r.1 r.2) σ
  end.

(** The world after a sequence of calls. *)
Definition do_calls (cs : list call) (σ : world) : world :=
  foldl (λ σ c, (do_call c σ).2) σ cs.

(** What a successful write did, as the caller can tell from its argument
    and the [nil] error: [Created l id] when [CreateUser(l)] returned and
    [l.ID] reads [id]; [Updated l id] when [UpdateUser(l)] returned [nil]
    with [l.ID = id]; [Deleted id] when [DeleteUser(id)] returned [nil]. *)
Inductive event :=
| Created (l : loc) (id : Z)
| Updated (l : loc) (id : Z)
| Deleted (id : Z).

Definition event_of (c : call) (r : result) (σ' : world) : list event :=
  match c, r with
  | Call_CreateUser (Some l), Res_error None =>
      match heap σ' !! l with Some u => [Created l (ID u)] | None => [] end
  | Call_UpdateUser (Some l), Res_error None =>
      match heap σ' !! l with Some u => [Updated l (ID u)] | None => [] end
  | Call_DeleteUser id, Res_error None => [Deleted id]
  | _, _ => []
  end.

(** The successful writes of a sequence of calls, oldest first. *)
Fixpoint history (cs : list call) (σ : world) : list event :=
  match cs with
  | [] => []
  | c :: cs' =>
      let '(r, σ') := do_call c σ in event_of c r σ' ++ history cs' σ'
  end.

(** The identifiers that the [CreateUser] calls of a sequence assigned,
    oldest first. *)
Definition id_of_created (e : event) : option Z :=
  match e with Created _ id => Some id | _ => None end.

Definition created_ids (cs : list call) (σ : world) : list Z :=
  omap id_of_created (history cs σ).

(** The object that an event puts under [id], if it does. *)
Definition written (id : Z) (e : event) : option loc :=
  match e with
  | Created l id' | Updated l id' => if decide (id' = id) then Some l else None
  | Deleted _ => None
  end.

(** The object under [id] after the writes of a history, when it was [l]
    before: that of the last write under [id], or [l] still. *)
Definition holder (l : loc) (id : Z) (h : list event) : loc :=
  foldl (λ l e, default l (written id e)) l h.

(** Number of [CreateUser] calls in a sequence. *)
Definition is_create (c : call) : bool :=
  match c with Call_CreateUser _ => true | _ => false end.

Definition count_creates (cs : list call) : nat :=
  length (filter (λ c, is_create c = true) cs).

(** No [CreateUser] of the sequence is handed an object that the map holds
    at the time of the call. *)
Fixpoint creates_unstored (cs : list call) (σ : world) : Prop :=
  match cs with
  | [] => True
  | c :: cs' =>
      match c with
      | Call_CreateUser user => ∀ k, users (repo σ) !! k ≠ Some user
      | _ => True
      end ∧ creates_unstored cs' (do_call c σ).2
  end.

(** The state properties of the repository. *)
Definition idle (σ : world) : Prop := mutex (repo σ) = unlocked.

Definition fresh_repo (σ : world) : Prop := repo σ = NewUserRepository.

(** Every stored pointer is the address of an object. *)
Definition stored_valid (σ : world) : Prop :=
  ∀ k p, users (repo σ) !! k = Some p →
         ∃ l u, p = Some l ∧ heap σ !! l = Some u.

(** Every stored pointer is the address of an object whose [ID] field is
    the key it is stored under. *)
Definition keyed_by_ID (σ : world) : Prop :=
  ∀ k p, users (repo σ) !! k = Some p →
         ∃ l u, p = Some l ∧ heap σ !! l = Some u ∧ ID u = k.

(** Every key is at least 1 and below the counter. *)
Definition keys_below_nextID (σ : world) : Prop :=
  ∀ k, is_Some (users (repo σ) !! k) → 1 ≤ k < nextID (repo σ).

(** The effect of a call on a world whose lock is free, read off the
    event it leaves in the history. *)
Definition effect (c : call) (σ σ' : world) (e : list event) : Prop :=
  match e with
  | [] => σ' = σ
  | [Created l id] =>
      c = Call_CreateUser (Some l) ∧ id = nextID (repo σ) ∧
      (∃ u, heap σ !! l = Some u ∧
            heap σ' = <[l := set_ID u id]> (heap σ)) ∧
      users (repo σ') = <[id := Some l]> (users (repo σ)) ∧
      nextID (repo σ') = GoInt.incr id
  | [Updated l id] =>
      c = Call_UpdateUser (Some l) ∧
      (∃ u, heap σ !! l = Some u ∧ ID u = id) ∧
      is_Some (users (repo σ) !! id) ∧
      heap σ' = heap σ ∧
      users (repo σ') = <[id := Some l]> (users (repo σ)) ∧
      nextID (repo σ') = nextID (repo σ)
  | [Deleted id] =>
      c = Call_DeleteUser id ∧
      is_Some (users (repo σ) !! id) ∧
      heap σ' = heap σ ∧
      users (repo σ') = delete id (users (repo σ)) ∧
      nextID (repo σ') = nextID (repo σ)
  | _ => False
  end.

(** [m] identifiers have been assigned so far: the counter is [1 + m] in
    [int] arithmetic and every key is one of 1, ..., [m]. *)
Definition counted (σ : world) (m : Z) : Prop :=
  nextID (repo σ) = GoInt.wrap (1 + m) ∧
  ∀ k, is_Some (users (repo σ) !! k) → 1 ≤ k ≤ m.

(** The [ID] fields of a list of pointers, as a caller reads them. *)
Definition IDs_of (σ : world) (us : list ptr) : list Z :=
  omap (λ p : ptr, l ← p; u ← heap σ !! l; Some (ID u)) us.

End calls.

(** ** Package [api]: the handler of [PUT /users/{id}] *)

Module api.

Import database.

(** [var user database.User] filled by the JSON decoder: a new object,
    at an address that no pointer held before. *)
Definition new_User (u : User) : M ptr :=
  λ σ, let l := fresh (dom (heap σ)) in
       Return (Some l) {| heap := <[l := u]> (heap σ); repo := repo σ |}.

(** Reading [*user]. *)
Definition load_User (user : ptr) : M User :=
  λ σ, match user with
       | None => Panic σ
       | Some l => match heap σ !! l with
                   | Some u => Return u σ
                   | None => Panic σ
                   end
       end.

Definition StatusOK : Z := 200.
Definition StatusNotFound : Z := 404.

(** What the handler writes: [respondJSON(w, status, user)] or
    [respondError(w, status, message)]. *)
Inductive response :=
| respondJSON (status : Z) (user : User)
| respondError (status : Z) (message : string).

(** [Server.updateUser] once the path gave [id] and the body decoded to
    [body]: [user.ID = id], then [s.userRepo.UpdateUser(&user)]. *)
Definition updateUser (id : Z) (body : User) : M response :=
  user ← new_User body;
  store_ID user id ;;
  err ← UpdateUser user;
  match err with
  | Some _ => mret (respondError StatusNotFound "User not found")
  | None => u ← load_User user; mret (respondJSON StatusOK u)
  end.

End api.

(** ** Goroutines that call [CreateUser] at the same time *)

Module concurrent.

Import GoInt database.

(** Where a goroutine stands in [CreateUser]: before
    [r.mutex.Lock()], [user.ID = r.nextID], the read and the write of
    [r.nextID++], [r.users[user.ID] = user], and the deferred
    [r.mutex.Unlock()]. *)
Inductive pc :=
| AtLock | AtAssignID | AtLoadNextID | AtStoreNextID | AtStoreUser | AtUnlock.

#[global] Instance pc_eq_dec : EqDecision pc.
Proof. solve_decision. Defined.

(** A goroutine: the arguments of the [CreateUser] calls it has yet to
    finish (the first is the call in progress), where it stands in that
    call, and the value it read for [r.nextID++]. *)
Record goroutine := mkG { todo : list ptr; at_pc : pc; tmp : Z }.

(** One atomic step of a goroutine on the shared world; [None] when it
    cannot move (no call left, or the lock is held).  The third component
    is the assignment made by the step, if any: the object and the
    identifier written into it.  A nil dereference panics: the deferred
    [Unlock] runs and the goroutine makes no further call. *)
Definition goroutine_step (g : goroutine) (σ : world)
  : option (goroutine * world * list (loc * Z)) :=
  match todo g with
  | [] => None
  | user :: rest =>
      match at_pc g with
      | AtLock =>
          match Lock σ with
          | Return _ σ' => Some (mkG (todo g) AtAssignID (tmp g), σ', [])
          | _ => None
          end
      | AtAssignID =>
          match (n ← get_nextID; store_ID user n) σ with
          | Return _ σ' =>
              Some (mkG (todo g) AtLoadNextID (tmp g), σ',
                    match user with
                    | Some l => [(l, nextID (repo σ))]
                    | None => []
                    end)
          | Panic σ' => Some (mkG [user] AtUnlock (tmp g), σ', [])
          | Blocked => None
          end
      | AtLoadNextID =>
          Some (mkG (todo g) AtStoreNextID (nextID (repo σ)), σ, [])
      | AtStoreNextID =>
          match set_nextID (incr (tmp g)) σ with
          | Return _ σ' => Some (mkG (todo g) AtStoreUser (tmp g), σ', [])
          | _ => None
          end
      | AtStoreUser =>
          match (id ← load_ID user; m ← get_users;
                 set_users (<[id := user]> m)) σ with
          | Return _ σ' => Some (mkG (todo g) AtUnlock (tmp g), σ', [])
          | Panic σ' => Some (mkG [user] AtUnlock (tmp g), σ', [])
          | Blocked => None
          end
      | AtUnlock => Some (mkG rest AtLock (tmp g), Unlock σ, [])
      end
  end.

(** The goroutines, the world they share, and the assignments made so far
    (newest first). *)
Record config := mkConfig {
  goroutines : list goroutine;
  shared : world;
  assigned : list (loc * Z)
}.

(** The scheduler lets any goroutine that can move make one step. *)
Inductive sched_step : config → config → Prop :=
| sched_step_at i g g' σ' a c :
    goroutines c !! i = Some g →
    goroutine_step g (shared c) = Some (g', σ', a) →
    sched_step c (mkConfig (<[i := g']> (goroutines c)) σ' (a ++ assigned c)).

(** Every goroutine is about to make the first of its calls. *)
Definition start (calls : list (list ptr)) (σ : world) : config :=
  mkConfig ((λ us, mkG us AtLock 0) <$> calls) σ [].

(** A goroutine that holds the lock. *)
Definition in_critical_section (g : goroutine) : bool :=
  match todo g, at_pc g with
  | [], _ => false
  | _, AtLock => false
  | _, _ => true
  end.

(** One goroutine run on its own for [n] steps. *)
Fixpoint run_alone (n : nat) (g : goroutine) (σ : world) : goroutine * world :=
  match n with
  | O => (g, σ)
  | S n' =>
      match goroutine_step g σ with
      | Some (g', σ', _) => run_alone n' g' σ'
      | None => (g, σ)
      end
  end.

(** A scheduler given as the list of the goroutines to move, in order;
    a goroutine that cannot move is skipped. *)
Fixpoint run_schedule (sched : list nat) (c : config) : config :=
  match sched with
  | [] => c
  | i :: sched' =>
      match goroutines c !! i with
      | Some g =>
          match goroutine_step g (shared c) with
          | Some (g', σ', a) =>
              run_schedule sched'
                (mkConfig (<[i := g']> (goroutines c)) σ' (a ++ assigned c))
          | None => run_schedule sched' c
          end
      | None => run_schedule sched' c
      end
  end.

(** The identifier last assigned to the object at [l]. *)
Fixpoint latest_id (l : loc) (a : list (loc * Z)) : option Z :=
  match a with
  | [] => None
  | (l', id) :: a' => if decide (l' = l) then Some id else latest_id l a'
  end.

(** The assignments are numbered 1, 2, ... from the oldest. *)
Fixpoint numbered (a : list (loc * Z)) : Prop :=
  match a with
  | [] => True
  | (_, id) :: a' => id = Z.of_nat (length a') + 1 ∧ numbered a'
  end.

(** A goroutine that has written [user.ID] and not yet finished
    [r.nextID++]. *)
Definition behind (g : goroutine) : bool :=
  match todo g, at_pc g with
  | _ :: _, (AtLoadNextID | AtStoreNextID) => true
  | _, _ => false
  end.

(** A goroutine that has written [user.ID] and not yet stored the
    pointer. *)
Definition assigning (g : goroutine) : bool :=
  match todo g, at_pc g with
  | _ :: _, (AtLoadNextID | AtStoreNextID | AtStoreUser) => true
  | _, _ => false
  end.

(** What holds of every configuration that the scheduler can reach. *)
Record invariant (c : config) : Prop := mkInvariant {
  inv_readers : readers (mutex (repo (shared c))) = 0%nat;
  inv_exclusive :
    ∀ i j gi gj,
      goroutines c !! i = Some gi → goroutines c !! j = Some gj →
      in_critical_section gi = true → in_critical_section gj = true →
      i = j;
  inv_writer :
    writer (mutex (repo (shared c))) = true ↔
    ∃ i g, goroutines c !! i = Some g ∧ in_critical_section g = true;
  inv_numbered : numbered (assigned c);
  inv_behind :
    ∀ i g, goroutines c !! i = Some g → behind g = true →
           nextID (repo (shared c)) = Z.of_nat (length (assigned c)) ∧
           (at_pc g = AtStoreNextID →
            tmp g = Z.of_nat (length (assigned c)));
  inv_caught_up :
    (∀ i g, goroutines c !! i = Some g → behind g = false) →
    nextID (repo (shared c)) = Z.of_nat (length (assigned c)) + 1;
  inv_assigning :
    ∀ i g, goroutines c !! i = Some g → assigning g = true →
           ∃ l, head (todo g) = Some (Some l) ∧
                is_Some (latest_id l (assigned c));
  inv_heap :
    ∀ l id, latest_id l (assigned c) = Some id →
            ∃ u, heap (shared c) !! l = Some u ∧ ID u = id;
  inv_stored :
    ∀ k p, users (repo (shared c)) !! k = Some p →
           ∃ l, p = Some l ∧ is_Some (latest_id l (assigned c))
}.

End concurrent.

(** ** Package [calculator] *)

Module calculator.

Import errors.

Definition DivisionByZero : error := errors.New "division by zero".

(** [Add], [Subtract], [Multiply]: IEEE 754 binary64 arithmetic. *)
Definition Add (a b : float) : float := (a + b)%float.
Definition Subtract (a b : float) : float := (a - b)%float.
Definition Multiply (a b : float) : float := (a * b)%float.

(** [Divide]: [if b == 0 { return 0, errors.New("division by zero") }]. *)
Definition Divide (a b : float) : float * option error :=
  if (b =? 0)%float then (0%float, Some DivisionByZero)
  else ((a / b)%float, None).

(** The float is one of the two zeros of binary64. *)
Definition is_zero (b : float) : Prop :=
  Prim2SF b = S754_zero false ∨ Prim2SF b = S754_zero true.

End calculator.

(** ** Small worlds to run the model on *)

Module examples.

Import database.

Definition alice : User := {| ID := 0; Username := "a"; Email := "a@x.com" |}.
Definition bob : User := {| ID := 77; Username := "b"; Email := "b@x.com" |}.

(** Two objects made by a caller, and a new repository. *)
Definition two_users : world :=
  {| heap := {[ 1%positive := alice; 2%positive := bob ]};
     repo := NewUserRepository |}.

(** The same after [CreateUser] on the first object. *)
Definition alice_stored : world :=
  {| heap := {[ 1%positive := set_ID alice 1; 2%positive := bob ]};
     repo := {| users := {[ 1 := Some 1%positive ]};
                mutex := unlocked;
                nextID := 2 |} |}.

(** The new repository after the handler [createUser] served a request
    with the body [alice]: the decoded record is a third object. *)
Definition alice_posted : world :=
  {| heap := {[ 1%positive := alice; 2%positive := bob;
                3%positive := set_ID alice 1 ]};
     repo := {| users := {[ 1 := Some 3%positive ]};
                mutex := unlocked;
                nextID := 2 |} |}.

(** [CreateUser] twice on the first object. *)
Definition same_object_twice : list calls.call :=
  [calls.Call_CreateUser (Some (1%positive : loc));
   calls.Call_CreateUser (Some (1%positive : loc))].

(** A caller that creates a user and deletes it again, [n] times over,
    always with the same object; [id] is the identifier it expects for
    the first of them. *)
Fixpoint churn (n : nat) (id : Z) : list calls.call :=
  match n with
  | O => []
  | S n' =>
      calls.Call_CreateUser (Some (1%positive : loc))
        :: calls.Call_DeleteUser id :: churn n' (GoInt.incr id)
  end.

End examples.

(** ** Go's [strings.Split] and [strconv.Atoi], as [extractIDFromPath]
    uses them *)

Module strconv.

Import Stdlib.Strings.Ascii.

(** [strconv.ErrSyntax] and [strconv.ErrRange]. *)
Definition ErrSyntax : errors.error := errors.New "invalid syntax".
Definition ErrRange : errors.error := errors.New "value out of range".

(** The errors that come out of [extractIDFromPath]: [strconv.ErrSyntax]
    itself, or the [*NumError] that [Atoi] makes around [ErrSyntax] or
    [ErrRange]. *)
Inductive error :=
| Plain (err : errors.error)
| NumError (Func Num : string) (Err : errors.error).

Definition syntaxError (fn str : string) : error := NumError fn str ErrSyntax.
Definition rangeError (fn str : string) : error := NumError fn str ErrRange.

Definition maxUint64 : Z := 18446744073709551615.

(** ['0' <= c && c <= '9'], and [c - '0']. *)
Definition is_digit (c : ascii) : bool :=
  (48 <=? Z.of_N (N_of_ascii c)) && (Z.of_N (N_of_ascii c) <=? 57).

Definition digit (c : ascii) : Z := Z.of_N (N_of_ascii c) - 48.

(** The loop of [ParseUint(s, 10, 64)]: a byte that is no digit is a
    syntax error; [n >= cutoff] (with [cutoff = maxUint64/10 + 1]) or
    [n*10 + d > maxVal] is a range error, with the value [maxVal]. *)
Fixpoint ParseUint_loop (s0 s : string) (n : Z) : Z * option error :=
  match s with
  | EmptyString => (n, None)
  | String c s' =>
      if is_digit c then
        if 1844674407370955162 <=? n then
          (maxUint64, Some (rangeError "ParseUint" s0))
        else if maxUint64 <? n * 10 + digit c then
          (maxUint64, Some (rangeError "ParseUint" s0))
        else ParseUint_loop s0 s' (n * 10 + digit c)
      else (0, Some (syntaxError "ParseUint" s0))
  end.

Definition ParseUint (s : string) : Z * option error :=
  match s with
  | EmptyString => (0, Some (syntaxError "ParseUint" s))
  | _ => ParseUint_loop s s 0
  end.

(** [ParseInt(s, 10, 0)]: the sign is picked off, a syntax error of
    [ParseUint] is passed on under the name [ParseInt], and the range is
    checked against [1 << 63]. *)
Definition ParseInt (s0 : string) : Z * option error :=
  match s0 with
  | EmptyString => (0, Some (syntaxError "ParseInt" s0))
  | String c s' =>
      let neg := bool_decide (c = "-"%char) in
      let s := if bool_decide (c = "+"%char) || neg then s' else s0 in
      match ParseUint s with
      | (_, Some (NumError _ _ (errors.New "invalid syntax"))) =>
          (0, Some (syntaxError "ParseInt" s0))
      | (un, _) =>
          if negb neg && (9223372036854775808 <=? un) then
            (9223372036854775807, Some (rangeError "ParseInt" s0))
          else if neg && (9223372036854775808 <? un) then
            (-9223372036854775808, Some (rangeError "ParseInt" s0))
          else (if neg then - un else un, None)
      end
  end.

(** The fast path of [Atoi], for strings of 1 to 18 bytes. *)
Fixpoint Atoi_fast_loop (s0 s : string) (n : Z) : Z * option error :=
  match s with
  | EmptyString => (n, None)
  | String c s' =>
      if is_digit c then Atoi_fast_loop s0 s' (n * 10 + digit c)
      else (0, Some (syntaxError "Atoi" s0))
  end.

Definition Atoi_fast (s0 : string) : Z * option error :=
  match s0 with
  | EmptyString => (0, Some (syntaxError "Atoi" s0))
  | String c s' =>
      let signed := bool_decide (c = "-"%char) || bool_decide (c = "+"%char) in
      let s := if signed then s' else s0 in
      if signed && (String.length s <? 1)%nat then
        (0, Some (syntaxError "Atoi" s0))
      else
        match Atoi_fast_loop s0 s 0 with
        | (n, None) => (if bool_decide (c = "-"%char) then - n else n, None)
        | r => r
        end
  end.

(** [strconv.Atoi] on a 64-bit port. *)
Definition Atoi (s : string) : Z * option error :=
  if (0 <? String.length s)%nat && (String.length s <? 19)%nat then
    Atoi_fast s
  else
    match ParseInt s with
    | (i64, Some (NumError _ num err)) => (i64, Some (NumError "Atoi" num err))
    | r => r
    end.

(** [strings.Split(s, sep)] for a one-byte separator: the pieces of [s]
    between the separators, empty pieces included; a string without
    separator is its only piece. *)
Fixpoint Split (s : string) (sep : ascii) : list string :=
  match s with
  | EmptyString => [EmptyString]
  | String c s' =>
      if bool_decide (c = sep) then EmptyString :: Split s' sep
      else match Split s' sep with
           | [] => [String c EmptyString]
           | piece :: pieces => String c piece :: pieces
           end
  end.

(** A numeral: the bytes of the decimal digits [ds], most significant
    first, and its value. *)
Definition digit_char (d : Z) : ascii :=
  ascii_of_N (Z.to_N (48 + d)).

Fixpoint numeral (ds : list Z) : string :=
  match ds with
  | [] => EmptyString
  | d :: ds' => String (digit_char d) (numeral ds')
  end.

Definition value_from (n : Z) (ds : list Z) : Z :=
  foldl (λ n d, n * 10 + d) n ds.

Definition value (ds : list Z) : Z := value_from 0 ds.

(** Whether the byte [c] occurs in [s]. *)
Fixpoint has_byte (c : ascii) (s : string) : bool :=
  match s with
  | EmptyString => false
  | String c' s' => bool_decide (c' = c) || has_byte c s'
  end.

Definition digits (ds : list Z) : Prop := Forall (λ d, 0 ≤ d ≤ 9) ds.

End strconv.

(** ** Package [api]: the handlers of the user routes *)

Module handlers.

Import Stdlib.Strings.Ascii database api.

(** [extractIDFromPath]: the third piece of the path split at ["/"], read
    by [Atoi]; [strconv.ErrSyntax] when there are fewer than three
    pieces. *)
Definition extractIDFromPath (path : string) : Z * option strconv.error :=
  let parts := strconv.Split path "/"%char in
  if (length parts <? 3)%nat then (0, Some (strconv.Plain strconv.ErrSyntax))
  else strconv.Atoi (nth 2 parts EmptyString).

Definition StatusCreated : Z := 201.
Definition StatusNoContent : Z := 204.
Definition StatusBadRequest : Z := 400.
Definition StatusInternalServerError : Z := 500.

(** What [json.NewEncoder(w).Encode(data)] writes for the data that the
    user handlers pass: a [User] as an object, a nil [*User] as [null], a
    slice as an array, [map[string]string{"error": message}]. *)
Inductive encoded :=
| User_object (u : User)
| null.

Inductive payload :=
| one (item : encoded)
| array (items : list encoded)
| error_object (message : string).

(** What a handler leaves in the [http.ResponseWriter]: the status and,
    unless it only called [w.WriteHeader], the encoded data. *)
Record reply := mkReply { status : Z; body : option payload }.

Definition respondJSON (status : Z) (data : payload) : reply :=
  {| status := status; body := Some data |}.

Definition respondError (status : Z) (message : string) : reply :=
  respondJSON status (error_object message).

Definition WriteHeader (status : Z) : reply :=
  {| status := status; body := None |}.

(** Encoding a [*User] and a [[]*User] reads the objects pointed to. *)
Definition encode_User (user : ptr) : M encoded :=
  match user with
  | None => mret null
  | Some _ => u ← load_User user; mret (User_object u)
  end.

Fixpoint encode_Users (users : list ptr) : M (list encoded) :=
  match users with
  | [] => mret []
  | user :: rest =>
      p ← encode_User user; ps ← encode_Users rest; mret (p :: ps)
  end.

(** [Server.listUsers] *)
Definition listUsers : M reply :=
  r ← ListUsers;
  match r.2 with
  | Some _ =>
      mret (respondError StatusInternalServerError "Error retrieving users")
  | None => ps ← encode_Users r.1; mret (respondJSON StatusOK (array ps))
  end.

(** [Server.getUser] on a request with the path [path]. *)
Definition getUser (path : string) : M reply :=
  match extractIDFromPath path with
  | (_, Some _) => mret (respondError StatusBadRequest "Invalid user ID")
  | (id, None) =>
      r ← GetUser id;
      match r.2 with
      | Some _ => mret (respondError StatusNotFound "User not found")
      | None => p ← encode_User r.1; mret (respondJSON StatusOK (one p))
      end
  end.

(** [Server.createUser] on a request whose body the JSON decoder reads as
    [body]: [None] when [Decode] returns an error, else the [User] that it
    leaves in [user]. *)
Definition createUser (body : option User) : M reply :=
  match body with
  | None => mret (respondError StatusBadRequest "Invalid request body")
  | Some b =>
      user ← new_User b;
      err ← CreateUser user;
      match err with
      | Some _ =>
          mret (respondError StatusInternalServerError "Error creating user")
      | None =>
          u ← load_User user;
          mret (respondJSON StatusCreated (one (User_object u)))
      end
  end.

Definition of_response (r : response) : reply :=
  match r with
  | api.respondJSON status user => respondJSON status (one (User_object user))
  | api.respondError status message => respondError status message
  end.

(** [Server.updateUser] on a request with the path [path] and the body
    [body]: the path is read first, then the body. *)
Definition updateUser (path : string) (body : option User) : M reply :=
  match extractIDFromPath path with
  | (_, Some _) => mret (respondError StatusBadRequest "Invalid user ID")
  | (id, None) =>
      match body with
      | None => mret (respondError StatusBadRequest "Invalid request body")
      | Some b => r ← api.updateUser id b; mret (of_response r)
      end
  end.

(** [Server.deleteUser] on a request with the path [path]. *)
Definition deleteUser (path : string) : M reply :=
  match extractIDFromPath path with
  | (_, Some _) => mret (respondError StatusBadRequest "Invalid user ID")
  | (id, None) =>
      err ← DeleteUser id;
      match err with
      | Some _ => mret (respondError StatusNotFound "User not found")
      | None => mret (WriteHeader StatusNoContent)
      end
  end.

(** A request, by the handler that the router hands it to. *)
Inductive request :=
| To_listUsers
| To_getUser (path : string)
| To_createUser (body : option User)
| To_updateUser (path : string) (body : option User)
| To_deleteUser (path : string).

Definition serve (r : request) : M reply :=
  match r with
  | To_listUsers => listUsers
  | To_getUser path => getUser path
  | To_createUser body => createUser body
  | To_updateUser path body => updateUser path body
  | To_deleteUser path => deleteUser path
  end.

(** Requests served one after the other. *)
Fixpoint serve_all (rs : list request) : M (list reply) :=
  match rs with
  | [] => mret []
  | r :: rs' => p ← serve r; ps ← serve_all rs'; mret (p :: ps)
  end.

(** The worlds that serving requests leads to from a new repository. *)
Definition reachable (σ : world) : Prop :=
  ∃ σ0 rs replies,
    calls.fresh_repo σ0 ∧ serve_all rs σ0 = Return replies σ.

(** The statuses of the handlers other than 500. *)
Definition expected (rep : reply) : Prop :=
  status rep ∈ [StatusOK; StatusCreated; StatusNoContent; StatusBadRequest;
                StatusNotFound].

(** The requests that [Router] registers under [GET]. *)
Definition is_GET (r : request) : Prop :=
  match r with To_listUsers | To_getUser _ => True | _ => False end.

(** The object behind a pointer, and what the map holds under each key:
    the object behind the stored pointer. *)
Definition object_at (σ : world) (user : ptr) : option User :=
  user ≫= λ l, heap σ !! l.

Definition contents (σ : world) : gmap Z User :=
  omap (object_at σ) (users (repo σ)).

(** The [User] of an encoded object. *)
Definition user_of (p : encoded) : option User :=
  match p with User_object u => Some u | null => None end.

(** A sign and digits, as a string. *)
Inductive sign := no_sign | plus | minus.

Definition sign_string (sg : sign) : string :=
  match sg with no_sign => "" | plus => "+" | minus => "-" end.

Definition signed_value (sg : sign) (ds : list Z) : Z :=
  match sg with minus => - strconv.value ds | _ => strconv.value ds end.

End handlers.

(** ** Runs of the goroutines *)

Module schedules.

Import database calls concurrent.

(** The steps that a goroutine has yet to make in the call in progress,
    and in all its calls. *)
Definition steps_left (p : pc) : nat :=
  match p with
  | AtLock => 6
  | AtAssignID => 5
  | AtLoadNextID => 4
  | AtStoreNextID => 3
  | AtStoreUser => 2
  | AtUnlock => 1
  end.



(** The calls of a goroutine that have yet to write [user.ID]. *)
Definition calls_left (g : goroutine) : nat :=
  match todo g with
  | [] => 0
  | _ :: rest =>
      match at_pc g with AtLock | AtAssignID => 1 | _ => 0 end + length rest
  end.


(** No call is in progress. *)
Definition quiescent (c : config) : Prop :=
  ∀ i g, goroutines c !! i = Some g → in_critical_section g = false.

(** The [CreateUser] calls behind the assignments, in the order of the
    assignments. *)
Definition creates (a : list (loc * Z)) : list call :=
  (λ x, Call_CreateUser (Some x.1)) <$> reverse a.

(** The world once the call in progress of [g] is over, apart from a call
    that has yet to write [user.ID], which counts as not begun. *)
Definition settled (g : goroutine) (σ : world) : world :=
  match todo g, at_pc g with
  | [], _ | _, AtLock => σ
  | _, AtAssignID => Unlock σ
  | _, p => (run_alone (steps_left p) g σ).2
  end.

(** What the sequential calls behind the assignments do is what the
    goroutines have done, once the call in progress is over. *)
Definition linearized (σ0 : world) (c : config) : Prop :=
  (∀ i g, goroutines c !! i = Some g → in_critical_section g = true →
          settled g (shared c) = do_calls (creates (assigned c)) σ0) ∧
  (quiescent c → shared c = do_calls (creates (assigned c)) σ0).

End schedules.

(** ** What a call writes, and counting the deletions *)

Module bookkeeping.

Import database calls.

(** The key under which a call writes, if it gets to write: the counter
    for [CreateUser], [user.ID] for [UpdateUser], [id] for
    [DeleteUser]. *)
Definition target (c : call) (σ : world) : option Z :=
  match c with
  | Call_CreateUser _ => Some (nextID (repo σ))
  | Call_UpdateUser (Some l) => ID <$> heap σ !! l
  | Call_DeleteUser id => Some id
  | _ => None
  end.

Definition is_Deleted (e : event) : bool :=
  match e with Deleted _ => true | _ => false end.

(** Number of [DeleteUser] calls of a history that found their entry. *)
Definition deleted_count (h : list event) : nat :=
  length (filter (λ e, is_Deleted e = true) h).

End bookkeeping.

(** * Properties *)

(** ** Arithmetic of [int] *)

Section GoInt_facts.

Import GoInt.

Lemma wrap_in_range z : in_range (wrap z).
Proof.
  unfold in_range, wrap, MinInt, MaxInt.
  pose proof (Z.mod_pos_bound (z + 9223372036854775808)
                18446744073709551616 eq_refl).
  lia.
Qed.

Lemma wrap_id z : in_range z → wrap z = z.
Proof.
  unfold in_range, wrap, MinInt, MaxInt. intros Hz.
  rewrite Z.mod_small; lia.
Qed.

Lemma incr_small x : MinInt ≤ x < MaxInt → incr x = x + 1.
Proof.
  unfold incr, MinInt, MaxInt. intros Hx. apply wrap_id.
  unfold in_range, MinInt, MaxInt. lia.
Qed.

Lemma incr_MaxInt : incr MaxInt = MinInt.
Proof. reflexivity. Qed.

End GoInt_facts.

(** ** The methods on a repository whose lock is free *)

Ltac unfold_M :=
  unfold database.GetUser, database.CreateUser, database.UpdateUser,
    database.DeleteUser, database.ListUsers, database.Lock, database.RLock,
    database.Unlock, database.RUnlock, database.defer, database.load_ID,
    database.store_ID, database.get_nextID, database.set_nextID,
    database.get_users, database.set_users, database.with_mutex, database.ret,
    mbind, database.M_bind, mret, database.M_ret; simpl.

Ltac open_world σ Hidle :=
  let h := fresh "h" in let us := fresh "us" in
  let mu := fresh "mu" in let n := fresh "n" in
  destruct σ as [h [us mu n]]; unfold calls.idle in Hidle; simpl in Hidle;
  subst mu; simpl in *.

Section method_facts.

Import GoInt database calls.

(** [CreateUser] on the address of an object. *)
Lemma CreateUser_Some σ l u :
  idle σ → heap σ !! l = Some u →
  CreateUser (Some l) σ =
    Return None
      {| heap := <[l := set_ID u (nextID (repo σ))]> (heap σ);
         repo := {| users := <[nextID (repo σ) := Some l]> (users (repo σ));
                    mutex := unlocked;
                    nextID := incr (nextID (repo σ)) |} |}.
Proof.
  intros Hidle Hl. open_world σ Hidle. unfold_M.
  rewrite Hl. simpl. rewrite lookup_insert_eq. reflexivity.
Qed.

(** [CreateUser] on [nil], or on an address that holds no object, panics
    at [user.ID = r.nextID] and changes nothing. *)
Lemma CreateUser_panic σ user :
  idle σ → (∀ l, user = Some l → heap σ !! l = None) →
  CreateUser user σ = Panic σ.
Proof.
  intros Hidle Hl. open_world σ Hidle. unfold_M.
  destruct user as [l|]; [rewrite (Hl l eq_refl)|]; reflexivity.
Qed.

Lemma GetUser_eq σ id :
  idle σ →
  GetUser id σ =
    Return (match users (repo σ) !! id with
            | Some user => (user, None)
            | None => (nil, Some NotFound)
            end) σ.
Proof.
  intros Hidle. open_world σ Hidle. unfold_M.
  destruct (us !! id); reflexivity.
Qed.

Lemma UpdateUser_Some σ l u :
  idle σ → heap σ !! l = Some u →
  UpdateUser (Some l) σ =
    match users (repo σ) !! ID u with
    | None => Return (Some NotFound) σ
    | Some _ =>
        Return None
          {| heap := heap σ;
             repo := {| users := <[ID u := Some l]> (users (repo σ));
                        mutex := unlocked;
                        nextID := nextID (repo σ) |} |}
    end.
Proof.
  intros Hidle Hl. open_world σ Hidle. unfold_M.
  rewrite Hl. simpl. destruct (us !! ID u); simpl; [rewrite Hl|]; reflexivity.
Qed.

Lemma UpdateUser_panic σ user :
  idle σ → (∀ l, user = Some l → heap σ !! l = None) →
  UpdateUser user σ = Panic σ.
Proof.
  intros Hidle Hl. open_world σ Hidle. unfold_M.
  destruct user as [l|]; [rewrite (Hl l eq_refl)|]; reflexivity.
Qed.

Lemma DeleteUser_eq σ id :
  idle σ →
  DeleteUser id σ =
    match users (repo σ) !! id with
    | None => Return (Some NotFound) σ
    | Some _ =>
        Return None
          {| heap := heap σ;
             repo := {| users := delete id (users (repo σ));
                        mutex := unlocked;
                        nextID := nextID (repo σ) |} |}
    end.
Proof.
  intros Hidle. open_world σ Hidle. unfold_M.
  destruct (us !! id); reflexivity.
Qed.

(** The loop of [ListUsers] appends the values in the order it meets
    them. *)
Lemma append_loop {A} (acc l : list A) :
  foldl (λ users user, users ++ [user]) acc l = acc ++ l.
Proof.
  revert acc. induction l as [|x l IH]; intros acc; simpl.
  - by rewrite app_nil_r.
  - rewrite IH, <- app_assoc. reflexivity.
Qed.

Lemma ListUsers_eq σ :
  idle σ →
  ListUsers σ = Return (range_values (users (repo σ)), None) σ.
Proof.
  intros Hidle. open_world σ Hidle. unfold_M.
  rewrite append_loop. reflexivity.
Qed.

End method_facts.

(** ** Single calls *)

Section single_calls.

Import GoInt database calls api examples.

(** C3. On every world whose lock is free and for every object [l],
    [CreateUser] returns a [nil] error; whatever [ID] the caller had put
    in the object, it now reads the former value of the counter, the other
    fields are as they were and no other object changed; the map holds the
    pointer under that value; the counter was incremented once (by Go's
    [++], which is [+ 1] below [MaxInt]); the counter of a new repository
    is 1. *)
Theorem CreateUser_assigns_nextID σ l u :
  idle σ → heap σ !! l = Some u →
  nextID NewUserRepository = 1 ∧
  ∃ σ', CreateUser (Some l) σ = Return None σ' ∧
        heap σ' !! l = Some {| ID := nextID (repo σ);
                               Username := Username u;
                               Email := Email u |} ∧
        (∀ l', l' ≠ l → heap σ' !! l' = heap σ !! l') ∧
        users (repo σ') = <[nextID (repo σ) := Some l]> (users (repo σ)) ∧
        nextID (repo σ') = incr (nextID (repo σ)) ∧
        (MinInt ≤ nextID (repo σ) < MaxInt →
         nextID (repo σ') = nextID (repo σ) + 1) ∧
        idle σ'.
Proof.
  intros Hidle Hl. split; [reflexivity|].
  eexists. split; [apply CreateUser_Some; eassumption|]. simpl.
  split; [apply lookup_insert_eq|].
  split; [intros l' Hne; by apply lookup_insert_ne|].
  split; [reflexivity|]. split; [reflexivity|].
  split; [apply incr_small|reflexivity].
Qed.

Lemma CreateUser_assigns_nextID_witness :
  ∃ σ', CreateUser (Some 2%positive) two_users = Return None σ' ∧
        heap σ' !! 2%positive = Some {| ID := 1; Username := "b"; Email := "b@x.com" |} ∧
        nextID (repo σ') = 2.
Proof.
  destruct (CreateUser_assigns_nextID two_users 2%positive bob)
    as (_ & σ' & H1 & H2 & _ & _ & H3 & _).
  - reflexivity.
  - reflexivity.
  - exists σ'. split; [exact H1|]. split; [exact H2|exact H3].
Defined.

(** C6. [DeleteUser(id)] returns [NotFound] and changes nothing when the
    map has no entry for [id]; otherwise it returns [nil] and removes the
    entry (and only that), after which [GetUser(id)] returns [NotFound]
    and so does a second [DeleteUser(id)]. *)
Theorem DeleteUser_NotFound_or_removes σ id :
  idle σ →
  (users (repo σ) !! id = None →
   DeleteUser id σ = Return (Some NotFound) σ) ∧
  (is_Some (users (repo σ) !! id) →
   ∃ σ', DeleteUser id σ = Return None σ' ∧
         users (repo σ') = delete id (users (repo σ)) ∧
         heap σ' = heap σ ∧
         nextID (repo σ') = nextID (repo σ) ∧
         GetUser id σ' = Return (nil, Some NotFound) σ' ∧
         DeleteUser id σ' = Return (Some NotFound) σ').
Proof.
  intros Hidle. split.
  - intros Hnone. rewrite DeleteUser_eq, Hnone; done.
  - intros [p Hp]. eexists. split.
    + rewrite DeleteUser_eq, Hp; done.
    + simpl. repeat split.
      * rewrite GetUser_eq by done. simpl. by rewrite lookup_delete_eq.
      * rewrite DeleteUser_eq by done. simpl. by rewrite lookup_delete_eq.
Qed.

Lemma DeleteUser_NotFound_or_removes_witness :
  DeleteUser 5 two_users = Return (Some NotFound) two_users.
Proof.
  apply (DeleteUser_NotFound_or_removes two_users 5); reflexivity.
Defined.

(** [UpdateUser] on an object whose [ID] has an entry replaces the
    pointer of that entry and nothing else. *)
Lemma UpdateUser_replaces σ l u :
  idle σ → heap σ !! l = Some u → is_Some (users (repo σ) !! ID u) →
  ∃ σ', UpdateUser (Some l) σ = Return None σ' ∧
        heap σ' = heap σ ∧
        users (repo σ') = <[ID u := Some l]> (users (repo σ)) ∧
        nextID (repo σ') = nextID (repo σ) ∧
        idle σ'.
Proof.
  intros Hidle Hl [p Hp]. eexists. split.
  - rewrite (UpdateUser_Some σ l u), Hp; done.
  - done.
Qed.

Lemma UpdateUser_NotFound σ l u :
  idle σ → heap σ !! l = Some u → users (repo σ) !! ID u = None →
  UpdateUser (Some l) σ = Return (Some NotFound) σ.
Proof.
  intros Hidle Hl Hnone. rewrite (UpdateUser_Some σ l u), Hnone; done.
Qed.

(** C4. When [id] has an entry, the handler of [PUT /users/{id}] with a
    decoded body [r] answers 200, and [GetUser(id)] then returns an object
    that holds exactly [id] and the [Username] and [Email] of [r]: the
    [ID] that came in [r] plays no part, and nothing of the record that
    was stored before is kept.  At the level of the repository,
    [UpdateUser(l)] puts the pointer [l] itself under [l.ID], so
    [GetUser(l.ID)] returns [l] with its fields as the caller set them. *)
Theorem updateUser_then_GetUser σ id r :
  idle σ → is_Some (users (repo σ) !! id) →
  (∃ σ' l, updateUser id r σ =
             Return (respondJSON StatusOK
                       {| ID := id; Username := Username r; Email := Email r |}) σ' ∧
           GetUser id σ' = Return (Some l, None) σ' ∧
           heap σ' !! l = Some {| ID := id; Username := Username r;
                                  Email := Email r |}) ∧
  (∀ l u, heap σ !! l = Some u → ID u = id →
          ∃ σ', UpdateUser (Some l) σ = Return None σ' ∧
                GetUser id σ' = Return (Some l, None) σ' ∧
                heap σ' !! l = Some u).
Proof.
  intros Hidle Hid. split.
  - set (l := fresh (dom (heap σ))).
    assert (heap σ !! l = None) as Hfresh.
    { apply not_elem_of_dom. apply is_fresh. }
    set (σ1 := {| heap := <[l := set_ID r id]> (<[l := r]> (heap σ));
                  repo := repo σ |}).
    assert (idle σ1) as Hidle1 by exact Hidle.
    assert (heap σ1 !! l = Some (set_ID r id)) as Hl1
        by apply lookup_insert_eq.
    destruct (UpdateUser_replaces σ1 l (set_ID r id) Hidle1 Hl1 Hid)
      as (σ' & Hu & Hh & Hus & _ & Hidle').
    exists σ', l. split; [|split].
    + unfold updateUser, new_User, load_User, mbind, M_bind, mret, M_ret.
      fold l. unfold store_ID. cbn [heap repo]. rewrite lookup_insert_eq.
      fold σ1. rewrite Hu, Hh, Hl1. reflexivity.
    + rewrite GetUser_eq by done. rewrite Hus. simpl.
      by rewrite lookup_insert_eq.
    + by rewrite Hh.
  - intros l u Hl <-.
    destruct (UpdateUser_replaces σ l u Hidle Hl Hid)
      as (σ' & Hu & Hh & Hus & _ & Hidle').
    exists σ'. split; [done|]. split.
    + rewrite GetUser_eq by done. rewrite Hus. by rewrite lookup_insert_eq.
    + by rewrite Hh.
Qed.

Lemma updateUser_then_GetUser_witness :
  ∃ σ' l, updateUser 1 bob alice_stored =
            Return (respondJSON StatusOK
                      {| ID := 1; Username := "b"; Email := "b@x.com" |}) σ' ∧
          GetUser 1 σ' = Return (Some l, None) σ' ∧
          heap σ' !! l = Some {| ID := 1; Username := "b"; Email := "b@x.com" |}.
Proof.
  apply (updateUser_then_GetUser alice_stored 1 bob).
  - reflexivity.
  - exists (Some 1%positive). reflexivity.
Defined.

End single_calls.

(** ** One call, by the event it leaves *)

Section one_call.

Import GoInt database calls.

Lemma do_call_effect c σ :
  idle σ →
  idle (do_call c σ).2 ∧
  effect c σ (do_call c σ).2 (event_of c (do_call c σ).1 (do_call c σ).2).
Proof.
  intros Hidle. destruct c as [id|user|user|id|]; unfold do_call, run.
  - rewrite GetUser_eq by done. simpl. done.
  - destruct user as [l|].
    + destruct (heap σ !! l) as [u|] eqn:Hl.
      * rewrite (CreateUser_Some σ l u) by done. simpl.
        rewrite lookup_insert_eq. simpl. split; [done|].
        repeat split; eauto.
      * rewrite CreateUser_panic; [done|done|]. by intros ? [= <-].
    + rewrite CreateUser_panic; done.
  - destruct user as [l|].
    + destruct (heap σ !! l) as [u|] eqn:Hl.
      * rewrite (UpdateUser_Some σ l u) by done.
        destruct (users (repo σ) !! ID u) as [p|] eqn:Hp; simpl; [|done].
        rewrite Hl. simpl. split; [done|]. repeat split; eauto.
      * rewrite UpdateUser_panic; [done|done|]. by intros ? [= <-].
    + rewrite UpdateUser_panic; done.
  - rewrite DeleteUser_eq by done.
    destruct (users (repo σ) !! id) as [p|] eqn:Hp; simpl; [|done].
    split; [done|]. repeat split; eauto.
  - rewrite ListUsers_eq by done. simpl. done.
Qed.

(** A [CreateUser] on an object always leaves its event. *)
Lemma do_call_CreateUser σ l u :
  idle σ → heap σ !! l = Some u →
  ∃ σ', do_call (Call_CreateUser (Some l)) σ = (Res_error None, σ') ∧
        event_of (Call_CreateUser (Some l)) (Res_error None) σ'
          = [Created l (nextID (repo σ))] ∧
        heap σ' = <[l := set_ID u (nextID (repo σ))]> (heap σ) ∧
        users (repo σ') = <[nextID (repo σ) := Some l]> (users (repo σ)) ∧
        nextID (repo σ') = incr (nextID (repo σ)) ∧
        idle σ'.
Proof.
  intros Hidle Hl. eexists. split.
  - unfold do_call, run. rewrite (CreateUser_Some σ l u) by done. reflexivity.
  - simpl. by rewrite lookup_insert_eq.
Qed.

Lemma do_calls_cons c cs σ :
  do_calls (c :: cs) σ = do_calls cs (do_call c σ).2.
Proof. reflexivity. Qed.

Lemma do_calls_app cs1 cs2 σ :
  do_calls (cs1 ++ cs2) σ = do_calls cs2 (do_calls cs1 σ).
Proof. unfold do_calls. apply foldl_app. Qed.

Lemma history_cons c cs σ :
  history (c :: cs) σ =
    event_of c (do_call c σ).1 (do_call c σ).2 ++ history cs (do_call c σ).2.
Proof. simpl. destruct (do_call c σ). reflexivity. Qed.

Lemma history_app cs1 cs2 σ :
  history (cs1 ++ cs2) σ = history cs1 σ ++ history cs2 (do_calls cs1 σ).
Proof.
  revert σ. induction cs1 as [|c cs1 IH]; intros σ; [done|].
  rewrite <- app_comm_cons, !history_cons, do_calls_cons, IH.
  by rewrite app_assoc.
Qed.

Lemma do_calls_idle cs σ : idle σ → idle (do_calls cs σ).
Proof.
  revert σ. induction cs as [|c cs IH]; intros σ Hidle; [done|].
  rewrite do_calls_cons. apply IH. by apply do_call_effect.
Qed.

End one_call.

(** ** Sequences of calls: what stays in the map *)

Ltac step_cases c σ Hidle Hidle' Heff :=
  destruct (do_call_effect c σ Hidle) as [Hidle' Heff];
  destruct (calls.event_of c (calls.do_call c σ).1 (calls.do_call c σ).2)
    as [|[?l ?id|?l ?id|?id] [|]];
  unfold calls.effect in Heff; try done.

Section sequences.

Import GoInt database calls.

(** An identifier without an entry gets one only from a [CreateUser]. *)
Lemma absent_stays cs σ id :
  idle σ → users (repo σ) !! id = None →
  (∀ l, Created l id ∉ history cs σ) →
  users (repo (do_calls cs σ)) !! id = None.
Proof.
  revert σ. induction cs as [|c cs IH]; intros σ Hidle Hnone Hh; [done|].
  rewrite do_calls_cons. rewrite history_cons in Hh.
  step_cases c σ Hidle Hidle' Heff.
  - apply IH; [done|by rewrite Heff|done].
  - destruct Heff as (_ & _ & _ & Hus & _).
    apply IH; [done| |intros l' Hin; apply (Hh l'); set_solver].
    rewrite Hus, lookup_insert_ne; [done|].
    intros ->. apply (Hh l). set_solver.
  - destruct Heff as (_ & _ & Hsome & _ & Hus & _).
    apply IH; [done| |intros l' Hin; apply (Hh l'); set_solver].
    rewrite Hus, lookup_insert_ne; [done|].
    intros ->. rewrite Hnone in Hsome. by destruct Hsome.
  - destruct Heff as (_ & _ & _ & Hus & _).
    apply IH; [done| |intros l' Hin; apply (Hh l'); set_solver].
    rewrite Hus. destruct (decide (id0 = id)) as [->|Hne].
    + apply lookup_delete_eq.
    + by rewrite lookup_delete_ne.
Qed.

(** An entry stays until a [DeleteUser] of its identifier succeeds. *)
Lemma present_stays cs σ id :
  idle σ → is_Some (users (repo σ) !! id) →
  Deleted id ∉ history cs σ →
  is_Some (users (repo (do_calls cs σ)) !! id).
Proof.
  revert σ. induction cs as [|c cs IH]; intros σ Hidle Hsome Hh; [done|].
  rewrite do_calls_cons. rewrite history_cons in Hh.
  step_cases c σ Hidle Hidle' Heff.
  - apply IH; [done|by rewrite Heff|done].
  - destruct Heff as (_ & _ & _ & Hus & _).
    apply IH; [done| |set_solver].
    rewrite Hus. rewrite lookup_insert_is_Some.
    destruct (decide (id0 = id)); auto.
  - destruct Heff as (_ & _ & _ & _ & Hus & _).
    apply IH; [done| |set_solver].
    rewrite Hus. rewrite lookup_insert_is_Some.
    destruct (decide (id0 = id)); auto.
  - destruct Heff as (_ & _ & _ & Hus & _).
    apply IH; [done| |set_solver].
    rewrite Hus, lookup_delete_ne; [done|]. intros ->. set_solver.
Qed.

(** Until a [DeleteUser] of [id] succeeds, the entry of [id] holds what
    the last write under [id] put there. *)
Lemma entry_holder cs σ id l :
  idle σ → users (repo σ) !! id = Some (Some l : ptr) →
  Deleted id ∉ history cs σ →
  users (repo (do_calls cs σ)) !! id
    = Some (Some (holder l id (history cs σ)) : ptr).
Proof.
  revert σ l. induction cs as [|c cs IH]; intros σ l Hidle Hl Hd; [done|].
  rewrite do_calls_cons. rewrite history_cons in Hd |- *.
  unfold holder. rewrite foldl_app. fold (holder l id).
  step_cases c σ Hidle Hidle' Heff.
  - simpl. apply IH; [done|by rewrite Heff|done].
  - destruct Heff as (_ & _ & _ & Hus & _). simpl. case_decide as Hid.
    + subst id0. apply IH; [done| |set_solver].
      rewrite Hus. apply lookup_insert_eq.
    + apply IH; [done| |set_solver]. by rewrite Hus, lookup_insert_ne.
  - destruct Heff as (_ & _ & _ & _ & Hus & _). simpl. case_decide as Hid.
    + subst id0. apply IH; [done| |set_solver].
      rewrite Hus. apply lookup_insert_eq.
    + apply IH; [done| |set_solver]. by rewrite Hus, lookup_insert_ne.
  - destruct Heff as (_ & _ & _ & Hus & _). simpl.
    apply IH; [done| |set_solver].
    rewrite Hus, lookup_delete_ne; [done|]. intros ->. set_solver.
Qed.

Lemma holder_unwritten l id h :
  (∀ l', Created l' id ∉ h) → (∀ l', Updated l' id ∉ h) →
  holder l id h = l.
Proof.
  induction h as [|e h IH]; intros Hc Hu; [done|].
  unfold holder. simpl. fold (holder (default l (written id e)) id h).
  assert (written id e = None) as ->.
  { destruct e as [l0 id0|l0 id0|id0]; simpl; [| |done];
      case_decide; [subst|done|subst|done]; exfalso.
    - apply (Hc l0). left.
    - apply (Hu l0). left. }
  simpl. apply IH.
  - intros l' Hin. apply (Hc l'). by right.
  - intros l' Hin. apply (Hu l'). by right.
Qed.

(** An object changes only when it is handed to [CreateUser]. *)
Lemma object_stays cs σ l u :
  idle σ → heap σ !! l = Some u →
  (∀ id, Created l id ∉ history cs σ) →
  heap (do_calls cs σ) !! l = Some u.
Proof.
  revert σ. induction cs as [|c cs IH]; intros σ Hidle Hl Hc; [done|].
  rewrite do_calls_cons. rewrite history_cons in Hc.
  step_cases c σ Hidle Hidle' Heff.
  - apply IH; [done|by rewrite Heff|done].
  - destruct Heff as (_ & _ & (u' & _ & Hh) & _).
    apply IH; [done| |intros id' ?; apply (Hc id'); set_solver].
    rewrite Hh, lookup_insert_ne; [done|].
    intros ->. apply (Hc id). set_solver.
  - destruct Heff as (_ & _ & _ & Hh & _).
    apply IH; [done|by rewrite Hh|intros id' ?; apply (Hc id'); set_solver].
  - destruct Heff as (_ & _ & Hh & _).
    apply IH; [done|by rewrite Hh|intros id' ?; apply (Hc id'); set_solver].
Qed.

Lemma do_call_stored_valid c σ :
  idle σ → stored_valid σ → stored_valid (do_call c σ).2.
Proof.
  intros Hidle Hv. step_cases c σ Hidle Hidle' Heff.
  - by rewrite Heff.
  - destruct Heff as (_ & _ & (u & Hl & Hh) & Hus & _).
    intros k p. rewrite Hus, Hh. intros Hk.
    apply lookup_insert_Some in Hk as [[<- <-]|[Hne Hk]].
    + exists l, (set_ID u id). by rewrite lookup_insert_eq.
    + destruct (Hv k p Hk) as (l' & u' & -> & Hl').
      destruct (decide (l = l')) as [<-|Hll].
      * exists l, (set_ID u id). by rewrite lookup_insert_eq.
      * exists l', u'. by rewrite lookup_insert_ne.
  - destruct Heff as (_ & (u & Hl & _) & _ & Hh & Hus & _).
    intros k p. rewrite Hus, Hh. intros Hk.
    apply lookup_insert_Some in Hk as [[<- <-]|[Hne Hk]]; eauto.
  - destruct Heff as (_ & _ & Hh & Hus & _).
    intros k p. rewrite Hus, Hh. intros Hk.
    apply lookup_delete_Some in Hk as [_ Hk]. eauto.
Qed.

Lemma do_calls_stored_valid cs σ :
  idle σ → stored_valid σ → stored_valid (do_calls cs σ).
Proof.
  revert σ. induction cs as [|c cs IH]; intros σ Hidle Hv; [done|].
  rewrite do_calls_cons. apply IH.
  - by apply do_call_effect.
  - by apply do_call_stored_valid.
Qed.

Lemma fresh_repo_idle σ : fresh_repo σ → idle σ.
Proof. unfold fresh_repo, idle. by intros ->. Qed.

Lemma fresh_repo_stored_valid σ : fresh_repo σ → stored_valid σ.
Proof. unfold fresh_repo, stored_valid. intros -> k p. simpl. by rewrite lookup_empty. Qed.

End sequences.

(** ** [GetUser] after a sequence of calls *)

Section get_after_calls.

Import GoInt database calls examples.

Lemma created_entry l id σ :
  idle σ →
  history [Call_CreateUser (Some l)] σ = [Created l id] →
  users (repo (do_calls [Call_CreateUser (Some l)] σ)) !! id = Some (Some l).
Proof.
  intros Hidle Hh. rewrite history_cons in Hh. cbn [history] in Hh.
  rewrite app_nil_r in Hh. unfold do_calls. cbn [foldl].
  destruct (do_call_effect (Call_CreateUser (Some l)) σ Hidle) as [_ Heff].
  rewrite Hh in Heff. unfold effect in Heff.
  destruct Heff as (_ & _ & _ & Hus & _).
  rewrite Hus. apply lookup_insert_eq.
Qed.

(** C7. From a new repository and any sequence of calls:
    (a) if [CreateUser(l)] returned with [l.ID = id] and no later
    [DeleteUser(id)] succeeded, [GetUser(id)] returns a [nil] error and
    the object that the last write under [id] stored, which is [l] itself
    unless a later call stored under [id] again; and unless [l] was handed
    to [CreateUser] again, its fields are those it had when it was stored;
    (b) if no [CreateUser] ever returned [id], [GetUser(id)] returns
    [NotFound];
    (c) after a [DeleteUser(id)], and until a [CreateUser] returns [id],
    [GetUser(id)] returns [NotFound]. *)
Theorem GetUser_after_calls σ0 :
  fresh_repo σ0 →
  (∀ cs1 l id cs2,
     let σ2 := do_calls (cs1 ++ [Call_CreateUser (Some l)]) σ0 in
     let σ := do_calls cs2 σ2 in
     history [Call_CreateUser (Some l)] (do_calls cs1 σ0) = [Created l id] →
     Deleted id ∉ history cs2 σ2 →
     GetUser id σ
       = Return (Some (holder l id (history cs2 σ2)), None) σ ∧
     is_Some (heap σ !! holder l id (history cs2 σ2)) ∧
     ((∀ l', Created l' id ∉ history cs2 σ2) →
      (∀ l', Updated l' id ∉ history cs2 σ2) →
      holder l id (history cs2 σ2) = l) ∧
     ((∀ id', Created l id' ∉ history cs2 σ2) →
      heap σ !! l = heap σ2 !! l ∧
      ∃ u, heap σ2 !! l = Some u ∧ ID u = id)) ∧
  (∀ cs id,
     (∀ l, Created l id ∉ history cs σ0) →
     GetUser id (do_calls cs σ0) =
       Return (nil, Some NotFound) (do_calls cs σ0)) ∧
  (∀ cs1 id cs2,
     let σ2 := do_calls (cs1 ++ [Call_DeleteUser id]) σ0 in
     (∀ l, Created l id ∉ history cs2 σ2) →
     GetUser id (do_calls cs2 σ2) =
       Return (nil, Some NotFound) (do_calls cs2 σ2)).
Proof.
  intros Hfresh.
  pose proof (fresh_repo_idle σ0 Hfresh) as Hidle0.
  pose proof (fresh_repo_stored_valid σ0 Hfresh) as Hvalid0.
  split; [|split].
  - intros cs1 l id cs2 σ2 σ Hcreated Hnodel. subst σ.
    assert (idle (do_calls cs1 σ0)) as Hidle1 by by apply do_calls_idle.
    assert (idle σ2) as Hidle2 by by apply do_calls_idle.
    assert (idle (do_calls cs2 σ2)) as Hidle by by apply do_calls_idle.
    assert (users (repo σ2) !! id = Some (Some l)) as Hentry.
    { unfold σ2. rewrite do_calls_app. by apply created_entry. }
    assert (stored_valid σ2) as Hvalid2 by by apply do_calls_stored_valid.
    assert (stored_valid (do_calls cs2 σ2)) as Hvalid
        by by apply do_calls_stored_valid.
    pose proof (entry_holder cs2 σ2 id l Hidle2 Hentry Hnodel) as Hp.
    split; [|split; [|split]].
    + rewrite GetUser_eq by done. by rewrite Hp.
    + destruct (Hvalid id _ Hp) as (l' & u' & [= <-] & Hl'). by eexists.
    + apply holder_unwritten.
    + intros Hsame.
      destruct (Hvalid2 id (Some l) Hentry) as (l' & u & [= <-] & Hl).
      pose proof (object_stays cs2 σ2 l u Hidle2 Hl Hsame) as Hl'.
      split; [by rewrite Hl, Hl'|].
      exists u. split; [done|].
      rewrite history_cons in Hcreated. cbn [history] in Hcreated.
      rewrite app_nil_r in Hcreated.
      unfold σ2 in Hl. rewrite do_calls_app in Hl.
      unfold do_calls at 1 in Hl. cbn [foldl] in Hl.
      unfold event_of in Hcreated.
      destruct (do_call (Call_CreateUser (Some l)) (do_calls cs1 σ0)).1
        as [| [e|] | | |]; try done.
      rewrite Hl in Hcreated. by injection Hcreated.
  - intros cs id Hnever.
    rewrite GetUser_eq by by apply do_calls_idle.
    rewrite (absent_stays cs σ0 id); [done|done| |done].
    rewrite Hfresh. apply lookup_empty.
  - intros cs1 id cs2 σ2 Hnever.
    assert (idle (do_calls cs1 σ0)) as Hidle1 by by apply do_calls_idle.
    assert (idle σ2) as Hidle2 by by apply do_calls_idle.
    rewrite GetUser_eq by by apply do_calls_idle.
    rewrite (absent_stays cs2 σ2 id); [done|done| |done].
    unfold σ2. rewrite do_calls_app. unfold do_calls at 1. simpl.
    unfold run. rewrite DeleteUser_eq by done.
    destruct (users (repo (do_calls cs1 σ0)) !! id) eqn:Hid; simpl.
    + apply lookup_delete_eq.
    + done.
Qed.

Lemma GetUser_after_calls_witness :
  GetUser 2
    (do_calls ([Call_CreateUser (Some 1%positive);
                Call_CreateUser (Some 2%positive)] ++ [Call_DeleteUser 2])
       two_users)
  = Return (nil, Some NotFound)
      (do_calls ([Call_CreateUser (Some 1%positive);
                  Call_CreateUser (Some 2%positive)] ++ [Call_DeleteUser 2])
         two_users).
Proof.
  destruct (GetUser_after_calls two_users) as (_ & _ & Hdeleted).
  - reflexivity.
  - apply (Hdeleted [Call_CreateUser (Some 1%positive);
                     Call_CreateUser (Some 2%positive)] 2 []).
    intros l. apply not_elem_of_nil.
Defined.

End get_after_calls.

(** ** The identifiers that [CreateUser] assigns *)

Section assigned_ids.

Import GoInt database calls examples.

Lemma created_ids_cons c cs σ :
  created_ids (c :: cs) σ =
    omap id_of_created (event_of c (do_call c σ).1 (do_call c σ).2)
      ++ created_ids cs (do_call c σ).2.
Proof. unfold created_ids. rewrite history_cons. apply omap_app. Qed.

Lemma count_creates_cons c cs :
  count_creates (c :: cs) =
    ((if is_create c then 1 else 0) + count_creates cs)%nat.
Proof.
  unfold count_creates. rewrite filter_cons.
  destruct (is_create c);
    [rewrite decide_True by done|rewrite decide_False by done]; done.
Qed.

Lemma count_creates_app cs1 cs2 :
  count_creates (cs1 ++ cs2) = (count_creates cs1 + count_creates cs2)%nat.
Proof. unfold count_creates. by rewrite filter_app, length_app. Qed.

(** [n] calls of [CreateUser] on a repository whose counter is [k] assign
    [k], [k + 1], ..., as long as the counter does not pass [MaxInt]. *)
Lemma creates_count_up (ls : list loc) σ :
  idle σ →
  Forall (λ l, is_Some (heap σ !! l)) ls →
  MinInt ≤ nextID (repo σ) →
  nextID (repo σ) + Z.of_nat (length ls) ≤ MaxInt + 1 →
  created_ids (Call_CreateUser ∘ Some <$> ls) σ
    = seqZ (nextID (repo σ)) (Z.of_nat (length ls)).
Proof.
  revert σ. induction ls as [|l ls IH]; intros σ Hidle Hvalid Hmin Hmax; [done|].
  rewrite fmap_cons, created_ids_cons.
  apply Forall_cons in Hvalid as [[u Hl] Hvalid].
  change ((Call_CreateUser ∘ Some) l) with (Call_CreateUser (Some l)).
  destruct (do_call_CreateUser σ l u Hidle Hl)
    as (σ' & Hcall & Hev & Hh & _ & Hnext & Hidle').
  rewrite Hcall. cbn [fst snd]. rewrite Hev. simpl in Hmax |- *.
  rewrite seqZ_cons by lia. f_equal.
  destruct ls as [|l' ls']; [done|].
  rewrite IH; [|done| | |].
  - rewrite Hnext, incr_small; [|simpl in Hmax; lia].
    f_equal; lia.
  - eapply Forall_impl; [exact Hvalid|]. intros l0 Hl0. simpl in Hl0.
    rewrite Hh. rewrite lookup_insert_is_Some'. by right.
  - rewrite Hnext. pose proof (wrap_in_range (nextID (repo σ) + 1)).
    unfold incr, in_range in *. lia.
  - rewrite Hnext, incr_small; simpl in Hmax |- *; lia.
Qed.

(** C1. On a new repository, [n] calls of [CreateUser] made one after
    the other (on any objects, and [n] at most [MaxInt], which is also the
    most entries a Go map can report) assign exactly 1, 2, ..., [n], in
    the order of the calls: no identifier twice, none left out. *)
Theorem CreateUser_ids_sequential σ0 (ls : list loc) :
  fresh_repo σ0 →
  Forall (λ l, is_Some (heap σ0 !! l)) ls →
  Z.of_nat (length ls) ≤ MaxInt →
  created_ids (Call_CreateUser ∘ Some <$> ls) σ0
    = seqZ 1 (Z.of_nat (length ls)) ∧
  NoDup (created_ids (Call_CreateUser ∘ Some <$> ls) σ0) ∧
  (∀ i : nat, (i < length ls)%nat →
     created_ids (Call_CreateUser ∘ Some <$> ls) σ0 !! i
       = Some (1 + Z.of_nat i)).
Proof.
  intros Hfresh Hvalid Hn.
  assert (created_ids (Call_CreateUser ∘ Some <$> ls) σ0
          = seqZ 1 (Z.of_nat (length ls))) as Heq.
  { replace 1 with (nextID (repo σ0)) by by rewrite Hfresh.
    apply creates_count_up; [by apply fresh_repo_idle|done|..];
      rewrite Hfresh; simpl; unfold MinInt, MaxInt in *; lia. }
  rewrite Heq. split; [done|]. split; [apply NoDup_seqZ|].
  intros i Hi. apply lookup_seqZ. lia.
Qed.

Lemma CreateUser_ids_sequential_witness :
  created_ids (Call_CreateUser ∘ Some <$> [1%positive; 2%positive]) two_users
    = [1; 2].
Proof.
  apply (CreateUser_ids_sequential two_users [1%positive; 2%positive]).
  - reflexivity.
  - repeat constructor; eexists; reflexivity.
  - unfold MaxInt. simpl. lia.
Defined.

(** One call keeps the count of assigned identifiers, or adds one to it
    and assigns that very number. *)
Lemma do_call_counted c σ m :
  idle σ → 0 ≤ m → counted σ m →
  m + (if is_create c then 1 else 0) ≤ MaxInt →
  let ids := omap id_of_created
               (event_of c (do_call c σ).1 (do_call c σ).2) in
  (ids = [] ∧ counted (do_call c σ).2 m) ∨
  (ids = [m + 1] ∧ counted (do_call c σ).2 (m + 1) ∧ is_create c = true).
Proof.
  intros Hidle Hm [Hnext Hkeys] Hmax.
  step_cases c σ Hidle Hidle' Heff.
  - left. by rewrite Heff.
  - right. destruct Heff as (Hc & Hid & _ & Hus & Hnext').
    assert (is_create c = true) as Hcr by by rewrite Hc.
    rewrite Hcr in Hmax.
    assert (id = m + 1) as ->.
    { rewrite Hid, Hnext. rewrite wrap_id; [lia|].
      unfold in_range, MinInt, MaxInt in *. lia. }
    split; [done|]. split; [|done]. split.
    + rewrite Hnext'. unfold incr. f_equal. lia.
    + intros k. rewrite Hus, lookup_insert_is_Some.
      intros [<-|[_ Hk]]; [lia|]. specialize (Hkeys k Hk). lia.
  - left. destruct Heff as (_ & _ & Hsome & _ & Hus & Hnext').
    split; [done|]. split; [by rewrite Hnext'|].
    intros k. rewrite Hus, lookup_insert_is_Some.
    intros [<-|[_ Hk]]; auto.
  - left. destruct Heff as (_ & _ & _ & Hus & Hnext').
    split; [done|]. split; [by rewrite Hnext'|].
    intros k. rewrite Hus, lookup_delete_is_Some. intros [_ Hk]; auto.
Qed.

(** Along a sequence of calls that does not take the count past
    [MaxInt], the identifiers assigned go up strictly, and all lie above
    the count at the start. *)
Lemma created_ids_increasing cs σ m :
  idle σ → 0 ≤ m → counted σ m →
  m + Z.of_nat (count_creates cs) ≤ MaxInt →
  StronglySorted Z.lt (created_ids cs σ) ∧
  Forall (λ id, m < id) (created_ids cs σ) ∧
  ∃ m', m ≤ m' ≤ m + Z.of_nat (count_creates cs) ∧
        counted (do_calls cs σ) m'.
Proof.
  revert σ m. induction cs as [|c cs IH]; intros σ m Hidle Hm Hcnt Hmax.
  { split; [constructor|]. split; [constructor|]. exists m. split; [lia|done]. }
  rewrite count_creates_cons in Hmax.
  rewrite created_ids_cons, do_calls_cons, count_creates_cons.
  assert (idle (do_call c σ).2) as Hidle' by by apply do_call_effect.
  destruct (do_call_counted c σ m Hidle Hm Hcnt) as [[-> Hcnt']|(-> & Hcnt' & Hc)].
  - destruct (is_create c); lia.
  - destruct (IH (do_call c σ).2 m Hidle' Hm Hcnt') as (Hs & Hall & m' & Hm' & Hfin).
    { destruct (is_create c); lia. }
    split; [done|]. split; [done|]. exists m'. split; [|done].
    destruct (is_create c); lia.
  - rewrite Hc in Hmax |- *.
    destruct (IH (do_call c σ).2 (m + 1) Hidle' ltac:(lia) Hcnt')
      as (Hs & Hall & m' & Hm' & Hfin); [lia|].
    split; [|split].
    + simpl. constructor; [done|]. done.
    + simpl. constructor; [lia|].
      eapply Forall_impl; [exact Hall|]. simpl. lia.
    + exists m'. split; [lia|done].
Qed.

Lemma fresh_repo_counted σ : fresh_repo σ → counted σ 0.
Proof.
  unfold fresh_repo, counted. intros ->. split; [done|].
  intros k. simpl. rewrite lookup_empty. by intros [? ?].
Qed.

(** C5, as the code has it. From a new repository, along any sequence of
    calls with at most [MaxInt] calls of [CreateUser], the identifiers
    assigned go up strictly, so none is assigned twice; and once a
    [DeleteUser(id)] has found [id], no later [CreateUser] of the
    sequence assigns [id]. *)
Theorem ids_increase_until_MaxInt σ0 cs :
  fresh_repo σ0 →
  Z.of_nat (count_creates cs) ≤ MaxInt →
  StronglySorted Z.lt (created_ids cs σ0) ∧
  NoDup (created_ids cs σ0) ∧
  (∀ cs1 id cs2,
     cs = cs1 ++ Call_DeleteUser id :: cs2 →
     is_Some (users (repo (do_calls cs1 σ0)) !! id) →
     id ∉ created_ids cs2 (do_calls (cs1 ++ [Call_DeleteUser id]) σ0)).
Proof.
  intros Hfresh Hmax.
  pose proof (fresh_repo_idle σ0 Hfresh) as Hidle0.
  pose proof (fresh_repo_counted σ0 Hfresh) as Hcnt0.
  destruct (created_ids_increasing cs σ0 0 Hidle0 ltac:(lia) Hcnt0 ltac:(lia))
    as (Hsorted & _ & _).
  split; [done|]. split.
  - clear -Hsorted. induction Hsorted as [|x l Hl IH Hx]; constructor; [|done].
    intros Hin. rewrite Forall_forall in Hx. specialize (Hx x Hin). lia.
  - intros cs1 id cs2 -> Hfound.
    rewrite count_creates_app, count_creates_cons in Hmax. simpl in Hmax.
    assert (idle (do_calls cs1 σ0)) as Hidle1 by by apply do_calls_idle.
    destruct (created_ids_increasing cs1 σ0 0 Hidle0 ltac:(lia) Hcnt0)
      as (_ & _ & m1 & Hm1 & Hcnt1); [lia|].
    pose proof (proj2 Hcnt1 id Hfound) as Hid.
    destruct (do_call_counted (Call_DeleteUser id) (do_calls cs1 σ0) m1
                Hidle1 ltac:(lia) Hcnt1) as [[_ Hcnt2]|(_ & _ & Hc)];
      [simpl; lia| |done].
    rewrite do_calls_app. unfold do_calls at 1. cbn [foldl].
    destruct (created_ids_increasing cs2
                (do_call (Call_DeleteUser id) (do_calls cs1 σ0)).2 m1)
      as (_ & Hall & _); [by apply do_call_effect|lia|done|lia|].
    intros Hin. rewrite Forall_forall in Hall. specialize (Hall id Hin). lia.
Qed.

Lemma ids_increase_until_MaxInt_witness :
  StronglySorted Z.lt
    (created_ids [Call_CreateUser (Some 1%positive); Call_DeleteUser 1;
                  Call_CreateUser (Some 1%positive)] two_users).
Proof.
  apply (ids_increase_until_MaxInt two_users).
  - reflexivity.
  - unfold MaxInt. vm_compute. discriminate.
Defined.

End assigned_ids.

(** ** Past [MaxInt]: the counter wraps around *)

Section wrap_around.

Import GoInt database calls examples.

(** One round of [churn]: the identifier assigned is the counter, and the
    counter has moved on by one [++]. *)
Lemma churn_round n k σ :
  idle σ → is_Some (heap σ !! 1%positive) → nextID (repo σ) = k →
  ∃ σ2, created_ids (churn (S n) k) σ
          = k :: created_ids (churn n (incr k)) σ2 ∧
        idle σ2 ∧ is_Some (heap σ2 !! 1%positive) ∧
        nextID (repo σ2) = incr k.
Proof.
  intros Hidle [u Hu] <-.
  destruct (do_call_CreateUser σ 1%positive u Hidle Hu)
    as (σ1 & Hcall & Hev & Hh & _ & Hnext & Hidle1).
  set (k := nextID (repo σ)) in *.
  exists (do_call (Call_DeleteUser k) σ1).2.
  cbn [churn]. rewrite created_ids_cons, Hcall. cbn [fst snd].
  rewrite Hev, created_ids_cons. cbn [omap list_omap id_of_created app].
  assert (is_Some (heap σ1 !! 1%positive)) as Hu1.
  { rewrite Hh, lookup_insert_eq. by eexists. }
  step_cases (Call_DeleteUser k) σ1 Hidle1 Hidle2 Heff.
  - rewrite Heff. done.
  - by destruct Heff as [[=] _].
  - by destruct Heff as [[=] _].
  - destruct Heff as (_ & _ & Hh2 & _ & Hnext2).
    rewrite Hh2, Hnext2. done.
Qed.

(** Enough rounds take the counter over [MaxInt], and the identifier that
    follows [MaxInt] is [MinInt]. *)
Lemma churn_not_increasing n :
  ∀ k σ,
    idle σ → is_Some (heap σ !! 1%positive) → nextID (repo σ) = k →
    MinInt ≤ k ≤ MaxInt →
    MaxInt - k + 1 < Z.of_nat n →
    ¬ StronglySorted Z.lt (created_ids (churn n k) σ).
Proof.
  induction n as [|n IH]; intros k σ Hidle Hu Hk Hrange Hn; [lia|].
  destruct (churn_round n k σ Hidle Hu Hk) as (σ2 & -> & Hidle2 & Hu2 & Hk2).
  intros Hsorted. apply StronglySorted_inv in Hsorted as [Htail Hhead].
  destruct (decide (k = MaxInt)) as [->|Hne].
  - destruct n as [|n']; [lia|].
    destruct (churn_round n' (incr MaxInt) σ2 Hidle2 Hu2 Hk2)
      as (σ3 & Heq & _).
    rewrite Heq in Hhead. apply Forall_cons in Hhead as [Hlt _].
    rewrite incr_MaxInt in Hlt. unfold MaxInt, MinInt in Hlt. lia.
  - apply (IH (incr k) σ2); [done|done|done| | |done].
    + rewrite incr_small; lia.
    + rewrite incr_small; lia.
Qed.

(** C5, counterexample. On a new repository, a caller that creates a
    user and deletes it again 2^63 times is given, after [MaxInt], the
    identifier [MinInt]: the identifiers assigned do not go up strictly. *)
Lemma ids_wrap_after_MaxInt :
  fresh_repo two_users ∧
  ¬ StronglySorted Z.lt
      (created_ids (churn (Z.to_nat 9223372036854775808) 1) two_users).
Proof.
  split; [reflexivity|].
  apply (churn_not_increasing (Z.to_nat 9223372036854775808) 1 two_users).
  - reflexivity.
  - exists alice. reflexivity.
  - reflexivity.
  - unfold MinInt, MaxInt. lia.
  - rewrite Z2Nat.id by lia. unfold MaxInt. lia.
Qed.

End wrap_around.

(** ** The stored records and their [ID] fields *)

Section stored_records.

Import GoInt database calls examples.

(** A call keeps every stored object under its own [ID], provided
    [CreateUser] is not handed an object that the map already holds. *)
Lemma do_call_keyed c σ :
  idle σ → keyed_by_ID σ →
  match c with
  | Call_CreateUser user => ∀ k, users (repo σ) !! k ≠ Some user
  | _ => True
  end →
  keyed_by_ID (do_call c σ).2.
Proof.
  intros Hidle Hkeyed Hunstored. step_cases c σ Hidle Hidle' Heff.
  - by rewrite Heff.
  - destruct Heff as (-> & _ & (u & Hl & Hh) & Hus & _).
    intros k p. rewrite Hus, Hh. intros Hk.
    apply lookup_insert_Some in Hk as [[<- <-]|[Hne Hk]].
    + exists l, (set_ID u id). by rewrite lookup_insert_eq.
    + destruct (Hkeyed k p Hk) as (l' & u' & -> & Hl' & Hid).
      exists l', u'. split; [done|]. split; [|done].
      rewrite lookup_insert_ne; [done|].
      intros ->. by apply (Hunstored k).
  - destruct Heff as (_ & (u & Hl & Hid) & _ & Hh & Hus & _).
    intros k p. rewrite Hus, Hh. intros Hk.
    apply lookup_insert_Some in Hk as [[<- <-]|[Hne Hk]]; eauto.
  - destruct Heff as (_ & _ & Hh & Hus & _).
    intros k p. rewrite Hus, Hh. intros Hk.
    apply lookup_delete_Some in Hk as [_ Hk]. eauto.
Qed.

Lemma do_calls_keyed cs σ :
  idle σ → keyed_by_ID σ → creates_unstored cs σ →
  keyed_by_ID (do_calls cs σ).
Proof.
  revert σ. induction cs as [|c cs IH]; intros σ Hidle Hkeyed Hcs; [done|].
  destruct Hcs as [Hc Hcs]. rewrite do_calls_cons. apply IH.
  - by apply do_call_effect.
  - by apply do_call_keyed.
  - done.
Qed.

Lemma fresh_repo_keyed σ : fresh_repo σ → keyed_by_ID σ.
Proof.
  unfold fresh_repo, keyed_by_ID. intros -> k p. simpl.
  by rewrite lookup_empty.
Qed.

(** C10, as the code has it. In every world reached from a new
    repository by a sequence of calls of the five methods: every stored
    pointer is the address of an object whose [ID] is the key, provided no
    [CreateUser] of the sequence was handed an object that the map held at
    the time; and every key is at least 1 and below the counter, provided
    the sequence has fewer than [MaxInt] calls of [CreateUser]. *)
Theorem stored_records_keyed_by_ID σ0 cs :
  fresh_repo σ0 →
  (creates_unstored cs σ0 → keyed_by_ID (do_calls cs σ0)) ∧
  (Z.of_nat (count_creates cs) < MaxInt →
   keys_below_nextID (do_calls cs σ0)).
Proof.
  intros Hfresh. pose proof (fresh_repo_idle σ0 Hfresh) as Hidle0. split.
  - intros Hcs. apply do_calls_keyed; [done| |done].
    by apply fresh_repo_keyed.
  - intros Hmax.
    destruct (created_ids_increasing cs σ0 0 Hidle0 ltac:(lia)
                (fresh_repo_counted σ0 Hfresh) ltac:(lia))
      as (_ & _ & m & Hm & Hnext & Hkeys).
    intros k Hk. specialize (Hkeys k Hk). rewrite Hnext.
    rewrite wrap_id; [lia|]. unfold in_range, MinInt, MaxInt in *. lia.
Qed.

Lemma stored_records_keyed_by_ID_witness :
  keyed_by_ID (do_calls [Call_CreateUser (Some 1%positive)] two_users) ∧
  keys_below_nextID (do_calls [Call_CreateUser (Some 1%positive)] two_users).
Proof.
  destruct (stored_records_keyed_by_ID two_users
              [Call_CreateUser (Some 1%positive)]) as [Hkeyed Hbelow].
  - reflexivity.
  - split.
    + apply Hkeyed. split; [|exact I].
      intros k. simpl. by rewrite lookup_empty.
    + apply Hbelow. unfold MaxInt. vm_compute. reflexivity.
Defined.

(** C10, counterexample. [CreateUser] twice on the same object leaves
    that object under the keys 1 and 2, and its [ID] reads 2. *)
Lemma same_object_created_twice :
  fresh_repo two_users ∧
  users (repo (do_calls same_object_twice two_users)) !! 1
    = Some (Some 1%positive) ∧
  ID <$> heap (do_calls same_object_twice two_users) !! 1%positive = Some 2 ∧
  ¬ keyed_by_ID (do_calls same_object_twice two_users).
Proof.
  split; [reflexivity|]. split; [reflexivity|]. split; [reflexivity|].
  intros Hkeyed.
  destruct (Hkeyed 1 (Some 1%positive)) as (l & u & Hl & Hu & Hid).
  - reflexivity.
  - injection Hl as <-. vm_compute in Hu. injection Hu as <-. discriminate.
Qed.

End stored_records.

(** ** [ListUsers] *)

Section list_users.

Import GoInt database calls examples.

Lemma IDs_of_cons σ l u us :
  heap σ !! l = Some u → IDs_of σ (Some l :: us) = ID u :: IDs_of σ us.
Proof. intros Hl. unfold IDs_of. simpl. by rewrite Hl. Qed.

#[local] Instance IDs_of_Permutation σ :
  Proper ((≡ₚ) ==> (≡ₚ)) (IDs_of σ).
Proof. unfold IDs_of. apply omap_Permutation. Qed.

(** Objects that no [CreateUser] of the sequence is handed are not
    touched by a sequence of [CreateUser] calls. *)
Lemma creates_keep_object (ls : list loc) σ l :
  idle σ → l ∉ ls →
  heap (do_calls (Call_CreateUser ∘ Some <$> ls) σ) !! l = heap σ !! l.
Proof.
  revert σ. induction ls as [|l0 ls IH]; intros σ Hidle Hl; [done|].
  apply not_elem_of_cons in Hl as [Hne Hl].
  rewrite fmap_cons, do_calls_cons.
  change ((Call_CreateUser ∘ Some) l0) with (Call_CreateUser (Some l0)).
  rewrite IH; [|by apply do_call_effect|done].
  step_cases (Call_CreateUser (Some l0)) σ Hidle Hidle' Heff.
  - by rewrite Heff.
  - destruct Heff as ([= <-] & _ & (u & _ & Hh) & _).
    rewrite Hh. by apply lookup_insert_ne.
  - by destruct Heff as [[=] _].
  - by destruct Heff as [[=] _].
Qed.

(** [CreateUser] on distinct objects: the map gains exactly these
    pointers, and their [ID]s read the identifiers assigned. *)
Lemma creates_listed (ls : list loc) σ :
  idle σ →
  Forall (λ l, is_Some (heap σ !! l)) ls →
  NoDup ls →
  MinInt ≤ nextID (repo σ) →
  nextID (repo σ) + Z.of_nat (length ls) ≤ MaxInt + 1 →
  (∀ k, is_Some (users (repo σ) !! k) → k < nextID (repo σ)) →
  let σ' := do_calls (Call_CreateUser ∘ Some <$> ls) σ in
  range_values (users (repo σ')) ≡ₚ range_values (users (repo σ)) ++ (Some <$> ls) ∧
  IDs_of σ' (Some <$> ls) = seqZ (nextID (repo σ)) (Z.of_nat (length ls)).
Proof.
  revert σ. induction ls as [|l ls IH];
    intros σ Hidle Hvalid Hnodup Hmin Hmax Hkeys σ'.
  { subst σ'. simpl. by rewrite app_nil_r. }
  apply Forall_cons in Hvalid as [[u Hl] Hvalid].
  apply NoDup_cons in Hnodup as [Hnotin Hnodup].
  destruct (do_call_CreateUser σ l u Hidle Hl)
    as (σ1 & Hcall & Hev & Hh & Hus & Hnext & Hidle1).
  assert (σ' = do_calls (Call_CreateUser ∘ Some <$> ls) σ1) as Hσ'.
  { subst σ'. rewrite fmap_cons, do_calls_cons.
    change ((Call_CreateUser ∘ Some) l) with (Call_CreateUser (Some l)).
    by rewrite Hcall. }
  assert (heap σ' !! l = Some (set_ID u (nextID (repo σ)))) as Hl'.
  { rewrite Hσ', creates_keep_object by done.
    rewrite Hh. apply lookup_insert_eq. }
  assert (range_values (users (repo σ1))
            ≡ₚ Some l :: range_values (users (repo σ))) as Hrange1.
  { unfold range_values. rewrite Hus, map_to_list_insert; [done|].
    destruct (users (repo σ) !! nextID (repo σ)) eqn:Hk; [|done].
    specialize (Hkeys (nextID (repo σ)) ltac:(by eexists)). lia. }
  rewrite fmap_cons, (IDs_of_cons _ _ _ _ Hl'). simpl length.
  rewrite seqZ_cons by lia. simpl ID.
  destruct ls as [|l2 ls2].
  { rewrite Hσ'. simpl. split; [|done].
    unfold do_calls. simpl. rewrite Hrange1.
    by rewrite <- Permutation_cons_append. }
  assert (nextID (repo σ) < MaxInt) as Hlt by (simpl in Hmax; lia).
  assert (nextID (repo σ1) = nextID (repo σ) + 1) as Hnext1.
  { rewrite Hnext. apply incr_small. lia. }
  destruct (IH σ1) as [Hperm Hids]; [done| |done|lia| |..].
  - eapply Forall_impl; [exact Hvalid|]. intros l0 Hl0. simpl in Hl0.
    rewrite Hh. rewrite lookup_insert_is_Some'. by right.
  - simpl in Hmax |- *. lia.
  - intros k. rewrite Hus, lookup_insert_is_Some.
    intros [<-|[_ Hk]]; [lia|]. specialize (Hkeys k Hk). lia.
  - rewrite <- Hσ' in Hperm, Hids. split.
    + rewrite Hperm, Hrange1. simpl.
      apply Permutation_middle.
    + f_equal. rewrite Hids, Hnext1. f_equal; lia.
Qed.

(** C8, as the code has it. [ListUsers] on any world whose lock is free
    returns a [nil] error, and an empty list when the map is empty.
    After [n] calls of [CreateUser] on [n] different objects on a new
    repository ([n] at most [MaxInt]), the list it returns, in whatever
    order the [range] went, has [n] pointers, they are the [n] objects,
    and their [ID]s are the identifiers that were assigned. *)
Theorem ListUsers_after_creates σ0 (ls : list loc) :
  fresh_repo σ0 →
  Forall (λ l, is_Some (heap σ0 !! l)) ls →
  NoDup ls →
  Z.of_nat (length ls) ≤ MaxInt →
  (∀ σ, idle σ → ∃ us, ListUsers σ = Return (us, None) σ ∧
                       (users (repo σ) = ∅ → us = [])) ∧
  ListUsers σ0 = Return ([], None) σ0 ∧
  let cs := Call_CreateUser ∘ Some <$> ls in
  let σ := do_calls cs σ0 in
  ∃ us, ListUsers σ = Return (us, None) σ ∧
        ∀ us', us' ≡ₚ us →
               length us' = length ls ∧
               us' ≡ₚ (Some <$> ls) ∧
               IDs_of σ us' ≡ₚ created_ids cs σ0.
Proof.
  intros Hfresh Hvalid Hnodup Hn.
  pose proof (fresh_repo_idle σ0 Hfresh) as Hidle0.
  split; [|split].
  - intros σ Hidle. eexists. split; [by apply ListUsers_eq|].
    intros ->. reflexivity.
  - rewrite ListUsers_eq by done. by rewrite Hfresh.
  - intros cs σ. exists (range_values (users (repo σ))).
    split; [apply ListUsers_eq; by apply do_calls_idle|].
    destruct (creates_listed ls σ0 Hidle0 Hvalid Hnodup) as [Hperm Hids].
    { rewrite Hfresh. done. }
    { rewrite Hfresh. simpl. unfold MaxInt in *. lia. }
    { intros k. rewrite Hfresh. simpl. rewrite lookup_empty. by intros [? ?]. }
    fold cs in Hperm, Hids. fold σ in Hperm, Hids.
    rewrite Hfresh in Hperm, Hids. simpl in Hperm, Hids.
    unfold range_values in Hperm at 2.
    rewrite map_to_list_empty in Hperm. simpl in Hperm.
    intros us' Hus'. rewrite Hperm in Hus'.
    split; [by rewrite Hus', length_fmap|]. split; [done|].
    rewrite Hus', Hids. unfold cs.
    rewrite creates_count_up; [by rewrite Hfresh|done|done|..];
      rewrite Hfresh; simpl; unfold MinInt, MaxInt in *; lia.
Qed.

Lemma ListUsers_after_creates_witness :
  ∃ us,
    ListUsers (do_calls (Call_CreateUser ∘ Some <$> [1%positive; 2%positive])
                 two_users)
    = Return (us, None)
        (do_calls (Call_CreateUser ∘ Some <$> [1%positive; 2%positive])
           two_users) ∧
    length us = 2%nat.
Proof.
  destruct (ListUsers_after_creates two_users [1%positive; 2%positive])
    as (_ & _ & us & Hreturns & Hall).
  - reflexivity.
  - repeat constructor; eexists; reflexivity.
  - apply (bool_decide_unpack _). by vm_compute.
  - unfold MaxInt. simpl. lia.
  - exists us. split; [exact Hreturns|]. by apply (Hall us).
Defined.

(** C8, counterexample. After two calls of [CreateUser] on the same
    object, [ListUsers] returns that object twice; the identifiers
    assigned were 1 and 2, and both entries of the list read 2. *)
Lemma same_object_listed_twice :
  fresh_repo two_users ∧
  same_object_twice = (Call_CreateUser ∘ Some <$> [1%positive; 1%positive]) ∧
  ListUsers (do_calls same_object_twice two_users)
    = Return ([Some 1%positive; Some 1%positive], None)
        (do_calls same_object_twice two_users) ∧
  created_ids same_object_twice two_users = [1; 2] ∧
  IDs_of (do_calls same_object_twice two_users)
    [Some 1%positive; Some 1%positive] = [2; 2] ∧
  ¬ (IDs_of (do_calls same_object_twice two_users)
       [Some 1%positive; Some 1%positive]
     ≡ₚ created_ids same_object_twice two_users).
Proof.
  split; [reflexivity|]. split; [reflexivity|].
  split; [by vm_compute|]. split; [by vm_compute|].
  assert (IDs_of (do_calls same_object_twice two_users)
            [Some 1%positive; Some 1%positive] = [2; 2]) as Hids
      by by vm_compute.
  split; [exact Hids|].
  rewrite Hids. replace (created_ids same_object_twice two_users)
    with [1; 2] by by vm_compute.
  intros Hperm.
  assert (1 ∈ [2; 2]) as Hin by (rewrite Hperm; left).
  apply elem_of_cons in Hin as [Hin|Hin]; [discriminate|].
  apply elem_of_cons in Hin as [Hin|Hin]; [discriminate|].
  by apply elem_of_nil in Hin.
Qed.

End list_users.

(** ** The calculator *)

Section calculator_facts.

Import errors calculator.

(** Go's [b == 0] on a [float64] holds for the two zeros and for nothing
    else (not for a NaN, an infinity or a denormal). *)
Lemma eqb_zero_is_zero (b : float) : (b =? 0)%float = true ↔ is_zero b.
Proof.
  rewrite FloatAxioms.eqb_spec. unfold is_zero.
  change (Prim2SF 0) with (S754_zero false).
  destruct (Prim2SF b) as [[]|[]| |[] m e]; cbv [SFeqb SFcompare];
    (split; [try discriminate; auto|intros [?|?]; congruence]).
Qed.

(** C9. [Divide(a, b)] returns the error "division by zero" exactly
    when [b] is a zero of [float64], and then the value 0; otherwise it
    returns the IEEE quotient [a / b] and a [nil] error.  [Add],
    [Subtract] and [Multiply] have no error result: they return the IEEE
    sum, difference and product of any two operands. *)
Theorem Divide_fails_on_zero_only (a b : float) :
  ((Divide a b).2 = Some DivisionByZero ↔ is_zero b) ∧
  (is_zero b → Divide a b = (0%float, Some DivisionByZero)) ∧
  (¬ is_zero b → Divide a b = ((a / b)%float, None)) ∧
  Add a b = (a + b)%float ∧
  Subtract a b = (a - b)%float ∧
  Multiply a b = (a * b)%float.
Proof.
  unfold Divide. destruct (b =? 0)%float eqn:Hb.
  - apply eqb_zero_is_zero in Hb. repeat split; try done.
  - assert (¬ is_zero b) as Hnz.
    { rewrite <- eqb_zero_is_zero. congruence. }
    repeat split; try done.
Qed.

(** The calculator scenario of the specification, and operands that are
    zero, negative or fractional. *)
Example calculator_scenario :
  Add 5 3 = 8%float ∧ Subtract 5 3 = 2%float ∧ Multiply 5 3 = 15%float ∧
  Divide 6 3 = (2%float, None) ∧
  Divide 5 0 = (0%float, Some DivisionByZero) ∧
  Divide 5 (-0) = (0%float, Some DivisionByZero) ∧
  Add (-1.5) 0 = (-1.5)%float ∧ Multiply (-0.5) 4 = (-2)%float ∧
  Subtract 0 2.25 = (-2.25)%float.
Proof. repeat split; reflexivity. Qed.

End calculator_facts.

(** ** Goroutines calling [CreateUser] at the same time *)

Section goroutines.

Import GoInt database calls concurrent examples.

Lemma behind_in_critical_section g :
  behind g = true → in_critical_section g = true.
Proof. unfold behind, in_critical_section. by destruct (todo g), (at_pc g). Qed.

Lemma assigning_in_critical_section g :
  assigning g = true → in_critical_section g = true.
Proof. unfold assigning, in_critical_section. by destruct (todo g), (at_pc g). Qed.

Lemma latest_id_grows l a x :
  is_Some (latest_id l a) → is_Some (latest_id l (x :: a)).
Proof. intros Hl. destruct x as [l' id]. simpl. by case_decide. Qed.

(** A goroutine can only move when no other goroutine holds the lock:
    either it holds the lock itself, or it takes it. *)
Lemma others_outside c i g g' σ' a :
  invariant c →
  goroutines c !! i = Some g →
  goroutine_step g (shared c) = Some (g', σ', a) →
  ∀ j gj, goroutines c !! j = Some gj → j ≠ i →
          in_critical_section gj = false.
Proof.
  intros Hinv Hg Hstep j gj Hgj Hne.
  destruct (in_critical_section gj) eqn:Hcs; [exfalso|done].
  destruct (in_critical_section g) eqn:Hcsg.
  - apply Hne. by apply (inv_exclusive c Hinv j i gj g).
  - assert (writer (mutex (repo (shared c))) = true) as Hw.
    { apply (inv_writer c Hinv). eauto. }
    unfold goroutine_step in Hstep. unfold in_critical_section in Hcsg.
    destruct (todo g) as [|user rest]; [done|].
    destruct (at_pc g); try done.
    unfold Lock in Hstep. by rewrite Hw in Hstep.
Qed.

(** The invariant after a step, from what the step did to the
    goroutine that moved, to the world and to the assignments. *)
Lemma invariant_after c i g g' σ' a :
  invariant c →
  goroutines c !! i = Some g →
  (∀ j gj, goroutines c !! j = Some gj → j ≠ i →
           in_critical_section gj = false) →
  readers (mutex (repo σ')) = 0%nat →
  writer (mutex (repo σ')) = in_critical_section g' →
  numbered (a ++ assigned c) →
  (behind g' = true →
   nextID (repo σ') = Z.of_nat (length (a ++ assigned c)) ∧
   (at_pc g' = AtStoreNextID →
    tmp g' = Z.of_nat (length (a ++ assigned c)))) →
  (behind g' = false →
   nextID (repo σ') = Z.of_nat (length (a ++ assigned c)) + 1) →
  (assigning g' = true →
   ∃ l, head (todo g') = Some (Some l) ∧
        is_Some (latest_id l (a ++ assigned c))) →
  (∀ l id, latest_id l (a ++ assigned c) = Some id →
           ∃ u, heap σ' !! l = Some u ∧ ID u = id) →
  (∀ k p, users (repo σ') !! k = Some p →
          ∃ l, p = Some l ∧ is_Some (latest_id l (a ++ assigned c))) →
  invariant (mkConfig (<[i := g']> (goroutines c)) σ' (a ++ assigned c)).
Proof.
  intros Hinv Hg Hothers Hreaders Hwriter Hnum Hbehind Hcaught Hassign
    Hheap Hstored.
  assert (i < length (goroutines c))%nat as Hi by by eapply lookup_lt_Some.
  assert (∀ j gj, <[i := g']> (goroutines c) !! j = Some gj →
                  in_critical_section gj = true → j = i ∧ gj = g') as Hone.
  { intros j gj Hj Hcs.
    apply list_lookup_insert_Some in Hj as [(-> & -> & _)|[Hne Hj]]; [done|].
    rewrite (Hothers j gj Hj) in Hcs; [done|congruence]. }
  constructor; simpl.
  - done.
  - intros j1 j2 g1 g2 H1 H2 Hcs1 Hcs2.
    destruct (Hone j1 g1 H1 Hcs1) as [-> _].
    by destruct (Hone j2 g2 H2 Hcs2) as [-> _].
  - rewrite Hwriter. split.
    + intros Hcs. exists i, g'. split; [|done].
      by apply list_lookup_insert_eq.
    + intros (j & gj & Hj & Hcs). by destruct (Hone j gj Hj Hcs) as [_ <-].
  - done.
  - intros j gj Hj Hb.
    destruct (Hone j gj Hj (behind_in_critical_section gj Hb)) as [_ ->].
    by apply Hbehind.
  - intros Hall. apply Hcaught. apply (Hall i).
    by apply list_lookup_insert_eq.
  - intros j gj Hj Ha.
    destruct (Hone j gj Hj (assigning_in_critical_section gj Ha)) as [_ ->].
    by apply Hassign.
  - done.
  - done.
Qed.

(** Every step of every goroutine keeps the invariant, as long as the
    number of assignments stays below [MaxInt]. *)
Lemma step_invariant c c' :
  invariant c → sched_step c c' →
  Z.of_nat (length (assigned c')) < MaxInt →
  invariant c'.
Proof.
  intros Hinv Hstep. destruct Hstep as [i g g' σ' a c Hg Hstep].
  cbn [assigned]. intros Hbound.
  pose proof (others_outside c i g g' σ' a Hinv Hg Hstep) as Hothers.
  assert (behind g = false →
          nextID (repo (shared c)) = Z.of_nat (length (assigned c)) + 1)
    as Hcaught.
  { intros Hb. apply (inv_caught_up c Hinv). intros j gj Hj.
    destruct (decide (j = i)) as [->|Hne]; [congruence|].
    destruct (behind gj) eqn:Hbj; [|done].
    rewrite <- (Hothers j gj Hj Hne). symmetry.
    by apply behind_in_critical_section. }
  assert (in_critical_section g = true →
          writer (mutex (repo (shared c))) = true) as Hheld.
  { intros Hcs. apply (inv_writer c Hinv). eauto. }
  pose proof (inv_behind c Hinv i g Hg) as Hbehind.
  pose proof (inv_assigning c Hinv i g Hg) as Hassign.
  pose proof (inv_readers c Hinv) as Hreaders.
  pose proof (inv_numbered c Hinv) as Hnum.
  pose proof (inv_heap c Hinv) as Hheap.
  pose proof (inv_stored c Hinv) as Hstored.
  unfold goroutine_step in Hstep.
  unfold behind, assigning, in_critical_section in Hcaught, Hheld, Hbehind, Hassign.
  destruct (todo g) as [|user rest] eqn:Htodo; [done|].
  destruct (at_pc g) eqn:Hpc.
  - (* r.mutex.Lock() *)
    unfold Lock in Hstep.
    destruct (writer (mutex (repo (shared c)))) eqn:Hw; [done|].
    destruct (readers (mutex (repo (shared c)))) eqn:Hr; [|done].
    injection Hstep as <- <- <-.
    apply (invariant_after c i g); try done.
  - (* user.ID = r.nextID *)
    unfold mbind, M_bind, get_nextID, store_ID in Hstep.
    destruct user as [l|]; [destruct (heap (shared c) !! l) as [u|] eqn:Hl|].
    + injection Hstep as <- <- <-.
      specialize (Hcaught eq_refl). specialize (Hheld eq_refl).
      apply (invariant_after c i g); try done; cbn [app length heap repo].
      * intros _. split; [|done]. rewrite Hcaught. lia.
      * intros Hnow. exists l. split; [done|]. simpl.
        case_decide; [by eexists|done].
      * intros l0 id. simpl. case_decide as Hll.
        -- intros [= <-]. subst l0. exists (set_ID u (nextID (repo (shared c)))).
           by rewrite lookup_insert_eq.
        -- intros Hl0. rewrite lookup_insert_ne by done. by apply Hheap.
      * intros k p Hk. destruct (Hstored k p Hk) as (l0 & -> & Hl0).
        exists l0. split; [done|]. by apply latest_id_grows.
    + injection Hstep as <- <- <-.
      specialize (Hcaught eq_refl). specialize (Hheld eq_refl).
      apply (invariant_after c i g); try done.
    + injection Hstep as <- <- <-.
      specialize (Hcaught eq_refl). specialize (Hheld eq_refl).
      apply (invariant_after c i g); try done.
  - (* the read of r.nextID++ *)
    injection Hstep as <- <- <-.
    destruct (Hbehind eq_refl) as [Hnext _]. specialize (Hheld eq_refl).
    apply (invariant_after c i g); try done.
  - (* the write of r.nextID++ *)
    unfold set_nextID in Hstep. injection Hstep as <- <- <-.
    destruct (Hbehind eq_refl) as [Hnext Htmp]. specialize (Htmp eq_refl).
    specialize (Hheld eq_refl).
    apply (invariant_after c i g); try done; cbn [app length heap repo nextID].
    intros _. rewrite Htmp. apply incr_small.
    cbn [app] in Hbound. unfold MinInt, MaxInt in *. lia.
  - (* r.users[user.ID] = user *)
    unfold mbind, M_bind, load_ID, get_users, set_users in Hstep.
    specialize (Hcaught eq_refl). specialize (Hheld eq_refl).
    destruct (Hassign eq_refl) as (l & [= ->] & Hlatest).
    destruct (heap (shared c) !! l) as [u|] eqn:Hl.
    + injection Hstep as <- <- <-.
      apply (invariant_after c i g); try done; cbn [app length heap repo users].
      intros k p Hk.
      apply lookup_insert_Some in Hk as [[<- <-]|[Hne Hk]]; eauto.
    + injection Hstep as <- <- <-.
      apply (invariant_after c i g); try done.
  - (* the deferred r.mutex.Unlock() *)
    injection Hstep as <- <- <-.
    specialize (Hcaught eq_refl). specialize (Hheld eq_refl).
    apply (invariant_after c i g); try done.
    + unfold in_critical_section. simpl. by destruct rest.
    + unfold behind. simpl. by destruct rest.
    + unfold assigning. simpl. by destruct rest.
Qed.

Lemma start_invariant calls σ0 :
  fresh_repo σ0 → invariant (start calls σ0).
Proof.
  intros Hfresh.
  assert (∀ i g, goroutines (start calls σ0) !! i = Some g →
                 at_pc g = AtLock) as Hstart.
  { intros i g. unfold start. simpl. rewrite list_lookup_fmap.
    destruct (calls !! i); simpl; [|done]. by intros [= <-]. }
  assert (∀ i g, goroutines (start calls σ0) !! i = Some g →
                 in_critical_section g = false) as Hout.
  { intros i g Hg. unfold in_critical_section.
    rewrite (Hstart i g Hg). by destruct (todo g). }
  constructor; unfold start in *; simpl in *; rewrite ?Hfresh; simpl.
  - done.
  - intros i j gi gj Hi _ Hcs. by rewrite (Hout i gi Hi) in Hcs.
  - split; [done|]. intros (i & g & Hg & Hcs). by rewrite (Hout i g Hg) in Hcs.
  - done.
  - intros i g Hg Hb. apply behind_in_critical_section in Hb.
    by rewrite (Hout i g Hg) in Hb.
  - done.
  - intros i g Hg Ha. apply assigning_in_critical_section in Ha.
    by rewrite (Hout i g Hg) in Ha.
  - done.
  - intros k p. by rewrite lookup_empty.
Qed.

Lemma reachable_invariant calls σ0 c :
  fresh_repo σ0 →
  rtc sched_step (start calls σ0) c →
  Z.of_nat (length (assigned c)) < MaxInt →
  invariant c.
Proof.
  intros Hfresh Hreach. revert c Hreach.
  apply (rtc_ind_r (λ c, Z.of_nat (length (assigned c)) < MaxInt →
                         invariant c)).
  - intros _. by apply start_invariant.
  - intros c c' _ Hstep IH Hbound.
    apply (step_invariant c c'); [|done|done]. apply IH.
    destruct Hstep as [i g g' σ' a c _ _]. simpl in Hbound.
    rewrite length_app in Hbound. lia.
Qed.

(** Assignments numbered from the oldest carry the identifiers 1, 2,
    ..., each once. *)
Lemma numbered_ids a :
  numbered a → reverse a.*2 = seqZ 1 (Z.of_nat (length a)).
Proof.
  induction a as [|[l id] a IH]; intros Hnum; [done|].
  destruct Hnum as [-> Hnum]. rewrite fmap_cons, reverse_cons, IH by done.
  simpl length. rewrite seqZ_S. simpl. do 2 f_equal. lia.
Qed.

Lemma numbered_NoDup a : numbered a → NoDup a.*2.
Proof.
  intros Hnum. apply (NoDup_Permutation_proper _ _ (reverse_Permutation _)).
  rewrite numbered_ids by done. apply NoDup_seqZ.
Qed.

Lemma latest_id_elem_of l id a : latest_id l a = Some id → (l, id) ∈ a.
Proof.
  induction a as [|[l' id'] a IH]; simpl; [done|].
  case_decide as Hl.
  - intros [= ->]. subst. left.
  - intros Hid. right. by apply IH.
Qed.

(** An identifier was assigned to one object only. *)
Lemma numbered_one_object a l1 l2 id :
  numbered a → (l1, id) ∈ a → (l2, id) ∈ a → l1 = l2.
Proof.
  intros Hnum H1 H2.
  pose proof (numbered_NoDup a Hnum) as Hnodup.
  apply list_elem_of_lookup in H1 as [i1 H1].
  apply list_elem_of_lookup in H2 as [i2 H2].
  assert (i1 = i2) as ->.
  { apply (NoDup_lookup a.*2 i1 i2 id Hnodup);
      rewrite list_lookup_fmap; [by rewrite H1|by rewrite H2]. }
  congruence.
Qed.

(** C2. Goroutines that call [CreateUser] on the same repository, each
    call cut into its atomic steps and the steps interleaved in any way:
    in every configuration the scheduler can reach from a new repository
    (with fewer than [MaxInt] assignments made), at most one goroutine is
    between [Lock] and [Unlock]; the identifiers assigned so far are 1, 2,
    ..., in the order of assignment, none twice; and two different stored
    objects never carry the same [ID]. *)
Theorem concurrent_CreateUser_distinct_ids calls σ0 c :
  fresh_repo σ0 →
  rtc sched_step (start calls σ0) c →
  Z.of_nat (length (assigned c)) < MaxInt →
  (∀ i j gi gj,
     goroutines c !! i = Some gi → goroutines c !! j = Some gj →
     in_critical_section gi = true → in_critical_section gj = true →
     i = j) ∧
  reverse (assigned c).*2 = seqZ 1 (Z.of_nat (length (assigned c))) ∧
  NoDup (assigned c).*2 ∧
  (∀ k1 k2 l1 l2 u1 u2,
     users (repo (shared c)) !! k1 = Some (Some l1) →
     users (repo (shared c)) !! k2 = Some (Some l2) →
     l1 ≠ l2 →
     heap (shared c) !! l1 = Some u1 →
     heap (shared c) !! l2 = Some u2 →
     ID u1 ≠ ID u2).
Proof.
  intros Hfresh Hreach Hbound.
  pose proof (reachable_invariant calls σ0 c Hfresh Hreach Hbound) as Hinv.
  pose proof (inv_numbered c Hinv) as Hnum.
  split; [exact (inv_exclusive c Hinv)|].
  split; [by apply numbered_ids|].
  split; [by apply numbered_NoDup|].
  intros k1 k2 l1 l2 u1 u2 Hk1 Hk2 Hne Hu1 Hu2 Hid.
  destruct (inv_stored c Hinv k1 _ Hk1) as (l1' & [= <-] & [id1 Hid1]).
  destruct (inv_stored c Hinv k2 _ Hk2) as (l2' & [= <-] & [id2 Hid2]).
  destruct (inv_heap c Hinv l1 id1 Hid1) as (u1' & Hu1' & <-).
  destruct (inv_heap c Hinv l2 id2 Hid2) as (u2' & Hu2' & <-).
  assert (u1' = u1) as -> by congruence.
  assert (u2' = u2) as -> by congruence.
  apply Hne. apply (numbered_one_object (assigned c) l1 l2 (ID u1) Hnum).
  - by apply latest_id_elem_of.
  - rewrite Hid. by apply latest_id_elem_of.
Qed.

(** Whatever list of goroutines a scheduler follows, it stays within the
    steps of [sched_step]. *)
Lemma run_schedule_reachable sched c :
  rtc sched_step c (run_schedule sched c).
Proof.
  revert c. induction sched as [|i sched IH]; intros c; simpl; [done|].
  destruct (goroutines c !! i) as [g|] eqn:Hg; [|done].
  destruct (goroutine_step g (shared c)) as [[[g' σ'] a]|] eqn:Hstep; [|done].
  eapply rtc_l; [|apply IH]. by eapply sched_step_at.
Qed.

(** A goroutine left alone makes its call in six steps, and these do to
    the world what the method [CreateUser] does. *)
Lemma run_alone_CreateUser σ l u t :
  idle σ → heap σ !! l = Some u →
  ∃ σ', CreateUser (Some l) σ = Return None σ' ∧
        run_alone 6 (mkG [Some l] AtLock t) σ
          = (mkG [] AtLock (nextID (repo σ)), σ').
Proof.
  intros Hidle Hl. eexists. split; [by apply CreateUser_Some|].
  destruct σ as [h [us mu n]]. unfold idle in Hidle. simpl in Hidle, Hl.
  subst mu. simpl. unfold goroutine_step. simpl.
  unfold mbind, M_bind, get_nextID, store_ID. simpl. rewrite Hl. simpl.
  unfold load_ID, get_users, set_users. simpl. rewrite lookup_insert_eq.
  reflexivity.
Qed.

Lemma concurrent_CreateUser_distinct_ids_witness :
  reverse (assigned
             (run_schedule [0; 1; 0; 0; 1; 0; 0; 0; 1; 1; 1; 1; 1; 1]%nat
                (start [[Some 1%positive]; [Some 2%positive]] two_users))).*2
  = [1; 2].
Proof.
  apply (concurrent_CreateUser_distinct_ids
           [[Some 1%positive]; [Some 2%positive]] two_users
           (run_schedule [0; 1; 0; 0; 1; 0; 0; 0; 1; 1; 1; 1; 1; 1]%nat
              (start [[Some 1%positive]; [Some 2%positive]] two_users))).
  - reflexivity.
  - apply run_schedule_reachable.
  - by vm_compute.
Defined.

End goroutines.

(** ** The scenario of the specification, run on the model *)

Section scenario.

Import GoInt database calls api examples.

(** Create "a" and "b", update 1, delete 2: the identifiers are 1 and 2,
    [GetUser(1)] returns the updated record, [GetUser(2)] returns
    [NotFound], and [ListUsers] returns one record, whose [ID] is 1. *)
Example repository_scenario :
  let σ1 := do_calls [Call_CreateUser (Some 1%positive);
                      Call_CreateUser (Some 2%positive)] two_users in
  let a2 := {| ID := 0; Username := "a2"; Email := "a2@x.com" |} in
  created_ids [Call_CreateUser (Some 1%positive);
               Call_CreateUser (Some 2%positive)] two_users = [1; 2] ∧
  ∃ σ2 l σ3,
    updateUser 1 a2 σ1
      = Return (respondJSON StatusOK
                  {| ID := 1; Username := "a2"; Email := "a2@x.com" |}) σ2 ∧
    GetUser 1 σ2 = Return (Some l, None) σ2 ∧
    heap σ2 !! l = Some {| ID := 1; Username := "a2"; Email := "a2@x.com" |} ∧
    DeleteUser 2 σ2 = Return None σ3 ∧
    GetUser 2 σ3 = Return (nil, Some NotFound) σ3 ∧
    ListUsers σ3 = Return ([Some l], None) σ3 ∧
    IDs_of σ3 [Some l] = [1].
Proof.
  intros σ1 a2. split; [by vm_compute|].
  eexists _, _, _. repeat split; by vm_compute.
Qed.

End scenario.

(** ** More on the repository: locks, frames and bookkeeping *)

Section repository_more.

Import GoInt database calls bookkeeping examples.

#[local] Set Warnings "-clear-no-such-hyp".


(** X2. No call blocks on a world whose lock is free, and every call leaves
    the lock free, also the ones that panic: a [CreateUser] or
    [UpdateUser] on [nil] panics at its first dereference, the deferred
    [Unlock] runs, and the world is as before the call.  Only these two
    panic. *)
Theorem calls_release_the_lock c σ :
  idle σ →
  (do_call c σ).1 ≠ Res_blocked ∧
  idle (do_call c σ).2 ∧
  ((do_call c σ).1 = Res_panic →
   (do_call c σ).2 = σ ∧
   ∃ user, (c = Call_CreateUser user ∨ c = Call_UpdateUser user) ∧
           ∀ l, user = Some l → heap σ !! l = None) ∧
  (∀ user, (c = Call_CreateUser user ∨ c = Call_UpdateUser user) →
           (∀ l, user = Some l → heap σ !! l = None) →
           do_call c σ = (Res_panic, σ)).
Proof.
  intros Hidle. split; [|split; [by apply do_call_effect|split]].
  - destruct c as [id|[l|]|[l|]|id|]; unfold do_call, run.
    + by rewrite GetUser_eq.
    + destruct (heap σ !! l) as [u|] eqn:Hl.
      * by rewrite (CreateUser_Some σ l u).
      * rewrite CreateUser_panic; [done|done|]. by intros ? [= <-].
    + by rewrite CreateUser_panic.
    + destruct (heap σ !! l) as [u|] eqn:Hl.
      * rewrite (UpdateUser_Some σ l u) by done.
        by destruct (users (repo σ) !! ID u).
      * rewrite UpdateUser_panic; [done|done|]. by intros ? [= <-].
    + by rewrite UpdateUser_panic.
    + rewrite DeleteUser_eq by done. by destruct (users (repo σ) !! id).
    + by rewrite ListUsers_eq.
  - destruct c as [id|[l|]|[l|]|id|]; unfold do_call, run.
    + by rewrite GetUser_eq.
    + destruct (heap σ !! l) as [u|] eqn:Hl.
      * by rewrite (CreateUser_Some σ l u).
      * rewrite CreateUser_panic; [|done|by intros ? [= <-]].
        intros _. split; [done|]. exists (Some l). split; [by left|].
        by intros ? [= <-].
    + rewrite CreateUser_panic by done.
      intros _. split; [done|]. exists None. split; [by left|done].
    + destruct (heap σ !! l) as [u|] eqn:Hl.
      * rewrite (UpdateUser_Some σ l u) by done.
        by destruct (users (repo σ) !! ID u).
      * rewrite UpdateUser_panic; [|done|by intros ? [= <-]].
        intros _. split; [done|]. exists (Some l). split; [by right|].
        by intros ? [= <-].
    + rewrite UpdateUser_panic by done.
      intros _. split; [done|]. exists None. split; [by right|done].
    + rewrite DeleteUser_eq by done. by destruct (users (repo σ) !! id).
    + by rewrite ListUsers_eq.
  - intros user [->| ->] Hnil; unfold do_call, run.
    + by rewrite CreateUser_panic.
    + by rewrite UpdateUser_panic.
Qed.

Lemma calls_release_the_lock_witness :
  do_call (Call_CreateUser nil) two_users = (Res_panic, two_users) ∧
  idle (do_call (Call_CreateUser nil) two_users).2.
Proof.
  destruct (calls_release_the_lock (Call_CreateUser nil) two_users)
    as (_ & Hidle & _ & Hpanic); [reflexivity|].
  split; [|exact Hidle]. apply (Hpanic nil); [by left|done].
Defined.

(** X3. A call changes at most one entry of the map, the one under its
    [target]; and it changes no object, except that [CreateUser] writes
    the [ID] of the object it is handed. *)
Theorem call_touches_one_entry c σ :
  idle σ →
  (∀ k, target c σ ≠ Some k →
        users (repo (do_call c σ).2) !! k = users (repo σ) !! k) ∧
  (∀ l, c ≠ Call_CreateUser (Some l) →
        heap (do_call c σ).2 !! l = heap σ !! l) ∧
  (∀ l u, heap σ !! l = Some u →
          ∃ u', heap (do_call c σ).2 !! l = Some u' ∧
                Username u' = Username u ∧ Email u' = Email u).
Proof.
  intros Hidle. step_cases c σ Hidle Hidle' Heff.
  - rewrite Heff. repeat split; eauto.
  - destruct Heff as (-> & -> & (u & Hl & Hh) & Hus & _).
    rewrite Hus, Hh. split; [|split].
    + intros k Hk. simpl in Hk. rewrite lookup_insert_ne; [done|congruence].
    + intros l0 Hl0. rewrite lookup_insert_ne; [done|congruence].
    + intros l0 u0 Hl0. destruct (decide (l = l0)) as [<-|Hne].
      * rewrite lookup_insert_eq. eexists. split; [done|].
        assert (u0 = u) as -> by congruence. done.
      * rewrite lookup_insert_ne by done. eauto.
  - destruct Heff as (-> & (u & Hl & Hid) & _ & Hh & Hus & _).
    rewrite Hus, Hh. split; [|split; [done|eauto]].
    intros k Hk. simpl in Hk. rewrite Hl in Hk. simpl in Hk.
    rewrite lookup_insert_ne; [done|congruence].
  - destruct Heff as (-> & _ & Hh & Hus & _).
    rewrite Hus, Hh. split; [|split; [done|eauto]].
    intros k Hk. simpl in Hk. rewrite lookup_delete_ne; [done|congruence].
Qed.

Lemma call_touches_one_entry_witness :
  users (repo (do_call (Call_DeleteUser 1) alice_stored).2) !! 2
    = users (repo alice_stored) !! 2.
Proof.
  destruct (call_touches_one_entry (Call_DeleteUser 1) alice_stored)
    as (Hframe & _); [reflexivity|].
  apply Hframe. discriminate.
Defined.

(** X4. [UpdateUser] never adds a key, never removes one and never moves the
    counter, whatever it is handed; when the [ID] of the object has no
    entry it returns [NotFound] and the world is unchanged. *)
Theorem UpdateUser_keeps_keys σ user :
  idle σ →
  dom (users (repo (do_call (Call_UpdateUser user) σ).2))
    = dom (users (repo σ)) ∧
  nextID (repo (do_call (Call_UpdateUser user) σ).2) = nextID (repo σ) ∧
  heap (do_call (Call_UpdateUser user) σ).2 = heap σ ∧
  (∀ l u, user = Some l → heap σ !! l = Some u →
          users (repo σ) !! ID u = None →
          UpdateUser user σ = Return (Some NotFound) σ).
Proof.
  intros Hidle. split; [|split; [|split]].
  - step_cases (Call_UpdateUser user) σ Hidle Hidle' Heff.
    + by rewrite Heff.
    + by destruct Heff as [[=] _].
    + destruct Heff as (_ & _ & Hsome & _ & Hus & _).
      rewrite Hus. by apply dom_insert_lookup_L.
    + by destruct Heff as [[=] _].
  - step_cases (Call_UpdateUser user) σ Hidle Hidle' Heff.
    + by rewrite Heff.
    + by destruct Heff as [[=] _].
    + by destruct Heff as (_ & _ & _ & _ & _ & ->).
    + by destruct Heff as [[=] _].
  - step_cases (Call_UpdateUser user) σ Hidle Hidle' Heff.
    + by rewrite Heff.
    + by destruct Heff as [[=] _].
    + by destruct Heff as (_ & _ & _ & -> & _).
    + by destruct Heff as [[=] _].
  - intros l u -> Hl Hnone. by apply (UpdateUser_NotFound σ l u).
Qed.

Lemma UpdateUser_keeps_keys_witness :
  UpdateUser (Some 2%positive) alice_stored
    = Return (Some NotFound) alice_stored.
Proof.
  destruct (UpdateUser_keeps_keys alice_stored (Some 2%positive))
    as (_ & _ & _ & Hnotfound); [reflexivity|].
  apply (Hnotfound 2%positive bob); reflexivity.
Defined.

Lemma deleted_count_app h1 h2 :
  deleted_count (h1 ++ h2) = (deleted_count h1 + deleted_count h2)%nat.
Proof. unfold deleted_count. by rewrite filter_app, length_app. Qed.

(** The keys after a sequence of calls: those that were there or were
    assigned on the way, less those deleted. *)
Lemma keys_after cs σ m :
  idle σ → 0 ≤ m → counted σ m →
  m + Z.of_nat (count_creates cs) ≤ MaxInt →
  ∀ k, is_Some (users (repo (do_calls cs σ)) !! k) ↔
       (is_Some (users (repo σ) !! k) ∨ k ∈ created_ids cs σ) ∧
       Deleted k ∉ history cs σ.
Proof.
  revert σ m. induction cs as [|c cs IH]; intros σ m Hidle Hm Hcnt Hmax k.
  { simpl. unfold created_ids. simpl. set_solver. }
  rewrite count_creates_cons in Hmax.
  rewrite do_calls_cons, created_ids_cons, history_cons.
  pose proof (do_call_counted c σ m Hidle Hm Hcnt) as Hstep.
  assert (∀ m', counted (do_call c σ).2 m' → m ≤ m' →
                m' + Z.of_nat (count_creates cs) ≤ MaxInt →
                Forall (λ id, m' < id) (created_ids cs (do_call c σ).2))
    as Hlater.
  { intros m' Hcnt' Hle Hmax'.
    by destruct (created_ids_increasing cs (do_call c σ).2 m')
      as (_ & Hall & _); [apply do_call_effect|lia|..]. }
  step_cases c σ Hidle Hidle' Heff.
  - destruct Hstep as [[_ Hcnt']|(Hids & _)];
      [destruct (is_create c); lia| |done].
    rewrite (IH _ m Hidle' Hm Hcnt'); [|destruct (is_create c); lia].
    rewrite Heff. simpl. done.
  - destruct Hstep as [[Hids _]|(_ & Hcnt' & Hc)];
      [destruct (is_create c); lia|done|].
    rewrite Hc in Hmax.
    rewrite (IH _ (m + 1) Hidle' ltac:(lia) Hcnt' ltac:(lia)).
    destruct Heff as (_ & _ & _ & Hus & _). rewrite Hus.
    rewrite lookup_insert_is_Some. simpl. rewrite !elem_of_cons.
    destruct (decide (id = k)) as [->|Hne]; naive_solver.
  - destruct Hstep as [[_ Hcnt']|(Hids & _)];
      [destruct (is_create c); lia| |done].
    rewrite (IH _ m Hidle' Hm Hcnt'); [|destruct (is_create c); lia].
    destruct Heff as (_ & _ & Hsome & _ & Hus & _). rewrite Hus.
    rewrite lookup_insert_is_Some. simpl. rewrite !elem_of_cons.
    destruct (decide (id = k)) as [->|Hne]; naive_solver.
  - destruct Hstep as [[_ Hcnt']|(Hids & _)];
      [destruct (is_create c); lia| |done].
    assert (m + Z.of_nat (count_creates cs) ≤ MaxInt) as Hmax'
        by (destruct (is_create c); lia).
    rewrite (IH _ m Hidle' Hm Hcnt' Hmax').
    pose proof (Hlater m Hcnt' ltac:(lia) Hmax') as Hall.
    destruct Heff as (_ & Hsome & _ & Hus & _). rewrite Hus.
    rewrite lookup_delete_is_Some. simpl. rewrite !elem_of_cons.
    pose proof (proj2 Hcnt id Hsome) as Hid.
    rewrite Forall_forall in Hall.
    destruct (decide (id = k)) as [->|Hne].
    + split; [|naive_solver]. intros [[[? ?]|Hk] _]; [done|].
      specialize (Hall k Hk). lia.
    + naive_solver.
Qed.

(** X5. The keys of the map are exactly the identifiers that [CreateUser]
    assigned and that no [DeleteUser] has since removed; [GetUser] finds
    exactly these.  (From a new repository, with at most [MaxInt] calls of
    [CreateUser].) *)
Theorem keys_are_created_not_deleted σ0 cs k :
  fresh_repo σ0 →
  Z.of_nat (count_creates cs) ≤ MaxInt →
  (is_Some (users (repo (do_calls cs σ0)) !! k) ↔
   k ∈ created_ids cs σ0 ∧ Deleted k ∉ history cs σ0) ∧
  ((∃ p, GetUser k (do_calls cs σ0) = Return (p, None) (do_calls cs σ0)) ↔
   k ∈ created_ids cs σ0 ∧ Deleted k ∉ history cs σ0).
Proof.
  intros Hfresh Hmax.
  pose proof (fresh_repo_idle σ0 Hfresh) as Hidle0.
  assert (is_Some (users (repo (do_calls cs σ0)) !! k) ↔
          k ∈ created_ids cs σ0 ∧ Deleted k ∉ history cs σ0) as Hkeys.
  { rewrite (keys_after cs σ0 0 Hidle0 ltac:(lia)
               (fresh_repo_counted σ0 Hfresh) ltac:(lia)).
    rewrite Hfresh. simpl. rewrite lookup_empty.
    split; [intros [[[? [=]]|?] ?]; auto|intros [? ?]; auto]. }
  split; [done|]. rewrite <- Hkeys.
  rewrite GetUser_eq by by apply do_calls_idle.
  destruct (users (repo (do_calls cs σ0)) !! k) as [p|].
  - split; [by eexists|]. intros _. by exists p.
  - split; [by intros [p [=]]|]. by intros [? [=]].
Qed.

Lemma keys_are_created_not_deleted_witness :
  is_Some (users (repo (do_calls [Call_CreateUser (Some 1%positive)]
                          two_users)) !! 1).
Proof.
  apply (keys_are_created_not_deleted two_users
           [Call_CreateUser (Some 1%positive)] 1).
  - reflexivity.
  - unfold MaxInt. by vm_compute.
  - split; [by vm_compute; left|]. vm_compute.
    intros Hin. apply elem_of_cons in Hin as [[=]|Hin].
    by apply elem_of_nil in Hin.
Defined.

Lemma deleted_count_singleton e :
  deleted_count [e] = if is_Deleted e then 1%nat else 0%nat.
Proof.
  unfold deleted_count. rewrite filter_cons.
  destruct (is_Deleted e);
    [rewrite decide_True by done|rewrite decide_False by done]; done.
Qed.

(** The size of the map along a sequence of calls: one more for each
    identifier assigned, one less for each deletion that found its
    entry. *)
Lemma size_after cs σ m :
  idle σ → 0 ≤ m → counted σ m →
  m + Z.of_nat (count_creates cs) ≤ MaxInt →
  (size (users (repo (do_calls cs σ))) + deleted_count (history cs σ)
   = size (users (repo σ)) + length (created_ids cs σ))%nat.
Proof.
  revert σ m. induction cs as [|c cs IH]; intros σ m Hidle Hm Hcnt Hmax.
  { simpl. unfold created_ids, deleted_count. simpl. lia. }
  rewrite count_creates_cons in Hmax.
  rewrite do_calls_cons, created_ids_cons, history_cons, deleted_count_app.
  rewrite length_app.
  pose proof (do_call_counted c σ m Hidle Hm Hcnt) as Hstep.
  step_cases c σ Hidle Hidle' Heff.
  - destruct Hstep as [[_ Hcnt']|(Hids & _)];
      [destruct (is_create c); lia| |done].
    pose proof (IH _ m Hidle' Hm Hcnt') as IH'.
    rewrite Heff in IH' |- *. change (deleted_count []) with 0%nat.
    simpl. apply IH'. destruct (is_create c); lia.
  - destruct Hstep as [[Hids _]|(_ & Hcnt' & Hc)];
      [destruct (is_create c); lia|done|].
    rewrite Hc in Hmax.
    pose proof (IH _ (m + 1) Hidle' ltac:(lia) Hcnt' ltac:(lia)) as IH'.
    destruct Heff as (_ & Hid & _ & Hus & _). rewrite Hus in IH'.
    rewrite map_size_insert_None in IH'.
    + rewrite deleted_count_singleton. simpl. lia.
    + destruct (users (repo σ) !! id) eqn:Hk; [|done].
      pose proof (proj2 Hcnt id ltac:(by eexists)) as Hle.
      destruct Hcnt as [Hnext _]. rewrite Hid, Hnext in Hle.
      rewrite wrap_id in Hle; [lia|].
      unfold in_range, MinInt, MaxInt in *. lia.
  - destruct Hstep as [[_ Hcnt']|(Hids & _)];
      [destruct (is_create c); lia| |done].
    pose proof (IH _ m Hidle' Hm Hcnt') as IH'.
    destruct Heff as (_ & _ & Hsome & _ & Hus & _). rewrite Hus in IH'.
    rewrite map_size_insert_Some in IH' by done.
    rewrite deleted_count_singleton. simpl.
    apply IH'. destruct (is_create c); lia.
  - destruct Hstep as [[_ Hcnt']|(Hids & _)];
      [destruct (is_create c); lia| |done].
    pose proof (IH _ m Hidle' Hm Hcnt') as IH'.
    destruct Heff as (_ & Hsome & _ & Hus & _). rewrite Hus in IH'.
    rewrite map_size_delete_Some in IH' by done.
    assert (size (users (repo σ)) ≠ 0)%nat as Hpos.
    { intros Hz. apply map_size_empty_iff in Hz. rewrite Hz in Hsome.
      rewrite lookup_empty in Hsome. by destruct Hsome. }
    rewrite deleted_count_singleton. simpl.
    specialize (IH' ltac:(destruct (is_create c); lia)). lia.
Qed.

(** X6. [ListUsers] returns as many records as identifiers were assigned,
    less the deletions that found their entry, whatever else was called
    in between and in whatever order the [range] went.  (From a new
    repository, with at most [MaxInt] calls of [CreateUser].) *)
Theorem ListUsers_length_counts σ0 cs :
  fresh_repo σ0 →
  Z.of_nat (count_creates cs) ≤ MaxInt →
  ∃ us, ListUsers (do_calls cs σ0) = Return (us, None) (do_calls cs σ0) ∧
        ∀ us', us' ≡ₚ us →
          (length us' + deleted_count (history cs σ0)
           = length (created_ids cs σ0))%nat.
Proof.
  intros Hfresh Hmax.
  pose proof (fresh_repo_idle σ0 Hfresh) as Hidle0.
  eexists. split; [apply ListUsers_eq; by apply do_calls_idle|].
  intros us' ->. unfold range_values.
  rewrite length_fmap, length_map_to_list.
  rewrite (size_after cs σ0 0 Hidle0 ltac:(lia)
             (fresh_repo_counted σ0 Hfresh) ltac:(lia)).
  rewrite Hfresh. simpl. by rewrite map_size_empty.
Qed.

Lemma ListUsers_length_counts_witness :
  ∃ us, ListUsers (do_calls [Call_CreateUser (Some 1%positive);
                             Call_CreateUser (Some 2%positive);
                             Call_DeleteUser 1] two_users)
        = Return (us, None)
            (do_calls [Call_CreateUser (Some 1%positive);
                       Call_CreateUser (Some 2%positive);
                       Call_DeleteUser 1] two_users) ∧
        length us = 1%nat.
Proof.
  destruct (ListUsers_length_counts two_users
              [Call_CreateUser (Some 1%positive);
               Call_CreateUser (Some 2%positive);
               Call_DeleteUser 1]) as (us & Hreturns & Hlen).
  - reflexivity.
  - unfold MaxInt. by vm_compute.
  - exists us. split; [exact Hreturns|].
    specialize (Hlen us (reflexivity us)).
    replace (deleted_count _) with 1%nat in Hlen by by vm_compute.
    replace (length (created_ids _ _)) with 2%nat in Hlen by by vm_compute.
    lia.
Defined.

End repository_more.

(** ** Numerals and paths *)

Section numerals_and_paths.

Import Stdlib.Strings.Ascii GoInt strconv handlers.

Lemma digit_char_spec d :
  0 ≤ d ≤ 9 →
  is_digit (digit_char d) = true ∧ digit (digit_char d) = d ∧
  digit_char d ≠ "-"%char ∧ digit_char d ≠ "+"%char ∧
  digit_char d ≠ "/"%char.
Proof.
  intros Hd.
  assert (d = 0 ∨ d = 1 ∨ d = 2 ∨ d = 3 ∨ d = 4 ∨ d = 5 ∨ d = 6 ∨ d = 7
          ∨ d = 8 ∨ d = 9) as Hcases by lia.
  repeat (destruct Hcases as [->|Hcases]; [by vm_compute|]).
  subst. by vm_compute.
Qed.

Lemma digit_char_digit c : is_digit c = true → digit_char (digit c) = c.
Proof.
  unfold is_digit, digit, digit_char. intros Hc.
  apply andb_true_iff in Hc as [H1 H2].
  apply Z.leb_le in H1. apply Z.leb_le in H2.
  replace (Z.to_N (48 + (Z.of_N (N_of_ascii c) - 48))) with (N_of_ascii c)
    by lia.
  apply ascii_N_embedding.
Qed.

Lemma is_digit_range c : is_digit c = true → 0 ≤ digit c ≤ 9.
Proof.
  unfold is_digit, digit. intros Hc.
  apply andb_true_iff in Hc as [H1 H2].
  apply Z.leb_le in H1. apply Z.leb_le in H2. lia.
Qed.

Lemma length_numeral ds : String.length (numeral ds) = length ds.
Proof. induction ds as [|d ds IH]; simpl; [done|by rewrite IH]. Qed.

Lemma value_from_ge n ds : digits ds → 0 ≤ n → n ≤ value_from n ds.
Proof.
  revert n. induction ds as [|d ds IH]; intros n Hds Hn; [done|].
  apply Forall_cons in Hds as [Hd Hds]. unfold value_from. simpl.
  fold (value_from (n * 10 + d) ds).
  etrans; [|apply IH; [done|lia]]. lia.
Qed.

Lemma value_from_lt n ds :
  digits ds → 0 ≤ n → value_from n ds < (n + 1) * 10 ^ Z.of_nat (length ds).
Proof.
  revert n. induction ds as [|d ds IH]; intros n Hds Hn.
  { unfold value_from. simpl. lia. }
  apply Forall_cons in Hds as [Hd Hds]. unfold value_from. simpl foldl.
  fold (value_from (n * 10 + d) ds).
  eapply Z.lt_le_trans; [apply IH; [done|lia]|].
  rewrite length_cons, Nat2Z.inj_succ, Z.pow_succ_r by lia.
  assert (0 < 10 ^ Z.of_nat (length ds)) by (apply Z.pow_pos_nonneg; lia).
  nia.
Qed.

(** The fast loop of [Atoi] reads a numeral by value. *)
Lemma Atoi_fast_loop_numeral s0 ds n :
  digits ds → Atoi_fast_loop s0 (numeral ds) n = (value_from n ds, None).
Proof.
  revert n. induction ds as [|d ds IH]; intros n Hds; [done|].
  apply Forall_cons in Hds as [Hd Hds]. simpl.
  destruct (digit_char_spec d Hd) as (-> & -> & _). by apply IH.
Qed.

(** The loop of [ParseUint] reads a numeral by value as long as the value
    fits 64 bits, and reports the range otherwise. *)
Lemma ParseUint_loop_numeral s0 ds n :
  digits ds → 0 ≤ n ≤ maxUint64 →
  ParseUint_loop s0 (numeral ds) n
    = if value_from n ds <=? maxUint64 then (value_from n ds, None)
      else (maxUint64, Some (rangeError "ParseUint" s0)).
Proof.
  revert n. induction ds as [|d ds IH]; intros n Hds Hn.
  { unfold value_from. simpl. by rewrite (proj2 (Z.leb_le _ _)) by lia. }
  apply Forall_cons in Hds as [Hd Hds]. simpl.
  destruct (digit_char_spec d Hd) as (-> & -> & _).
  unfold value_from. simpl foldl. fold (value_from (n * 10 + d) ds).
  pose proof (value_from_ge (n * 10 + d) ds Hds ltac:(lia)) as Hge.
  unfold maxUint64 in *.
  destruct (1844674407370955162 <=? n) eqn:Hcut.
  - apply Z.leb_le in Hcut. by rewrite (proj2 (Z.leb_gt _ _)) by lia.
  - apply Z.leb_gt in Hcut.
    destruct (18446744073709551615 <? n * 10 + d) eqn:Hover.
    + apply Z.ltb_lt in Hover. by rewrite (proj2 (Z.leb_gt _ _)) by lia.
    + apply Z.ltb_ge in Hover. apply IH; [done|]. unfold maxUint64. lia.
Qed.


Lemma value_lt ds :
  digits ds → value ds < 10 ^ Z.of_nat (length ds).
Proof.
  intros Hds. pose proof (value_from_lt 0 ds Hds ltac:(lia)). unfold value. lia.
Qed.

Lemma value_nonneg ds : digits ds → 0 ≤ value ds.
Proof. intros Hds. by apply (value_from_ge 0). Qed.

Lemma value_short ds :
  digits ds → (length ds < 19)%nat → value ds < 1000000000000000000.
Proof.
  intros Hds Hlen. eapply Z.lt_le_trans; [by apply value_lt|].
  change 1000000000000000000 with (10 ^ 18).
  apply Z.pow_le_mono_r; lia.
Qed.

Lemma ParseUint_numeral ds :
  digits ds → ds ≠ [] →
  ParseUint (numeral ds)
    = if value ds <=? maxUint64 then (value ds, None)
      else (maxUint64, Some (rangeError "ParseUint" (numeral ds))).
Proof.
  intros Hds Hne. unfold ParseUint.
  destruct ds as [|d ds]; [done|].
  change (numeral (d :: ds)) with (String (digit_char d) (numeral ds)).
  cbv iota. 
  change (String (digit_char d) (numeral ds)) with (numeral (d :: ds)).
  apply ParseUint_loop_numeral; [done|]. unfold maxUint64. lia.
Qed.

(** [Atoi] on an optionally signed numeral. *)
Lemma Atoi_signed sg ds :
  digits ds → ds ≠ [] →
  Atoi (sign_string sg +:+ numeral ds)
    = match sg with
      | minus =>
          if value ds <=? 9223372036854775808 then (- value ds, None)
          else (MinInt, Some (rangeError "Atoi" (sign_string sg +:+ numeral ds)))
      | _ =>
          if value ds <=? MaxInt then (value ds, None)
          else (MaxInt, Some (rangeError "Atoi" (sign_string sg +:+ numeral ds)))
      end.
Proof.
  intros Hds Hne.
  pose proof (value_nonneg ds Hds) as Hge.
  pose proof (length_numeral ds) as Hlen.
  pose proof (ParseUint_numeral ds Hds Hne) as HPU.
  pose proof (Atoi_fast_loop_numeral (sign_string sg +:+ numeral ds) ds 0 Hds)
    as Hfast.
  fold (value ds) in Hfast.
  assert ((length ds < 19)%nat → value ds < 1000000000000000000) as Hshort
    by (by apply value_short).
  destruct ds as [|d ds]; [done|].
  pose proof (Forall_inv Hds) as Hd. 
  destruct (digit_char_spec d Hd) as (Hdig & Hval & Hm & Hp & _).
  set (v := value (d :: ds)) in *. clearbody v.
  change (numeral (d :: ds)) with (String (digit_char d) (numeral ds)) in *.
  simpl in Hlen.
  unfold Atoi, MaxInt, MinInt, maxUint64 in *.
  destruct sg; unfold sign_string, String.app in *; fold String.app in *.
  - cbn [String.length]. rewrite Hlen.
    destruct (_ && _) eqn:Hpath.
    + apply andb_true_iff in Hpath as [_ Hpath]. apply Nat.ltb_lt in Hpath.
      unfold Atoi_fast.
      rewrite (bool_decide_eq_false_2 _ Hm), (bool_decide_eq_false_2 _ Hp).
      cbn [orb andb]. rewrite Hfast.
      rewrite (proj2 (Z.leb_le _ _)); [done|]. 
      specialize (Hshort ltac:(simpl; lia)). lia.
    + unfold ParseInt.
      rewrite (bool_decide_eq_false_2 _ Hm), (bool_decide_eq_false_2 _ Hp).
      cbn [orb andb negb]. rewrite HPU.
      destruct (v <=? 18446744073709551615) eqn:Hu.
      * destruct (9223372036854775808 <=? v) eqn:Hr.
        -- apply Z.leb_le in Hr. by rewrite (proj2 (Z.leb_gt _ _)) by lia.
        -- apply Z.leb_gt in Hr. by rewrite (proj2 (Z.leb_le _ _)) by lia.
      * apply Z.leb_gt in Hu. cbn.
        by rewrite (proj2 (Z.leb_gt _ _)) by lia.
  - cbn [String.length]. rewrite Hlen.
    destruct (_ && _) eqn:Hpath.
    + apply andb_true_iff in Hpath as [_ Hpath]. apply Nat.ltb_lt in Hpath.
      unfold Atoi_fast.
      replace (bool_decide ("+"%char = "-"%char)) with false by done.
      replace (bool_decide ("+"%char = "+"%char)) with true by done.
      cbn [orb andb String.length Nat.ltb Nat.leb]. rewrite Hfast.
      rewrite (proj2 (Z.leb_le _ _)); [done|].
      specialize (Hshort ltac:(simpl; lia)). lia.
    + unfold ParseInt.
      replace (bool_decide ("+"%char = "-"%char)) with false by done.
      replace (bool_decide ("+"%char = "+"%char)) with true by done.
      cbn [orb andb negb]. rewrite HPU.
      destruct (v <=? 18446744073709551615) eqn:Hu.
      * destruct (9223372036854775808 <=? v) eqn:Hr.
        -- apply Z.leb_le in Hr. by rewrite (proj2 (Z.leb_gt _ _)) by lia.
        -- apply Z.leb_gt in Hr. by rewrite (proj2 (Z.leb_le _ _)) by lia.
      * apply Z.leb_gt in Hu. cbn.
        by rewrite (proj2 (Z.leb_gt _ _)) by lia.
  - cbn [String.length]. rewrite Hlen.
    destruct (_ && _) eqn:Hpath.
    + apply andb_true_iff in Hpath as [_ Hpath]. apply Nat.ltb_lt in Hpath.
      unfold Atoi_fast.
      replace (bool_decide ("-"%char = "-"%char)) with true by done.
      cbn [orb andb String.length Nat.ltb Nat.leb]. rewrite Hfast.
      rewrite (proj2 (Z.leb_le _ _)); [done|].
      specialize (Hshort ltac:(simpl; lia)). lia.
    + unfold ParseInt.
      replace (bool_decide ("-"%char = "-"%char)) with true by done.
      replace (bool_decide ("-"%char = "+"%char)) with false by done.
      cbn [orb andb negb]. rewrite HPU.
      destruct (v <=? 18446744073709551615) eqn:Hu.
      * destruct (9223372036854775808 <? v) eqn:Hr.
        -- apply Z.ltb_lt in Hr. by rewrite (proj2 (Z.leb_gt _ _)) by lia.
        -- apply Z.ltb_ge in Hr. by rewrite (proj2 (Z.leb_le _ _)) by lia.
      * apply Z.leb_gt in Hu. cbn.
        by rewrite (proj2 (Z.leb_gt _ _)) by lia.
Qed.

(** A loop that ends without error has read digits only. *)
Lemma all_digits_numeral s :
  (∀ c, has_byte c s = true → is_digit c = true) →
  ∃ ds, s = numeral ds ∧ digits ds ∧ length ds = String.length s.
Proof.
  induction s as [|c s IH]; intros Hs.
  { exists []. split_and!; [done|constructor|done]. }
  destruct IH as (ds & -> & Hds & Hlen).
  { intros c' Hc'. apply Hs. simpl. rewrite Hc'. by rewrite orb_true_r. }
  assert (is_digit c = true) as Hc.
  { apply Hs. simpl. by rewrite bool_decide_eq_true_2. }
  exists (digit c :: ds). simpl. rewrite digit_char_digit by done.
  split_and!; [done| |by rewrite Hlen].
  apply Forall_cons. split; [by apply is_digit_range|done].
Qed.

Lemma Atoi_fast_loop_None s0 s n m :
  Atoi_fast_loop s0 s n = (m, None) →
  ∀ c, has_byte c s = true → is_digit c = true.
Proof.
  revert n. induction s as [|c s IH]; intros n Hloop c' Hc'; [done|].
  simpl in *. destruct (is_digit c) eqn:Hc; [|done].
  apply orb_true_iff in Hc' as [Hc'|Hc'].
  - apply bool_decide_eq_true in Hc'. by subst.
  - by eapply IH.
Qed.

Lemma ParseUint_loop_None s0 s n m :
  ParseUint_loop s0 s n = (m, None) →
  ∀ c, has_byte c s = true → is_digit c = true.
Proof.
  revert n. induction s as [|c s IH]; intros n Hloop c' Hc'; [done|].
  simpl in *. destruct (is_digit c) eqn:Hc; [|done].
  destruct (_ <=? n); [done|]. destruct (_ <? _); [done|].
  apply orb_true_iff in Hc' as [Hc'|Hc'].
  - apply bool_decide_eq_true in Hc'. by subst.
  - by eapply IH.
Qed.

Lemma ParseUint_error s un e :
  ParseUint s = (un, Some e) →
  e = syntaxError "ParseUint" s ∨
  (e = rangeError "ParseUint" s ∧ un = maxUint64).
Proof.
  unfold ParseUint.
  assert (∀ s0 s n, ParseUint_loop s0 s n = (un, Some e) →
            e = syntaxError "ParseUint" s0 ∨
            (e = rangeError "ParseUint" s0 ∧ un = maxUint64)) as Hloop.
  { intros s0 s'. induction s' as [|c s' IH]; intros n Hl; [done|].
    simpl in Hl. repeat case_match; simplify_eq; eauto. }
  destruct s; [intros [= <- <-]; by left|]. apply Hloop.
Qed.

(** [Atoi] returns without error on optionally signed numerals only. *)
Lemma Atoi_None s n :
  Atoi s = (n, None) →
  ∃ sg ds, s = sign_string sg +:+ numeral ds ∧ digits ds ∧ ds ≠ [].
Proof.
  unfold Atoi. destruct (_ && _) eqn:Hpath.
  - unfold Atoi_fast. destruct s as [|c s]; [done|].
    destruct (bool_decide (c = "-"%char)) eqn:Hm.
    + apply bool_decide_eq_true in Hm as ->. cbn [orb andb].
      destruct (String.length s <? 1)%nat eqn:Hlen; [done|].
      apply Nat.ltb_ge in Hlen.
      destruct (Atoi_fast_loop _ s 0) as [m [e|]] eqn:Hloop; [done|].
      intros _.
      destruct (all_digits_numeral s) as (ds & -> & Hds & Hl).
      { by eapply Atoi_fast_loop_None. }
      exists minus, ds. split_and!; [done..|]. intros ->. simpl in *. lia.
    + destruct (bool_decide (c = "+"%char)) eqn:Hp.
      * apply bool_decide_eq_true in Hp as ->. cbn [orb andb].
        destruct (String.length s <? 1)%nat eqn:Hlen; [done|].
        apply Nat.ltb_ge in Hlen.
        destruct (Atoi_fast_loop _ s 0) as [m [e|]] eqn:Hloop; [done|].
        intros _.
        destruct (all_digits_numeral s) as (ds & -> & Hds & Hl).
        { by eapply Atoi_fast_loop_None. }
        exists plus, ds. split_and!; [done..|]. intros ->. simpl in *. lia.
      * cbn [orb andb].
        destruct (Atoi_fast_loop _ (String c s) 0) as [m [e|]] eqn:Hloop;
          [done|].
        intros _.
        destruct (all_digits_numeral (String c s)) as (ds & Heq & Hds & Hl).
        { by eapply Atoi_fast_loop_None. }
        exists no_sign, ds. split_and!; [done..|]. intros ->. done.
  - destruct (ParseInt s) as [i64 [e|]] eqn:HPI; [by destruct e|].
    intros _. unfold ParseInt in HPI. destruct s as [|c s]; [done|].
    cbv zeta in HPI.
    destruct (ParseUint _) as [un e] eqn:HPU.
    assert (e = None) as ->.
    { destruct e as [e|]; [|done].
      destruct (ParseUint_error _ _ _ HPU) as [->|[-> ->]]; [done|].
      cbn in HPI. unfold maxUint64 in HPI.
      destruct (bool_decide (c = "-"%char)); by cbn in HPI. }
    clear HPI.
    destruct (bool_decide (c = "-"%char)) eqn:Hm.
    + apply bool_decide_eq_true in Hm as ->. rewrite orb_true_r in HPU.
      unfold ParseUint in HPU. destruct s as [|c s]; [done|].
      destruct (all_digits_numeral (String c s)) as (ds & Heq & Hds & Hl).
      { by eapply ParseUint_loop_None. }
      exists minus, ds. rewrite <- Heq. split_and!; [done..|]. by intros ->. 
    + destruct (bool_decide (c = "+"%char)) eqn:Hp.
      * apply bool_decide_eq_true in Hp as ->. cbn [orb] in HPU.
        unfold ParseUint in HPU. destruct s as [|c s]; [done|].
        destruct (all_digits_numeral (String c s)) as (ds & Heq & Hds & Hl).
        { by eapply ParseUint_loop_None. }
        exists plus, ds. rewrite <- Heq. split_and!; [done..|]. by intros ->. 
      * cbn [orb] in HPU. unfold ParseUint in HPU.
        destruct (all_digits_numeral (String c s)) as (ds & Heq & Hds & Hl).
        { by eapply ParseUint_loop_None. }
        exists no_sign, ds. rewrite <- Heq. split_and!; [done..|]. by intros ->. 
Qed.


Lemma append_empty_r (s : string) : s +:+ "" = s.
Proof.
  induction s as [|c s IH]; [done|].
  change (String c s +:+ "") with (String c (s +:+ "")). by rewrite IH.
Qed.

(** [Split] cuts at every separator. *)
Lemma Split_not_nil s sep : Split s sep ≠ [].
Proof. destruct s; simpl; repeat case_match; done. Qed.

Lemma Split_free s sep : has_byte sep s = false → Split s sep = [s].
Proof.
  induction s as [|c s IH]; [done|]. simpl. intros Hs.
  apply orb_false_iff in Hs as [Hc Hs]. rewrite Hc, IH by done. done.
Qed.

Lemma Split_piece a sep r :
  has_byte sep a = false →
  Split (a +:+ String sep r) sep = a :: Split r sep.
Proof.
  induction a as [|c a IH]; intros Ha.
  { simpl. by rewrite bool_decide_eq_true_2. }
  simpl in Ha. apply orb_false_iff in Ha as [Hc Ha].
  change (String c a +:+ String sep r) with (String c (a +:+ String sep r)).
  simpl. rewrite Hc, IH by done. done.
Qed.

(** Every string is its first piece, or its first piece, a separator and
    the rest. *)
Lemma Split_first s sep :
  ∃ a, has_byte sep a = false ∧
       ((s = a ∧ Split s sep = [a]) ∨
        (∃ r, s = a +:+ String sep r ∧ Split s sep = a :: Split r sep)).
Proof.
  induction s as [|c s (a & Ha & IH)].
  { exists EmptyString. split; [done|]. by left. }
  destruct (bool_decide (c = sep)) eqn:Hc.
  - exists EmptyString. split; [done|]. right. exists s.
    apply bool_decide_eq_true in Hc as ->. simpl.
    by rewrite bool_decide_eq_true_2.
  - exists (String c a). split; [simpl; by rewrite Hc|].
    destruct IH as [[-> Hsplit]|(r & -> & Hsplit)].
    + left. split; [done|]. simpl in *. by rewrite Hc, Hsplit.
    + right. exists r. split; [done|].
      change (String c a +:+ String sep r) with (String c (a +:+ String sep r)).
      simpl. by rewrite Hc, Hsplit.
Qed.

(** A path as [extractIDFromPath] takes it apart: two pieces, the piece
    [s] that is read, and what follows it, which is nothing or begins
    with a slash. *)
Lemma extractIDFromPath_pieces a b s :
  has_byte "/" a = false → has_byte "/" b = false → has_byte "/" s = false →
  extractIDFromPath a = (0, Some (Plain ErrSyntax)) ∧
  extractIDFromPath (a +:+ "/" +:+ b) = (0, Some (Plain ErrSyntax)) ∧
  extractIDFromPath (a +:+ "/" +:+ b +:+ "/" +:+ s) = Atoi s ∧
  ∀ rest, extractIDFromPath (a +:+ "/" +:+ b +:+ "/" +:+ s +:+ "/" +:+ rest)
          = Atoi s.
Proof.
  intros Ha Hb Hs. unfold extractIDFromPath.
  assert (∀ x, "/" +:+ x = String "/"%char x) as Hsl by done.
  rewrite !Hsl, !Split_piece, !Split_free by done.
  split_and!; [done..|].
  intros rest. rewrite !Hsl, !Split_piece by done.
  destruct (Split rest _); done.
Qed.

(** A path from which [extractIDFromPath] reads an identifier has a third
    piece, and that piece is read by [Atoi]. *)
Lemma extractIDFromPath_None path id :
  extractIDFromPath path = (id, None) →
  ∃ a b s tail,
    has_byte "/" a = false ∧ has_byte "/" b = false ∧
    has_byte "/" s = false ∧
    path = a +:+ "/" +:+ b +:+ "/" +:+ s +:+ tail ∧
    (tail = "" ∨ ∃ rest, tail = "/" +:+ rest) ∧
    Atoi s = (id, None).
Proof.
  unfold extractIDFromPath.
  assert (∀ x, "/" +:+ x = String "/"%char x) as Hsl by done.
  destruct (Split_first path "/") as (a & Ha & [[-> ->]|(r1 & -> & ->)]);
    [done|].
  destruct (Split_first r1 "/") as (b & Hb & [[-> ->]|(r2 & -> & ->)]);
    [done|].
  destruct (Split_first r2 "/") as (s & Hs & [[-> ->]|(r3 & -> & ->)]).
  - simpl. intros HA. exists a, b, s, "". split_and!; try done.
    + by rewrite append_empty_r.
    + by left.
  - simpl. intros HA. exists a, b, s, ("/" +:+ r3). split_and!; try done.
    right. by exists r3.
Qed.


Lemma numeral_no_slash ds : digits ds → has_byte "/" (numeral ds) = false.
Proof.
  induction 1 as [|d ds Hd Hds IH]; [done|]. simpl.
  destruct (digit_char_spec d Hd) as (_ & _ & _ & _ & Hsl).
  by rewrite (bool_decide_eq_false_2 _ Hsl), IH.
Qed.

Lemma signed_no_slash sg ds :
  digits ds → has_byte "/" (sign_string sg +:+ numeral ds) = false.
Proof.
  intros Hds. pose proof (numeral_no_slash ds Hds).
  destruct sg; unfold sign_string, String.app; fold String.app; simpl; done.
Qed.

(** X7. [extractIDFromPath] returns an identifier exactly for the paths
    whose third piece, counted between slashes, is a decimal numeral with
    an optional sign and a value in the range of [int]; the identifier is
    that value.  The first two pieces and whatever follows the third one
    are not looked at, and leading zeros and a sign are accepted. *)
Theorem extractIDFromPath_reads_signed_numeral path id :
  extractIDFromPath path = (id, None) ↔
  ∃ a b sg ds tail,
    has_byte "/" a = false ∧ has_byte "/" b = false ∧
    digits ds ∧ ds ≠ [] ∧
    path = a +:+ "/" +:+ b +:+ "/" +:+ (sign_string sg +:+ numeral ds) +:+ tail ∧
    (tail = "" ∨ ∃ rest, tail = "/" +:+ rest) ∧
    id = signed_value sg ds ∧ MinInt ≤ id ≤ MaxInt.
Proof.
  split.
  - intros Hpath.
    destruct (extractIDFromPath_None path id Hpath)
      as (a & b & s & tail & Ha & Hb & Hs & -> & Htail & HA).
    destruct (Atoi_None s id HA) as (sg & ds & -> & Hds & Hne).
    exists a, b, sg, ds, tail. split_and!; try done.
    all: rewrite Atoi_signed in HA by done.
    all: pose proof (value_nonneg ds Hds).
    all: unfold MinInt, MaxInt, signed_value in *.
    all: destruct sg; case_match; simplify_eq; try done.
    all: match goal with H : (_ <=? _) = true |- _ => apply Z.leb_le in H end.
    all: lia.
  - intros (a & b & sg & ds & tail & Ha & Hb & Hds & Hne & -> & Htail & -> & Hr).
    pose proof (signed_no_slash sg ds Hds) as Hs.
    destruct (extractIDFromPath_pieces a b _ Ha Hb Hs) as (_ & _ & H3 & H4).
    assert (Atoi (sign_string sg +:+ numeral ds)
            = (signed_value sg ds, None)) as HA.
    { rewrite Atoi_signed by done.
      pose proof (value_nonneg ds Hds).
      unfold MinInt, MaxInt, signed_value in *.
      destruct sg; by rewrite (proj2 (Z.leb_le _ _)) by lia. }
    destruct Htail as [->|[rest ->]].
    + by rewrite append_empty_r, H3.
    + by rewrite H4.
Qed.

End numerals_and_paths.

(** ** The handlers of the user routes *)

Section handler_facts.

Import GoInt database calls api handlers.

Lemma bind_Return {A B} (m : M A) (k : A → M B) σ a σ' :
  m σ = Return a σ' → (m ≫= k) σ = k a σ'.
Proof. intros H. unfold mbind, M_bind. by rewrite H. Qed.

Lemma encode_User_eq σ user u :
  object_at σ user = Some u → encode_User user σ = Return (User_object u) σ.
Proof.
  destruct user as [l|]; [|done]. simpl. intros Hl.
  unfold encode_User, load_User, mbind, M_bind. by rewrite Hl.
Qed.

Lemma encode_Users_eq σ us objs :
  Forall2 (λ p u, object_at σ p = Some u) us objs →
  encode_Users us σ = Return (User_object <$> objs) σ.
Proof.
  induction 1 as [|p u us objs Hp _ IH]; [done|].
  cbn [encode_Users].
  erewrite bind_Return by by apply encode_User_eq.
  erewrite bind_Return by done. done.
Qed.

(** The objects behind the stored pointers, in the order of the map. *)
Lemma stored_objects σ :
  stored_valid σ →
  ∃ objs, Forall2 (λ kp u, object_at σ kp.2 = Some u)
            (map_to_list (users (repo σ))) objs.
Proof.
  intros Hvalid.
  assert (Forall (λ kp, ∃ u, object_at σ kp.2 = Some u)
            (map_to_list (users (repo σ)))) as Hall.
  { apply Forall_forall. intros [k p] Hkp.
    apply elem_of_map_to_list in Hkp.
    destruct (Hvalid k p Hkp) as (l & u & -> & Hl). by exists u. }
  induction Hall as [|kp kps [u Hu] _ [objs IH]].
  - exists []. constructor.
  - exists (u :: objs). by constructor.
Qed.

Lemma listUsers_eq σ :
  idle σ → stored_valid σ →
  ∃ objs,
    listUsers σ = Return (respondJSON StatusOK (array (User_object <$> objs))) σ ∧
    Forall2 (λ kp u, object_at σ kp.2 = Some u)
      (map_to_list (users (repo σ))) objs.
Proof.
  intros Hidle Hvalid. destruct (stored_objects σ Hvalid) as [objs Hobjs].
  exists objs. split; [|done]. unfold listUsers.
  erewrite bind_Return by by apply ListUsers_eq.
  cbn [fst snd].
  erewrite bind_Return; [done|].
  apply encode_Users_eq. unfold range_values.
  by apply Forall2_fmap_l.
Qed.

Lemma getUser_bad_path σ path id e :
  extractIDFromPath path = (id, Some e) →
  getUser path σ = Return (respondError StatusBadRequest "Invalid user ID") σ.
Proof. intros Hpath. unfold getUser. by rewrite Hpath. Qed.

Lemma getUser_eq σ path id :
  idle σ → stored_valid σ → extractIDFromPath path = (id, None) →
  getUser path σ =
    Return (match contents σ !! id with
            | Some u => respondJSON StatusOK (one (User_object u))
            | None => respondError StatusNotFound "User not found"
            end) σ.
Proof.
  intros Hidle Hvalid Hpath. unfold getUser. rewrite Hpath.
  erewrite bind_Return by by apply GetUser_eq.
  unfold contents. rewrite lookup_omap.
  destruct (users (repo σ) !! id) as [p|] eqn:Hid; [|done].
  destruct (Hvalid id p Hid) as (l & u & -> & Hl). cbn [fst snd option_bind mbind].
  erewrite bind_Return by by apply encode_User_eq.
  simpl. by rewrite Hl.
Qed.

(** An object at a new address leaves what the map holds as it is. *)
Lemma fresh_not_stored σ k p :
  stored_valid σ → users (repo σ) !! k = Some p →
  p ≠ Some (fresh (dom (heap σ))).
Proof.
  intros Hvalid Hk ->. destruct (Hvalid _ _ Hk) as (l & u & [= <-] & Hl).
  apply (is_fresh (dom (heap σ))). apply elem_of_dom. by exists u.
Qed.

Lemma omap_object_at_ext σ σ' (m : gmap Z ptr) :
  (∀ k p, m !! k = Some p → object_at σ' p = object_at σ p) →
  omap (object_at σ') m = omap (object_at σ) m.
Proof.
  intros Hext. apply map_eq. intros k. rewrite !lookup_omap.
  destruct (m !! k) as [p|] eqn:Hk; [|done]. simpl. by eapply Hext.
Qed.

Lemma createUser_eq σ b :
  idle σ → stored_valid σ →
  ∃ σ',
    createUser (Some b) σ =
      Return (respondJSON StatusCreated
                (one (User_object (set_ID b (nextID (repo σ)))))) σ' ∧
    idle σ' ∧ stored_valid σ' ∧ (keyed_by_ID σ → keyed_by_ID σ') ∧
    contents σ' = <[nextID (repo σ) := set_ID b (nextID (repo σ))]> (contents σ) ∧
    nextID (repo σ') = incr (nextID (repo σ)).
Proof.
  intros Hidle Hvalid.
  set (l := fresh (dom (heap σ))). set (n := nextID (repo σ)).
  set (σ1 := {| heap := <[l := b]> (heap σ); repo := repo σ |}).
  assert (new_User b σ = Return (Some l) σ1) as Hnew by done.
  assert (idle σ1) as Hidle1 by done.
  assert (heap σ1 !! l = Some b) as Hl1 by apply lookup_insert_eq.
  pose proof (CreateUser_Some σ1 l b Hidle1 Hl1) as Hcreate.
  match type of Hcreate with _ = Return _ ?w => set (σ2 := w) in * end.
  assert (heap σ2 !! l = Some (set_ID b n)) as Hl2 by apply lookup_insert_eq.
  assert (∀ k p, users (repo σ) !! k = Some p →
            object_at σ2 p = object_at σ p) as Hsame.
  { intros k p Hk. pose proof (fresh_not_stored σ k p Hvalid Hk) as Hne.
    destruct p as [l'|]; [|done]. simpl.
    assert (l ≠ l') as Hll by (by intros <-).
    by rewrite !lookup_insert_ne by done. }
  exists σ2. split_and!.
  - unfold createUser. erewrite bind_Return by done.
    erewrite bind_Return by done.
    unfold load_User, mbind, M_bind. by rewrite Hl2.
  - done.
  - intros k p. simpl. intros Hk.
    destruct (decide (k = n)) as [->|Hkn].
    + rewrite lookup_insert_eq in Hk. simplify_eq. by exists l, (set_ID b n).
    + rewrite lookup_insert_ne in Hk by done.
      destruct (Hvalid k p Hk) as (l' & u & -> & Hl').
      exists l', u. split; [done|].
      specialize (Hsame k _ Hk). simpl in Hsame. by rewrite Hsame.
  - intros Hkeyed k p. simpl. intros Hk.
    destruct (decide (k = n)) as [->|Hkn].
    + rewrite lookup_insert_eq in Hk. simplify_eq. by exists l, (set_ID b n).
    + rewrite lookup_insert_ne in Hk by done.
      destruct (Hkeyed k p Hk) as (l' & u & -> & Hl' & Hid).
      exists l', u. split; [done|].
      specialize (Hsame k _ Hk). simpl in Hsame. by rewrite Hsame.
  - unfold contents. simpl.
    erewrite omap_insert_Some by (simpl; apply Hl2).
    f_equal. by apply omap_object_at_ext.
  - done.
Qed.

Lemma createUser_bad_body σ :
  createUser None σ
    = Return (respondError StatusBadRequest "Invalid request body") σ.
Proof. done. Qed.

Lemma contents_is_Some σ id :
  stored_valid σ →
  (contents σ !! id = None ↔ users (repo σ) !! id = None).
Proof.
  intros Hvalid. unfold contents. rewrite lookup_omap.
  destruct (users (repo σ) !! id) as [p|] eqn:Hid; [|done].
  destruct (Hvalid id p Hid) as (l & u & -> & Hl). simpl. by rewrite Hl.
Qed.

Lemma updateUser_bad_path σ path id e body :
  extractIDFromPath path = (id, Some e) →
  updateUser path body σ
    = Return (respondError StatusBadRequest "Invalid user ID") σ.
Proof. intros Hpath. unfold updateUser. by rewrite Hpath. Qed.

Lemma updateUser_bad_body σ path id :
  extractIDFromPath path = (id, None) →
  updateUser path None σ
    = Return (respondError StatusBadRequest "Invalid request body") σ.
Proof. intros Hpath. unfold updateUser. by rewrite Hpath. Qed.

Lemma updateUser_eq σ path id b :
  idle σ → stored_valid σ → extractIDFromPath path = (id, None) →
  ∃ σ',
    updateUser path (Some b) σ =
      Return (match contents σ !! id with
              | Some _ => respondJSON StatusOK (one (User_object (set_ID b id)))
              | None => respondError StatusNotFound "User not found"
              end) σ' ∧
    idle σ' ∧ stored_valid σ' ∧ (keyed_by_ID σ → keyed_by_ID σ') ∧
    contents σ' = match contents σ !! id with
                  | Some _ => <[id := set_ID b id]> (contents σ)
                  | None => contents σ
                  end ∧
    nextID (repo σ') = nextID (repo σ) ∧
    (contents σ !! id = None → repo σ' = repo σ).
Proof.
  intros Hidle Hvalid Hpath.
  set (l := fresh (dom (heap σ))).
  set (σ1 := {| heap := <[l := b]> (heap σ); repo := repo σ |}).
  set (σ2 := {| heap := <[l := set_ID b id]> (heap σ1); repo := repo σ |}).
  assert (new_User b σ = Return (Some l) σ1) as Hnew by done.
  assert (store_ID (Some l) id σ1 = Return () σ2) as Hstore.
  { unfold store_ID. simpl. by rewrite lookup_insert_eq. }
  assert (idle σ2) as Hidle2 by done.
  assert (heap σ2 !! l = Some (set_ID b id)) as Hl2 by apply lookup_insert_eq.
  pose proof (UpdateUser_Some σ2 l _ Hidle2 Hl2) as Hupdate.
  assert (∀ k p, users (repo σ) !! k = Some p →
            object_at σ2 p = object_at σ p) as Hsame.
  { intros k p Hk. pose proof (fresh_not_stored σ k p Hvalid Hk) as Hne.
    destruct p as [l'|]; [|done]. unfold σ2, σ1. simpl.
    assert (l ≠ l') as Hll by (by intros <-).
    etrans; [by apply lookup_insert_ne|]. by apply lookup_insert_ne. }
  assert (stored_valid σ2) as Hvalid2.
  { intros k p Hk. destruct (Hvalid k p Hk) as (l' & u & -> & Hl').
    exists l', u. split; [done|].
    rewrite <- Hl'. apply (Hsame k _ Hk). }
  assert (contents σ2 = contents σ) as Hcont2.
  { unfold contents. by apply omap_object_at_ext. }
  assert (updateUser path (Some b) σ =
          (UpdateUser (Some l) ≫= λ err,
             r ← match err with
                 | Some _ => mret (api.respondError StatusNotFound "User not found")
                 | None => u ← load_User (Some l); mret (api.respondJSON StatusOK u)
                 end; mret (of_response r)) σ2) as ->.
  { unfold updateUser. rewrite Hpath. unfold api.updateUser.
    unfold mbind, M_bind. rewrite Hnew, Hstore.
    destruct (UpdateUser (Some l) σ2) as [[?|] ?| |]; try done. }
  simpl ID in Hupdate.
  change (users (repo σ2)) with (users (repo σ)) in Hupdate.
  change (nextID (repo σ2)) with (nextID (repo σ)) in Hupdate.
  pose proof (contents_is_Some σ id Hvalid) as Hsome.
  destruct (users (repo σ) !! id) as [p|] eqn:Hid.
  - destruct (contents σ !! id) as [u|] eqn:Hcid;
      [|destruct Hsome as [Hs _]; by specialize (Hs eq_refl)].
    match type of Hupdate with _ = Return _ ?w => set (σ3 := w) in * end.
    exists σ3. split_and!.
    + erewrite bind_Return by done.
      unfold load_User, mbind, M_bind. simpl. by rewrite lookup_insert_eq.
    + done.
    + intros k q. simpl. intros Hk.
      destruct (decide (k = id)) as [->|Hkn].
      * rewrite lookup_insert_eq in Hk. simplify_eq.
        by exists l, (set_ID b id).
      * rewrite lookup_insert_ne in Hk by done. by apply (Hvalid2 k q).
    + intros Hkeyed k q. simpl. intros Hk.
      destruct (decide (k = id)) as [->|Hkn].
      * rewrite lookup_insert_eq in Hk. simplify_eq.
        by exists l, (set_ID b id).
      * rewrite lookup_insert_ne in Hk by done.
        destruct (Hkeyed k q Hk) as (l' & u' & -> & Hl' & Hid').
        exists l', u'. split; [done|]. split; [|done].
        rewrite <- Hl'. apply (Hsame k _ Hk).
    + unfold contents. simpl.
      erewrite omap_insert_Some by (simpl; apply Hl2).
      f_equal. by apply (omap_object_at_ext σ σ2).
    + done.
    + done.
  - destruct (contents σ !! id) as [u|] eqn:Hcid;
      [destruct Hsome as [_ Hs]; by specialize (Hs eq_refl)|].
    exists σ2. split_and!; try done.
    + by erewrite bind_Return by done.
    + intros Hkeyed k q Hk.
      destruct (Hkeyed k q Hk) as (l' & u' & -> & Hl' & Hid').
      exists l', u'. split; [done|]. split; [|done].
      rewrite <- Hl'. apply (Hsame k _ Hk).
Qed.

Lemma deleteUser_bad_path σ path id e :
  extractIDFromPath path = (id, Some e) →
  deleteUser path σ
    = Return (respondError StatusBadRequest "Invalid user ID") σ.
Proof. intros Hpath. unfold deleteUser. by rewrite Hpath. Qed.

Lemma deleteUser_eq σ path id :
  idle σ → stored_valid σ → extractIDFromPath path = (id, None) →
  ∃ σ',
    deleteUser path σ =
      Return (match contents σ !! id with
              | Some _ => WriteHeader StatusNoContent
              | None => respondError StatusNotFound "User not found"
              end) σ' ∧
    idle σ' ∧ stored_valid σ' ∧ (keyed_by_ID σ → keyed_by_ID σ') ∧
    contents σ' = delete id (contents σ) ∧
    nextID (repo σ') = nextID (repo σ) ∧ heap σ' = heap σ ∧
    (contents σ !! id = None → σ' = σ).
Proof.
  intros Hidle Hvalid Hpath.
  pose proof (DeleteUser_eq σ id Hidle) as Hdelete.
  pose proof (contents_is_Some σ id Hvalid) as Hsome.
  unfold deleteUser. rewrite Hpath.
  destruct (users (repo σ) !! id) as [p|] eqn:Hid.
  - destruct (contents σ !! id) as [u|] eqn:Hcid;
      [|destruct Hsome as [Hs _]; by specialize (Hs eq_refl)].
    match type of Hdelete with _ = Return _ ?w => set (σ3 := w) in * end.
    exists σ3. split_and!; try done.
    + by erewrite bind_Return by done.
    + intros k q. simpl. intros Hk.
      apply lookup_delete_Some in Hk as [_ Hk]. by apply (Hvalid k q).
    + intros Hkeyed k q. simpl. intros Hk.
      apply lookup_delete_Some in Hk as [_ Hk]. by apply (Hkeyed k q).
    + unfold contents. simpl. by rewrite omap_delete.
  - destruct (contents σ !! id) as [u|] eqn:Hcid;
      [destruct Hsome as [_ Hs]; by specialize (Hs eq_refl)|].
    exists σ. split_and!; try done.
    + by erewrite bind_Return by done.
    + by rewrite delete_id.
Qed.

End handler_facts.

(** ** Requests served one after the other *)

Section served_requests.

#[local] Set Warnings "-clear-no-such-hyp".

Import GoInt database calls api handlers.

(** What each request does to a world whose lock is free. *)
Lemma serve_step r σ :
  idle σ → stored_valid σ →
  ∃ rep σ',
    serve r σ = Return rep σ' ∧
    idle σ' ∧ stored_valid σ' ∧ (keyed_by_ID σ → keyed_by_ID σ') ∧
    expected rep ∧
    (status rep = StatusBadRequest → σ' = σ) ∧
    (status rep = StatusNotFound →
     repo σ' = repo σ ∧ contents σ' = contents σ) ∧
    (is_GET r → σ' = σ).
Proof.
  intros Hidle Hvalid. unfold expected.
  destruct r as [|path|[b|]|path [b|]|path]; cbn [serve is_GET].
  - destruct (listUsers_eq σ Hidle Hvalid) as (objs & -> & _).
    eexists _, σ. split_and!; try done. set_solver.
  - destruct (extractIDFromPath path) as [id [e|]] eqn:Hpath.
    + erewrite getUser_bad_path by done.
      eexists _, σ. split_and!; try done. set_solver.
    + erewrite getUser_eq by done.
      eexists _, σ. split_and!; try done.
      destruct (contents σ !! id); set_solver.
  - destruct (createUser_eq σ b Hidle Hvalid)
      as (σ' & -> & Hidle' & Hvalid' & Hkeyed' & _).
    eexists _, σ'. split_and!; try done. set_solver.
  - rewrite createUser_bad_body.
    eexists _, σ. split_and!; try done. set_solver.
  - destruct (extractIDFromPath path) as [id [e|]] eqn:Hpath.
    + erewrite updateUser_bad_path by done.
      eexists _, σ. split_and!; try done. set_solver.
    + destruct (updateUser_eq σ path id b Hidle Hvalid Hpath)
        as (σ' & -> & Hidle' & Hvalid' & Hkeyed' & Hcont & _ & Hrepo).
      eexists _, σ'. split_and!; try done.
      * destruct (contents σ !! id); set_solver.
      * by destruct (contents σ !! id).
      * destruct (contents σ !! id); [done|]. intros _. by split; [apply Hrepo|].
  - destruct (extractIDFromPath path) as [id [e|]] eqn:Hpath.
    + erewrite updateUser_bad_path by done.
      eexists _, σ. split_and!; try done. set_solver.
    + erewrite updateUser_bad_body by done.
      eexists _, σ. split_and!; try done. set_solver.
  - destruct (extractIDFromPath path) as [id [e|]] eqn:Hpath.
    + erewrite deleteUser_bad_path by done.
      eexists _, σ. split_and!; try done. set_solver.
    + destruct (deleteUser_eq σ path id Hidle Hvalid Hpath)
        as (σ' & -> & Hidle' & Hvalid' & Hkeyed' & Hcont & _ & _ & Hsame).
      eexists _, σ'. split_and!; try done.
      * destruct (contents σ !! id); set_solver.
      * by destruct (contents σ !! id).
      * destruct (contents σ !! id); [done|]. intros _. by rewrite Hsame.
Qed.

Lemma serve_all_steps rs σ :
  idle σ → stored_valid σ →
  ∃ reps σ',
    serve_all rs σ = Return reps σ' ∧
    idle σ' ∧ stored_valid σ' ∧ (keyed_by_ID σ → keyed_by_ID σ') ∧
    length reps = length rs ∧ Forall expected reps.
Proof.
  revert σ. induction rs as [|r rs IH]; intros σ Hidle Hvalid.
  { exists [], σ. split_and!; try done. }
  destruct (serve_step r σ Hidle Hvalid)
    as (rep & σ1 & Hr & Hidle1 & Hvalid1 & Hkeyed1 & Hexp & _).
  destruct (IH σ1 Hidle1 Hvalid1)
    as (reps & σ' & Hrs & Hidle' & Hvalid' & Hkeyed' & Hlen & Hall).
  exists (rep :: reps), σ'. split_and!; try done.
  - cbn [serve_all]. erewrite bind_Return by done.
    by erewrite bind_Return by done.
  - auto.
  - simpl. by rewrite Hlen.
  - by constructor.
Qed.

Lemma reachable_served σ :
  reachable σ → idle σ ∧ stored_valid σ ∧ keyed_by_ID σ.
Proof.
  intros (σ0 & rs & reps & Hfresh & Hrs).
  destruct (serve_all_steps rs σ0)
    as (reps' & σ' & Hrs' & Hidle' & Hvalid' & Hkeyed' & _).
  { by apply fresh_repo_idle. }
  { by apply fresh_repo_stored_valid. }
  rewrite Hrs in Hrs'. simplify_eq. split_and!; [done..|].
  apply Hkeyed'. by apply fresh_repo_keyed.
Qed.

(** X8. Served one after the other from a new repository, the handlers
    answer every request: none panics or waits for the lock, the status
    is 200, 201, 204, 400 or 404 and never 500, the lock is free again,
    and every stored record is kept under its own [ID]. *)
Theorem handlers_always_answer rs σ0 :
  fresh_repo σ0 →
  ∃ replies σ,
    serve_all rs σ0 = Return replies σ ∧
    length replies = length rs ∧ Forall expected replies ∧
    idle σ ∧ keyed_by_ID σ.
Proof.
  intros Hfresh.
  destruct (serve_all_steps rs σ0)
    as (reps & σ & Hrs & Hidle & Hvalid & Hkeyed & Hlen & Hall).
  { by apply fresh_repo_idle. }
  { by apply fresh_repo_stored_valid. }
  exists reps, σ. split_and!; try done.
  apply Hkeyed. by apply fresh_repo_keyed.
Qed.

Lemma handlers_always_answer_witness :
  ∃ replies σ,
    serve_all [To_createUser (Some examples.alice); To_getUser "/users/1";
               To_deleteUser "/users/x"] examples.two_users
      = Return replies σ ∧
    length replies = 3%nat ∧ Forall expected replies ∧
    idle σ ∧ keyed_by_ID σ.
Proof.
  apply (handlers_always_answer
           [To_createUser (Some examples.alice); To_getUser "/users/1";
            To_deleteUser "/users/x"] examples.two_users).
  reflexivity.
Defined.


(** X9. A request that is answered with 400 changes nothing at all; one
    that is answered with 404 leaves the repository, and so what it
    holds, as it was; a GET changes nothing whatever it answers. *)
Theorem refused_requests_change_nothing r σ :
  reachable σ →
  ∃ rep σ',
    serve r σ = Return rep σ' ∧
    (status rep = StatusBadRequest → σ' = σ) ∧
    (status rep = StatusNotFound →
     repo σ' = repo σ ∧ contents σ' = contents σ) ∧
    (is_GET r → σ' = σ).
Proof.
  intros (Hidle & Hvalid & _)%reachable_served.
  destruct (serve_step r σ Hidle Hvalid)
    as (rep & σ' & Hr & _ & _ & _ & _ & H400 & H404 & HGET).
  by exists rep, σ'.
Qed.

Lemma refused_requests_change_nothing_witness :
  ∃ rep σ',
    serve (To_deleteUser "/users/7") examples.two_users = Return rep σ' ∧
    (status rep = StatusBadRequest → σ' = examples.two_users) ∧
    (status rep = StatusNotFound →
     repo σ' = repo examples.two_users ∧
     contents σ' = contents examples.two_users) ∧
    (is_GET (To_deleteUser "/users/7") → σ' = examples.two_users).
Proof.
  apply (refused_requests_change_nothing
           (To_deleteUser "/users/7") examples.two_users).
  exists examples.two_users, [], []. split; reflexivity.
Defined.


(** The objects of a listing carry the keys of the map. *)
Lemma listed_objects σ objs :
  keyed_by_ID σ →
  Forall2 (λ kp u, object_at σ kp.2 = Some u)
    (map_to_list (users (repo σ))) objs →
  NoDup (ID <$> objs) ∧ ∀ u, u ∈ objs ↔ contents σ !! ID u = Some u.
Proof.
  intros Hkeyed Hobjs.
  assert (Forall2 (λ kp u, users (repo σ) !! kp.1 = Some kp.2 ∧
                           object_at σ kp.2 = Some u ∧ ID u = kp.1)
            (map_to_list (users (repo σ))) objs) as Hall.
  { apply Forall2_same_length_lookup. split; [by eapply Forall2_length|].
    intros i [k p] u Hi Hu.
    pose proof (Forall2_lookup_lr _ _ _ _ _ _ Hobjs Hi Hu) as Hp.
    apply list_elem_of_lookup_2, elem_of_map_to_list in Hi.
    simpl in *. split_and!; [done..|].
    destruct (Hkeyed k p Hi) as (l & u' & -> & Hl & Hid).
    simpl in Hp. congruence. }
  assert (ID <$> objs = (map_to_list (users (repo σ))).*1) as Hids.
  { clear Hobjs. induction Hall as [|kp u kps objs (_ & _ & Hid) _ IH]; [done|].
    rewrite !fmap_cons. by rewrite Hid, IH. }
  split.
  - rewrite Hids. apply NoDup_fst_map_to_list.
  - intros u. unfold contents. rewrite lookup_omap. split.
    + intros Hu. apply list_elem_of_lookup in Hu as [i Hi].
      destruct (Forall2_lookup_r _ _ _ _ _ Hall Hi)
        as ([k p] & _ & Hk & Hp & Hid).
      simpl in *. subst k. by rewrite Hk.
    + intros Hu.
      destruct (users (repo σ) !! ID u) as [p|] eqn:Hk; [|done].
      simpl in Hu. apply elem_of_map_to_list in Hk.
      apply list_elem_of_lookup in Hk as [i Hi].
      destruct (Forall2_lookup_l _ _ _ _ _ Hall Hi) as (u' & Hu' & _ & Hp & _).
      simpl in Hp. apply list_elem_of_lookup. exists i. congruence.
Qed.

(** X10. In every world that serving requests leads to, [listUsers] answers
    200 with records whose identifiers are pairwise different, and
    [getUser] agrees with the listing: on a path that reads as the
    identifier of a listed record it answers 200 with that record, and on
    a path that reads as any other identifier it answers 404. *)
Theorem listing_agrees_with_getUser σ :
  reachable σ →
  ∃ us,
    listUsers σ
      = Return (respondJSON StatusOK (array (User_object <$> us))) σ ∧
    NoDup (ID <$> us) ∧
    ∀ path id,
      extractIDFromPath path = (id, None) →
      (∀ u, u ∈ us → ID u = id →
            getUser path σ
              = Return (respondJSON StatusOK (one (User_object u))) σ) ∧
      (id ∉ ID <$> us →
       getUser path σ
         = Return (respondError StatusNotFound "User not found") σ).
Proof.
  intros (Hidle & Hvalid & Hkeyed)%reachable_served.
  destruct (listUsers_eq σ Hidle Hvalid) as (us & Hlist & Hobjs).
  destruct (listed_objects σ us Hkeyed Hobjs) as [Hnodup Hin].
  exists us. split_and!; [done..|].
  intros path id Hpath. rewrite (getUser_eq σ path id) by done. split.
  - intros u Hu <-. apply Hin in Hu. by rewrite Hu.
  - intros Hid. destruct (contents σ !! id) as [u|] eqn:Hu; [|done].
    destruct Hid. apply list_elem_of_fmap. exists u.
    assert (ID u = id) as Hk.
    { unfold contents in Hu. rewrite lookup_omap in Hu.
      destruct (users (repo σ) !! id) as [p|] eqn:Hp; [|done].
      destruct (Hkeyed id p Hp) as (l & u' & -> & Hl & Hid').
      simpl in Hu. congruence. }
    split; [done|]. apply Hin. by rewrite Hk.
Qed.

Lemma listing_agrees_with_getUser_witness :
  ∃ us,
    listUsers examples.two_users
      = Return (respondJSON StatusOK (array (User_object <$> us)))
          examples.two_users ∧
    NoDup (ID <$> us) ∧
    ∀ path id,
      extractIDFromPath path = (id, None) →
      (∀ u, u ∈ us → ID u = id →
            getUser path examples.two_users
              = Return (respondJSON StatusOK (one (User_object u)))
                  examples.two_users) ∧
      (id ∉ ID <$> us →
       getUser path examples.two_users
         = Return (respondError StatusNotFound "User not found")
             examples.two_users).
Proof.
  apply (listing_agrees_with_getUser examples.two_users).
  exists examples.two_users, [], []. split; reflexivity.
Defined.


Lemma serve_all_app rs1 rs2 σ reps1 σ1 :
  serve_all rs1 σ = Return reps1 σ1 →
  serve_all (rs1 ++ rs2) σ
    = (reps ← serve_all rs2; mret (reps1 ++ reps)) σ1.
Proof.
  revert σ reps1. induction rs1 as [|r rs1 IH]; intros σ reps1 Hrs1.
  { injection Hrs1 as <- <-. simpl. unfold mbind, M_bind.
    by destruct (serve_all rs2 σ). }
  cbn [serve_all app] in *. unfold mbind, M_bind in Hrs1 |- *.
  destruct (serve r σ) as [rep σ'| |]; [|done..].
  fold (@mbind M _ _ _ (λ ps, mret (rep :: ps)) (serve_all rs1)) in Hrs1.
  unfold mbind, M_bind in Hrs1.
  destruct (serve_all rs1 σ') as [reps' σ''| |] eqn:Hrs1'; [|done..].
  injection Hrs1 as <- <-.
  specialize (IH σ' reps' Hrs1'). unfold mbind, M_bind in IH. rewrite IH.
  by destruct (serve_all rs2 σ'').
Qed.

Lemma reachable_serve r σ rep σ' :
  reachable σ → serve r σ = Return rep σ' → reachable σ'.
Proof.
  intros (σ0 & rs & reps & Hfresh & Hrs) Hr.
  exists σ0, (rs ++ [r]), (reps ++ [rep]). split; [done|].
  erewrite serve_all_app by done. cbn [serve_all].
  unfold mbind, M_bind. by rewrite Hr.
Qed.

(** X11. [createUser] on a body that decodes answers 201 with the decoded
    record under the identifier the repository assigned, whatever [ID] the
    body carried, and [getUser] on a path that reads as that identifier
    then answers 200 with the same record. *)
Theorem createUser_then_getUser σ b path :
  reachable σ →
  extractIDFromPath path = (nextID (repo σ), None) →
  ∃ σ',
    createUser (Some b) σ
      = Return (respondJSON StatusCreated
                  (one (User_object (set_ID b (nextID (repo σ)))))) σ' ∧
    getUser path σ'
      = Return (respondJSON StatusOK
                  (one (User_object (set_ID b (nextID (repo σ)))))) σ' ∧
    reachable σ'.
Proof.
  intros Hreach Hpath.
  destruct (reachable_served σ Hreach) as (Hidle & Hvalid & _).
  destruct (createUser_eq σ b Hidle Hvalid)
    as (σ' & Hcreate & Hidle' & Hvalid' & _ & Hcont & _).
  exists σ'. split_and!; [done| |].
  - rewrite (getUser_eq σ' path _ Hidle' Hvalid' Hpath).
    by rewrite Hcont, lookup_insert_eq.
  - by eapply (reachable_serve (To_createUser (Some b))).
Qed.

Lemma createUser_then_getUser_witness :
  ∃ σ',
    createUser (Some examples.bob) examples.two_users
      = Return (respondJSON StatusCreated
                  (one (User_object (set_ID examples.bob 1)))) σ' ∧
    getUser "/users/1" σ'
      = Return (respondJSON StatusOK
                  (one (User_object (set_ID examples.bob 1)))) σ' ∧
    reachable σ'.
Proof.
  apply (createUser_then_getUser examples.two_users examples.bob "/users/1").
  - exists examples.two_users, [], []. split; reflexivity.
  - reflexivity.
Defined.


(** X12. [deleteUser] on a path that reads as [id] answers 204 without a
    body when the repository holds a record under [id], and 404 otherwise;
    afterwards the repository holds what it held except under [id], and
    [getUser] and [deleteUser] on any path that reads as [id] answer
    404. *)
Theorem deleteUser_then_getUser σ path id :
  reachable σ →
  extractIDFromPath path = (id, None) →
  ∃ σ',
    deleteUser path σ
      = Return (if decide (is_Some (contents σ !! id))
                then WriteHeader StatusNoContent
                else respondError StatusNotFound "User not found") σ' ∧
    contents σ' = delete id (contents σ) ∧
    reachable σ' ∧
    ∀ path',
      extractIDFromPath path' = (id, None) →
      getUser path' σ'
        = Return (respondError StatusNotFound "User not found") σ' ∧
      deleteUser path' σ'
        = Return (respondError StatusNotFound "User not found") σ'.
Proof.
  intros Hreach Hpath.
  destruct (reachable_served σ Hreach) as (Hidle & Hvalid & _).
  destruct (deleteUser_eq σ path id Hidle Hvalid Hpath)
    as (σ' & Hdelete & Hidle' & Hvalid' & _ & Hcont & _).
  assert (contents σ' !! id = None) as Hgone.
  { rewrite Hcont. apply lookup_delete_eq. }
  exists σ'. split_and!; [|done| |].
  - rewrite Hdelete. destruct (contents σ !! id) as [u|] eqn:Hu.
    + by rewrite decide_True by done.
    + by rewrite decide_False by (by intros [? ?]).
  - by eapply (reachable_serve (To_deleteUser path)).
  - intros path' Hpath'. split.
    + rewrite (getUser_eq σ' path' id) by done. by rewrite Hgone.
    + destruct (deleteUser_eq σ' path' id Hidle' Hvalid' Hpath')
        as (σ'' & Hdelete' & _ & _ & _ & _ & _ & _ & Hsame).
      rewrite Hdelete', Hgone. by rewrite (Hsame Hgone).
Qed.

Lemma deleteUser_then_getUser_witness :
  ∃ σ',
    deleteUser "/users/1" examples.alice_posted
      = Return (WriteHeader StatusNoContent) σ' ∧
    getUser "/users/01" σ'
      = Return (respondError StatusNotFound "User not found") σ'.
Proof.
  destruct (deleteUser_then_getUser examples.alice_posted "/users/1" 1)
    as (σ' & Hdelete & _ & _ & Hafter).
  - exists examples.two_users, [To_createUser (Some examples.alice)],
      [respondJSON StatusCreated (one (User_object (set_ID examples.alice 1)))].
    split; [reflexivity|]. vm_compute. reflexivity.
  - reflexivity.
  - exists σ'. split.
    + rewrite Hdelete. apply f_equal2; [|reflexivity].
      apply decide_True. exists (set_ID examples.alice 1). reflexivity.
    + apply (Hafter "/users/01"). reflexivity.
Defined.


(** X13. [updateUser] on a path that reads as [id] and a body that decodes:
    when the repository holds a record under [id] it answers 200 with the
    decoded record under [id], whatever [ID] the body carried, that record
    replaces the old one as a whole, and every other record and the
    counter stay as they were; when it holds none it answers 404 and what
    the repository holds stays as it was.  [getUser] on any path that
    reads as [id] then answers the same. *)
Theorem updateUser_handler_then_getUser σ path id b :
  reachable σ →
  extractIDFromPath path = (id, None) →
  ∃ σ',
    updateUser path (Some b) σ
      = Return (if decide (is_Some (contents σ !! id))
                then respondJSON StatusOK (one (User_object (set_ID b id)))
                else respondError StatusNotFound "User not found") σ' ∧
    contents σ'
      = (if decide (is_Some (contents σ !! id))
         then <[id := set_ID b id]> (contents σ) else contents σ) ∧
    nextID (repo σ') = nextID (repo σ) ∧
    reachable σ' ∧
    ∀ path',
      extractIDFromPath path' = (id, None) →
      getUser path' σ'
        = Return (if decide (is_Some (contents σ !! id))
                  then respondJSON StatusOK (one (User_object (set_ID b id)))
                  else respondError StatusNotFound "User not found") σ'.
Proof.
  intros Hreach Hpath.
  destruct (reachable_served σ Hreach) as (Hidle & Hvalid & _).
  destruct (updateUser_eq σ path id b Hidle Hvalid Hpath)
    as (σ' & Hupdate & Hidle' & Hvalid' & _ & Hcont & Hnext & _).
  exists σ'.
  assert (reachable σ') as Hreach'
    by by eapply (reachable_serve (To_updateUser path (Some b))).
  destruct (contents σ !! id) as [u|] eqn:Hu.
  - rewrite decide_True by done. split_and!; [done..|].
    intros path' Hpath'. rewrite (getUser_eq σ' path' id) by done.
    by rewrite Hcont, lookup_insert_eq.
  - rewrite decide_False by (by intros [? ?]). split_and!; [done..|].
    intros path' Hpath'. rewrite (getUser_eq σ' path' id) by done.
    by rewrite Hcont, Hu.
Qed.

Lemma updateUser_handler_then_getUser_witness :
  ∃ σ',
    updateUser "/users/1" (Some examples.bob) examples.alice_posted
      = Return (respondJSON StatusOK
                  (one (User_object (set_ID examples.bob 1)))) σ' ∧
    getUser "/users/1" σ'
      = Return (respondJSON StatusOK
                  (one (User_object (set_ID examples.bob 1)))) σ'.
Proof.
  destruct (updateUser_handler_then_getUser examples.alice_posted "/users/1" 1
              examples.bob) as (σ' & Hupdate & _ & _ & _ & Hget).
  - exists examples.two_users, [To_createUser (Some examples.alice)],
      [respondJSON StatusCreated (one (User_object (set_ID examples.alice 1)))].
    split; [reflexivity|]. vm_compute. reflexivity.
  - reflexivity.
  - assert (is_Some (contents examples.alice_posted !! 1)) as Hsome.
    { exists (set_ID examples.alice 1). reflexivity. }
    exists σ'. split.
    + rewrite Hupdate. apply f_equal2; [|reflexivity]. by apply decide_True.
    + rewrite (Hget "/users/1" eq_refl).
      apply f_equal2; [|reflexivity]. by apply decide_True.
Defined.

(** What the map holds after a run of [createUser] requests. *)
Lemma createUser_run bs σ n0 :
  idle σ → stored_valid σ → nextID (repo σ) = n0 →
  MinInt ≤ n0 → n0 + Z.of_nat (length bs) ≤ MaxInt + 1 →
  ∃ σ',
    serve_all (To_createUser ∘ Some <$> bs) σ
      = Return (imap (λ i b, respondJSON StatusCreated
                       (one (User_object (set_ID b (n0 + Z.of_nat i))))) bs)
          σ' ∧
    idle σ' ∧ stored_valid σ' ∧
    ∀ k, contents σ' !! k
         = match (if decide (n0 ≤ k) then bs !! Z.to_nat (k - n0) else None)
           with
           | Some b => Some (set_ID b k)
           | None => contents σ !! k
           end.
Proof.
  revert σ n0. induction bs as [|b bs IH]; intros σ n0 Hidle Hvalid Hn0 Hmin Hmax.
  { exists σ. split_and!; [done..|]. intros k. by destruct (decide _). }
  destruct (createUser_eq σ b Hidle Hvalid)
    as (σ1 & Hcreate & Hidle1 & Hvalid1 & _ & Hcont1 & Hnext1).
  rewrite Hn0 in *.
  destruct (decide (bs = [])) as [->|Hbs].
  { exists σ1. split_and!; [|done..|].
    - cbn [fmap list_fmap serve_all compose imap].
      erewrite bind_Return by apply Hcreate.
      by rewrite Z.add_0_r.
    - intros k. rewrite Hcont1. destruct (decide (n0 ≤ k)) as [Hk|Hk].
      + destruct (decide (k = n0)) as [->|Hne].
        * by rewrite Z.sub_diag, lookup_insert_eq.
        * rewrite lookup_insert_ne by done.
          replace (Z.to_nat (k - n0)) with (S (Z.to_nat (k - n0 - 1))) by lia.
          done.
      + rewrite lookup_insert_ne by lia. done. }
  assert (n0 < MaxInt) as Hsmall.
  { rewrite length_cons in Hmax. destruct bs; [done|].
    rewrite length_cons in Hmax. lia. }
  rewrite incr_small in Hnext1 by lia.
  destruct (IH σ1 (n0 + 1) Hidle1 Hvalid1 Hnext1)
    as (σ' & Hrun & Hidle' & Hvalid' & Hcont').
  { lia. }
  { rewrite length_cons in Hmax. lia. }
  exists σ'. split_and!; [|done..|].
  - rewrite fmap_cons. cbn [serve_all compose].
    erewrite bind_Return by apply Hcreate.
    erewrite bind_Return by apply Hrun.
    rewrite (imap_cons _ b). rewrite Z.add_0_r.
    unfold mret, M_ret. f_equal. apply (f_equal2 cons); [done|].
    apply imap_ext. intros i b'' _. simpl. do 4 f_equal. lia.
  - intros k. rewrite Hcont', Hcont1.
    destruct (decide (n0 ≤ k)) as [Hk|Hk].
    + destruct (decide (k = n0)) as [->|Hne].
      * rewrite decide_False by lia. by rewrite Z.sub_diag, lookup_insert_eq.
      * rewrite decide_True by lia. rewrite lookup_insert_ne by done.
        replace (Z.to_nat (k - n0)) with (S (Z.to_nat (k - (n0 + 1)))) by lia.
        done.
    + rewrite decide_False by lia. rewrite lookup_insert_ne by lia. done.
Qed.

(** X14. After [n] [createUser] requests with decodable bodies on a new
    repository, [n] within the range of [int], the answers are 201 with
    the bodies numbered 1 to [n] in the order of the requests, and
    [listUsers] answers 200 with exactly these [n] records, in some
    order. *)
Theorem listUsers_after_createUser_requests bs σ0 :
  fresh_repo σ0 →
  Z.of_nat (length bs) ≤ MaxInt →
  ∃ σ us,
    serve_all (To_createUser ∘ Some <$> bs) σ0
      = Return (imap (λ i b, respondJSON StatusCreated
                       (one (User_object (set_ID b (Z.of_nat i + 1))))) bs)
          σ ∧
    listUsers σ
      = Return (respondJSON StatusOK (array (User_object <$> us))) σ ∧
    us ≡ₚ imap (λ i b, set_ID b (Z.of_nat i + 1)) bs.
Proof.
  intros Hfresh Hlen.
  pose proof (fresh_repo_idle σ0 Hfresh) as Hidle0.
  pose proof (fresh_repo_stored_valid σ0 Hfresh) as Hvalid0.
  destruct (createUser_run bs σ0 1 Hidle0 Hvalid0)
    as (σ & Hrun & Hidle & Hvalid & Hcont).
  { by rewrite Hfresh. }
  { unfold MinInt. lia. }
  { lia. }
  assert (reachable σ) as Hreach.
  { eexists σ0, (To_createUser ∘ Some <$> bs), _. split; [done|]. apply Hrun. }
  destruct (reachable_served σ Hreach) as (_ & _ & Hkeyed).
  destruct (listUsers_eq σ Hidle Hvalid) as (us & Hlist & Hobjs).
  destruct (listed_objects σ us Hkeyed Hobjs) as [Hnodup Hin].
  assert (contents σ0 = ∅) as Hempty.
  { unfold contents. rewrite Hfresh. simpl. apply omap_empty. }
  exists σ, us. split_and!; [|done|].
  - rewrite Hrun. f_equal. apply imap_ext. intros i b _. simpl.
    do 4 f_equal. lia.
  - apply NoDup_Permutation.
    + by eapply NoDup_fmap_1.
    + apply (NoDup_fmap_1 ID). rewrite fmap_imap.
      apply NoDup_alt. intros i j k Hi Hj.
      apply list_lookup_imap_Some in Hi as (b1 & Hb1 & ->).
      apply list_lookup_imap_Some in Hj as (b2 & Hb2 & Heq).
      simpl in Heq. lia.
    + intros u. rewrite Hin, Hcont, Hempty, lookup_empty.
      rewrite elem_of_lookup_imap. split.
      * destruct (decide (1 ≤ ID u)) as [Hk|Hk]; [|done].
        destruct (bs !! Z.to_nat (ID u - 1)) as [b|] eqn:Hb; [|done].
        intros [= Hu]. exists (Z.to_nat (ID u - 1)), b.
        split; [|done]. rewrite Z2Nat.id by lia.
        by replace (ID u - 1 + 1) with (ID u) by lia.
      * intros (i & b & -> & Hb). simpl.
        rewrite decide_True by lia.
        replace (Z.to_nat (Z.of_nat i + 1 - 1)) with i by lia.
        by rewrite Hb.
Qed.

Lemma listUsers_after_createUser_requests_witness :
  ∃ σ us,
    serve_all (To_createUser ∘ Some <$> [examples.alice; examples.bob])
        examples.two_users
      = Return (imap (λ i b, respondJSON StatusCreated
                       (one (User_object (set_ID b (Z.of_nat i + 1)))))
                  [examples.alice; examples.bob]) σ ∧
    listUsers σ
      = Return (respondJSON StatusOK (array (User_object <$> us))) σ ∧
    us ≡ₚ imap (λ i b, set_ID b (Z.of_nat i + 1))
            [examples.alice; examples.bob].
Proof.
  apply (listUsers_after_createUser_requests
           [examples.alice; examples.bob] examples.two_users).
  - reflexivity.
  - unfold MaxInt. simpl. lia.
Defined.


End served_requests.

(** ** Runs of goroutines that call [CreateUser] *)

Section runs.

Import GoInt database calls concurrent schedules examples.

Lemma sum_list_insert {A} (f : A → nat) (l : list A) i x y :
  l !! i = Some x →
  (sum_list (f <$> <[i := y]> l) + f x = sum_list (f <$> l) + f y)%nat.
Proof.
  revert i. induction l as [|z l IH]; intros [|i] Hi; simplify_eq/=.
  - lia.
  - specialize (IH i Hi). lia.
Qed.





(** No more assignments are made than there are calls. *)
Lemma goroutine_step_calls_left g σ g' σ' a :
  goroutine_step g σ = Some (g', σ', a) →
  (length a + calls_left g' ≤ calls_left g)%nat.
Proof.
  unfold goroutine_step, calls_left. destruct g as [[|user rest] p t]; [done|].
  simpl. intros Hstep.
  destruct p; repeat case_match; simplify_eq/=; try lia.
  all: unfold mbind, M_bind, get_nextID, store_ID in *.
  all: repeat case_match; simplify_eq/=; lia.
Qed.

Lemma sched_step_calls_left c c' :
  sched_step c c' →
  (length (assigned c') + sum_list (calls_left <$> goroutines c')
   ≤ length (assigned c) + sum_list (calls_left <$> goroutines c))%nat.
Proof.
  intros [i g g' σ' a c0 Hg Hstep]. simpl. rewrite length_app.
  pose proof (goroutine_step_calls_left _ _ _ _ _ Hstep).
  pose proof (sum_list_insert calls_left (goroutines c0) i g g' Hg). lia.
Qed.

Lemma assigned_calls calls σ0 c :
  rtc sched_step (start calls σ0) c →
  (length (assigned c) ≤ length (concat calls))%nat.
Proof.
  intros Hreach.
  assert (length (assigned c) + sum_list (calls_left <$> goroutines c)
          ≤ length (concat calls))%nat; [|lia].
  revert c Hreach. apply rtc_ind_r.
  - unfold start. simpl.
    assert (sum_list (calls_left <$> ((λ us, mkG us AtLock 0) <$> calls))
            = length (concat calls)) as ->; [|done].
    induction calls as [|us calls IH]; [done|].
    rewrite !fmap_cons. cbn [sum_list concat]. rewrite length_app, IH.
    unfold calls_left. simpl. destruct us; simpl; lia.
  - intros c c' _ Hstep IH. apply sched_step_calls_left in Hstep. lia.
Qed.






Lemma creates_cons x a :
  creates (x :: a) = creates a ++ [Call_CreateUser (Some x.1)].
Proof. unfold creates. by rewrite reverse_cons, fmap_app. Qed.

(** [Unlock] after [Lock] on a free lock. *)
Lemma Unlock_free σ :
  writer (mutex (repo σ)) = false → readers (mutex (repo σ)) = 0%nat →
  Unlock σ = σ ∧ idle σ.
Proof.
  destruct σ as [h [us [w r] n]]. simpl. intros -> ->. done.
Qed.

Lemma linearized_after σ0 c i g g' σ' a :
  goroutines c !! i = Some g →
  (∀ j gj, goroutines c !! j = Some gj → j ≠ i →
           in_critical_section gj = false) →
  (in_critical_section g' = true →
   settled g' σ' = do_calls (creates (a ++ assigned c)) σ0) →
  (in_critical_section g' = false →
   σ' = do_calls (creates (a ++ assigned c)) σ0) →
  linearized σ0 (mkConfig (<[i := g']> (goroutines c)) σ' (a ++ assigned c)).
Proof.
  intros Hg Hothers Hin Hout.
  assert (i < length (goroutines c))%nat as Hi by by eapply lookup_lt_Some.
  split; simpl.
  - intros j gj Hj Hcs.
    apply list_lookup_insert_Some in Hj as [(-> & -> & _)|[Hne Hj]]; [auto|].
    rewrite (Hothers j gj Hj) in Hcs; [done|congruence].
  - intros Hq. apply Hout. apply (Hq i). simpl.
    by apply list_lookup_insert_eq.
Qed.

Lemma step_linearized σ0 c c' :
  invariant c → linearized σ0 c → sched_step c c' → linearized σ0 c'.
Proof.
  intros Hinv [Hin Hout] Hstep. destruct Hstep as [i g g' σ' a c Hg Hstep].
  pose proof (others_outside c i g g' σ' a Hinv Hg Hstep) as Hothers.
  assert (in_critical_section g = false →
          shared c = do_calls (creates (assigned c)) σ0) as Hq.
  { intros Hcs. apply Hout. intros j gj Hj.
    destruct (decide (j = i)) as [->|Hne]; [congruence|]. by eapply Hothers. }
  specialize (Hin i g Hg).
  pose proof (inv_readers c Hinv) as Hreaders.
  pose proof (inv_assigning c Hinv i g Hg) as Hassign.
  pose proof (inv_heap c Hinv) as Hheap.
  unfold goroutine_step in Hstep.
  unfold settled, in_critical_section, assigning in Hin, Hq, Hassign.
  destruct (todo g) as [|user rest] eqn:Htodo; [done|].
  destruct (at_pc g) eqn:Hpc.
  - (* r.mutex.Lock() *)
    unfold Lock in Hstep.
    destruct (writer (mutex (repo (shared c)))) eqn:Hw; [done|].
    rewrite Hreaders in Hstep. injection Hstep as <- <- <-.
    apply (linearized_after σ0 c i g); [done|done| |done].
    intros _. cbn [app]. unfold settled. simpl. rewrite <- Hq by done.
    destruct (shared c) as [h [us [w r] n]]. simpl in *. by subst.
  - (* user.ID = r.nextID *)
    specialize (Hin eq_refl).
    unfold mbind, M_bind, get_nextID, store_ID in Hstep.
    destruct user as [l|]; [destruct (heap (shared c) !! l) as [u|] eqn:Hl|].
    + injection Hstep as <- <- <-.
      apply (linearized_after σ0 c i g); [done|done| |done].
      intros _. cbn [app]. rewrite creates_cons, do_calls_app, <- Hin.
      unfold do_calls. simpl. unfold run.
      rewrite (CreateUser_Some (Unlock (shared c)) l u).
      * unfold settled. simpl. unfold goroutine_step. simpl.
        unfold mbind, M_bind, load_ID, get_users, set_users. simpl.
        rewrite lookup_insert_eq. simpl.
        destruct (shared c) as [h [us [w r] n]]. simpl in *. by subst.
      * unfold idle. destruct (shared c) as [h [us [w r] n]]. simpl in *.
        by subst.
      * done.
    + injection Hstep as <- <- <-.
      apply (linearized_after σ0 c i g); [done|done| |done].
      intros _. cbn [app]. by rewrite <- Hin.
    + injection Hstep as <- <- <-.
      apply (linearized_after σ0 c i g); [done|done| |done].
      intros _. cbn [app]. by rewrite <- Hin.
  - (* the read of r.nextID++ *)
    specialize (Hin eq_refl).
    assert (goroutine_step g (shared c) = Some (g', σ', a)) as Hstep'.
    { unfold goroutine_step. by rewrite Htodo, Hpc. }
    assert (todo g' ≠ [] ∧ at_pc g' = AtStoreNextID ∧ a = [])
      as (Hne & Hpc' & ->) by (by simplify_eq).
    apply (linearized_after σ0 c i g); [done|done|..].
    + intros _. cbn [app]. rewrite <- Hin. unfold settled. rewrite Hpc'.
      destruct (todo g') eqn:Htodo'; [done|].
      cbn [steps_left run_alone]. by rewrite Hstep'.
    + unfold in_critical_section. rewrite Hpc'. by destruct (todo g').
  - (* the write of r.nextID++ *)
    specialize (Hin eq_refl).
    assert (goroutine_step g (shared c) = Some (g', σ', a)) as Hstep'.
    { unfold goroutine_step. by rewrite Htodo, Hpc. }
    assert (todo g' ≠ [] ∧ at_pc g' = AtStoreUser ∧ a = [])
      as (Hne & Hpc' & ->) by (unfold set_nextID in Hstep; by simplify_eq).
    apply (linearized_after σ0 c i g); [done|done|..].
    + intros _. cbn [app]. rewrite <- Hin. unfold settled. rewrite Hpc'.
      destruct (todo g') eqn:Htodo'; [done|].
      cbn [steps_left run_alone]. by rewrite Hstep'.
    + unfold in_critical_section. rewrite Hpc'. by destruct (todo g').
  - (* r.users[user.ID] = user *)
    specialize (Hin eq_refl).
    assert (goroutine_step g (shared c) = Some (g', σ', a)) as Hstep'.
    { unfold goroutine_step. by rewrite Htodo, Hpc. }
    assert (todo g' ≠ [] ∧ at_pc g' = AtUnlock ∧ a = []) as (Hne & Hpc' & ->).
    { repeat case_match; simplify_eq; done. }
    apply (linearized_after σ0 c i g); [done|done|..].
    + intros _. cbn [app]. rewrite <- Hin. unfold settled. rewrite Hpc'.
      destruct (todo g') eqn:Htodo'; [done|].
      cbn [steps_left run_alone]. by rewrite Hstep'.
    + unfold in_critical_section. rewrite Hpc'. by destruct (todo g').
  - (* the deferred r.mutex.Unlock() *)
    injection Hstep as <- <- <-. specialize (Hin eq_refl).
    apply (linearized_after σ0 c i g); [done|done|..].
    + unfold in_critical_section. simpl. by destruct rest.
    + intros _. cbn [app]. rewrite <- Hin. simpl. unfold goroutine_step.
      by rewrite Htodo, Hpc.
Qed.

Lemma start_linearized calls σ0 : linearized σ0 (start calls σ0).
Proof.
  split; [|done]. intros i g. unfold start. simpl.
  rewrite list_lookup_fmap. destruct (calls !! i) as [us|]; [|done].
  intros [= <-]. unfold in_critical_section. simpl. by destruct us.
Qed.

Lemma reachable_linearized calls σ0 c :
  fresh_repo σ0 →
  rtc sched_step (start calls σ0) c →
  Z.of_nat (length (assigned c)) < MaxInt →
  invariant c ∧ linearized σ0 c.
Proof.
  intros Hfresh Hreach. revert c Hreach.
  apply (rtc_ind_r (λ c, Z.of_nat (length (assigned c)) < MaxInt →
                         invariant c ∧ linearized σ0 c)).
  - intros _. split; [by apply start_invariant|apply start_linearized].
  - intros c c' _ Hstep IH Hbound.
    destruct IH as [Hinv Hlin].
    { destruct Hstep as [i g g' σ' a c _ _]. simpl in Hbound.
      rewrite length_app in Hbound. lia. }
    split; [by apply (step_invariant c c')|by apply (step_linearized σ0 c c')].
Qed.

(** X16. Goroutines that call [CreateUser] on a new repository, fewer than
    [MaxInt] calls in all, their steps interleaved in any way: whenever no
    call is in progress, the repository and the objects are exactly as
    the calls that were assigned an identifier leave them when they are
    made one after the other, in the order in which the identifiers were
    assigned. *)
Theorem concurrent_CreateUser_linearizable calls σ0 c :
  fresh_repo σ0 →
  Z.of_nat (length (concat calls)) < MaxInt →
  rtc sched_step (start calls σ0) c →
  quiescent c →
  shared c = do_calls (creates (assigned c)) σ0.
Proof.
  intros Hfresh Hbound Hreach Hq.
  destruct (reachable_linearized calls σ0 c Hfresh Hreach) as [_ [_ Hout]].
  { pose proof (assigned_calls calls σ0 c Hreach). lia. }
  by apply Hout.
Qed.

Lemma concurrent_CreateUser_linearizable_witness :
  shared (run_schedule [0; 1; 0; 0; 1; 0; 0; 0; 1; 1; 1; 1; 1; 1]%nat
            (start [[Some 1%positive]; [Some 2%positive]] two_users))
  = do_calls [Call_CreateUser (Some 1%positive);
              Call_CreateUser (Some 2%positive)] two_users.
Proof.
  apply (concurrent_CreateUser_linearizable
           [[Some 1%positive]; [Some 2%positive]] two_users
           (run_schedule [0; 1; 0; 0; 1; 0; 0; 0; 1; 1; 1; 1; 1; 1]%nat
              (start [[Some 1%positive]; [Some 2%positive]] two_users))).
  - reflexivity.
  - by vm_compute.
  - apply run_schedule_reachable.
  - intros i g Hg.
    eapply (Forall_lookup_1 (λ g, in_critical_section g = false));
      [|exact Hg].
    vm_compute. repeat constructor.
Defined.

End runs.
